(** * HaploMapper: haplogroup frequency tables

    A shallow embedding of the two table builders of step 2,
    [haplogroup_frequency_tables.py] (basal letters only) and
    [new_haplogroup_frequency_tables.py] (basal letters and subclades),
    and the properties of the tables they write.

    Modelling conventions.
    - A data frame is the list of its rows.  The input frame is taken after
      [pd.read_csv(..., dtype=str).fillna("")] and after the three
      [pd.to_numeric(..., errors='coerce')] calls of [main]: a numeric column
      holds [Some q] for a parsed number and [None] for NaN.
    - float64 values are exact rationals ([Q]); NaN is [None].
    - Text is [string] over ASCII; [strip], [upper] and [isdigit] are the
      Python operations restricted to ASCII characters.
    - pandas operations follow pandas 1.x/2.x: [groupby] and [pivot_table]
      sort their keys, [pivot_table] aggregates with the mean and fills
      missing combinations with [fill_value], [mean] and [sum] skip NaN, and
      [astype(str)] renders a missing [Int64] as the text [<NA>]. *)

From Stdlib Require Import List String Ascii Bool Arith ZArith NArith QArith Qabs Qround Lia.
From Stdlib Require Import Sorting.Sorted Sorting.Permutation Setoid Morphisms.
From Stdlib Require Import Numbers.DecimalString DecimalZ DecimalPos.
Import ListNotations.

Local Open Scope string_scope.
Local Open Scope Z_scope.

(* ================================================================== *)
(** ** Python string operations (ASCII) *)

Module Py.

Definition code (c : ascii) : N := N_of_ascii c.

(** [str.isspace] on one character: TAB..CR, FS..US and the blank. *)
Definition isspace (c : ascii) : bool :=
  let n := code c in
  ((9 <=? n) && (n <=? 13) || (28 <=? n) && (n <=? 32))%N.

(** [str.isdigit] on one ASCII character. *)
Definition isdigit (c : ascii) : bool :=
  let n := code c in ((48 <=? n) && (n <=? 57))%N.

Definition upper_char (c : ascii) : ascii :=
  let n := code c in
  if ((97 <=? n) && (n <=? 122))%N then ascii_of_N (n - 32) else c.

Fixpoint upper (s : string) : string :=
  match s with
  | EmptyString => EmptyString
  | String c s' => String (upper_char c) (upper s')
  end.

Fixpoint lstrip (s : string) : string :=
  match s with
  | EmptyString => EmptyString
  | String c s' => if isspace c then lstrip s' else s
  end.

Fixpoint rstrip (s : string) : string :=
  match s with
  | EmptyString => EmptyString
  | String c s' =>
      match rstrip s' with
      | EmptyString => if isspace c then EmptyString else String c EmptyString
      | t => String c t
      end
  end.

Definition strip (s : string) : string := rstrip (lstrip s).

(** [len(x)] *)
Definition len (s : string) : nat := String.length s.

(** [x[i]], [None] standing for IndexError. *)
Definition item (s : string) (i : nat) : option ascii := String.get i s.

(** [x[:n]] *)
Definition slice_to (n : nat) (s : string) : string := String.substring 0 n s.

(** [x.startswith(p)] *)
Definition startswith (p s : string) : bool := String.prefix p s.

(** [x in l] for a list of strings. *)
Definition isin (x : string) (l : list string) : bool :=
  existsb (String.eqb x) l.

(** [str(z)] for an integer. *)
Definition str_int (z : Z) : string := NilZero.string_of_int (Z.to_int z).

End Py.

(* ================================================================== *)
(** ** Orders and sorting *)

(** Comparison of sort keys: Python compares strings by code point and
    tuples lexicographically. *)
Class Ord (A : Type) := cmp : A -> A -> comparison.

#[export] Instance Ord_string : Ord string := String.compare.

#[export] Instance Ord_prod {A B} `{Ord A} `{Ord B} : Ord (A * B) :=
  fun x y =>
    match cmp (fst x) (fst y) with
    | Eq => cmp (snd x) (snd y)
    | c => c
    end.

Definition eqk {A} `{Ord A} (x y : A) : bool :=
  match cmp x y with Eq => true | _ => false end.

Section Sorting.
Context {A : Type} `{Ord A}.

(** Stable insertion, the order of [sorted(l)]. *)
Fixpoint insert (x : A) (l : list A) : list A :=
  match l with
  | [] => [x]
  | y :: l' =>
      match cmp x y with
      | Gt => y :: insert x l'
      | _ => x :: l
      end
  end.

Definition sorted (l : list A) : list A := fold_right insert [] l.

(** Insertion into a duplicate-free sorted list. *)
Fixpoint insert_uniq (x : A) (l : list A) : list A :=
  match l with
  | [] => [x]
  | y :: l' =>
      match cmp x y with
      | Lt => x :: l
      | Eq => l
      | Gt => y :: insert_uniq x l'
      end
  end.

(** The sorted distinct values of [l]: the keys of a [groupby], the index
    and the columns of a [pivot_table], and [sorted(set(l))]. *)
Definition uniq (l : list A) : list A := fold_right insert_uniq [] l.

Definition mem (x : A) (l : list A) : bool := existsb (eqk x) l.
End Sorting.

(* ================================================================== *)
(** ** Numbers: float64 as exact rationals, NaN as [None] *)

Module Np.

Definition sum (l : list Q) : Q := fold_right Qplus 0%Q l.

Definition mean (l : list Q) : option Q :=
  match l with
  | [] => None
  | _ => Some (Qred (sum l / inject_Z (Z.of_nat (List.length l))))
  end.

(** The values that are not NaN. *)
Fixpoint dropna (l : list (option Q)) : list Q :=
  match l with
  | [] => []
  | Some q :: l' => q :: dropna l'
  | None :: l' => dropna l'
  end.

(** [Series.mean()]: NaN is skipped; the mean of nothing is NaN. *)
Definition nanmean (l : list (option Q)) : option Q := mean (dropna l).

(** [DataFrame.sum(axis=1)]: NaN is skipped; the sum of nothing is 0. *)
Definition nansum (l : list (option Q)) : Q := sum (dropna l).

(** [Series.fillna(v)] on one value. *)
Definition fillna (v : Q) (x : option Q) : Q :=
  match x with Some q => q | None => v end.

Definition gt0 (q : Q) : bool := negb (Qle_bool q 0).

(** [Series.round()]: to the nearest integer, ties to the even one. *)
Definition rint (q : Q) : Z :=
  let f := Qfloor q in
  match (q - inject_Z f ?= 1 # 2)%Q with
  | Lt => f
  | Gt => f + 1
  | Eq => if Z.even f then f else f + 1
  end.

(** [astype(int)] on a float: truncation toward zero. *)
Definition trunc (q : Q) : Z := Z.quot (Qnum q) (Z.pos (Qden q)).

Definition two_digits (n : Z) : string :=
  if n <? 10 then "0" ++ Py.str_int n else Py.str_int n.

(** [f"{x:.2f}"] *)
Definition fmt2 (q : Q) : string :=
  let n := rint (Qabs q * 100) in
  (if Qle_bool 0 q then "" else "-")
    ++ Py.str_int (n / 100) ++ "." ++ two_digits (n mod 100).

End Np.

(* ================================================================== *)
(** ** The input frame and the columns [main] derives *)

(** One row of the annotation table, after [main] has coerced the age and
    the coordinates to numbers. *)
Record Row := mkRow {
  Political_Entity : string;
  age_numeric : option Q;
  lat_numeric : option Q;
  long_numeric : option Q;
  Y_haplogroup : string;
  mtDNA_haplogroup : string
}.

(** [(np.floor(df['age_numeric'] / 1000) * 1000).astype('Int64')] *)
Definition age_bin_lower (r : Row) : option Z :=
  option_map (fun a => Qfloor (a / 1000) * 1000) (age_numeric r).

(** [astype(str)] on an [Int64] value; a missing value prints as [<NA>]. *)
Definition astype_str (v : option Z) : string :=
  match v with
  | Some z => Py.str_int z
  | None => "<NA>"
  end.

(** [df['age_bin_lower'].astype(str) + "-" +
     (df['age_bin_lower'] + 1000).astype(str) + " BP"] *)
Definition binned_age (r : Row) : string :=
  astype_str (age_bin_lower r) ++ "-"
    ++ astype_str (option_map (fun z => z + 1000) (age_bin_lower r)) ++ " BP".

(** [df[col_country] + " " + df["binned_age"]] *)
Definition Ancient_pop_name (r : Row) : string :=
  Political_Entity r ++ " " ++ binned_age r.

(** The three grouping columns
    [["Ancient pop name", col_country, "binned_age"]] of one row. *)
Definition GroupKey : Type := string * string * string.

Definition group_keys (r : Row) : GroupKey :=
  (Ancient_pop_name r, Political_Entity r, binned_age r).

(* ================================================================== *)
(** ** pandas: groupby, pivot_table, cells *)

(** [groupby(keys).size()]: one entry per distinct key, in key order. *)
Definition size_of {K} `{Ord K} (f : Row -> K) (k : K) (l : list Row) : Z :=
  Z.of_nat (List.length (filter (fun r => eqk (f r) k) l)).

Definition groupby_size {K} `{Ord K} (f : Row -> K) (l : list Row)
  : list (K * Z) :=
  map (fun k => (k, size_of f k l)) (uniq (map f l)).

(** The rows of a group. *)
Definition get_group (g : GroupKey) (l : list Row) : list Row :=
  filter (fun r => eqk (group_keys r) g) l.

(** [pivot_table(index, columns, values, fill_value)] with the default
    aggregation, the mean of the values that share an index and a column. *)
Record Pivot (I C : Type) := mkPivot {
  index : list I;
  columns : list C;
  value : I -> C -> Q
}.
Arguments index {I C} _.
Arguments columns {I C} _.
Arguments value {I C} _ _ _.

Definition pivot_table {I C} `{Ord I} `{Ord C}
    (t : list (I * C * Z)) (fill_value : Q) : Pivot I C :=
  {| index := uniq (map (fun e => fst (fst e)) t);
     columns := uniq (map (fun e => snd (fst e)) t);
     value := fun i c =>
       match Np.mean (map (fun e => inject_Z (snd e))
                (filter (fun e => eqk (fst (fst e)) i && eqk (snd (fst e)) c) t))
       with
       | Some m => m
       | None => fill_value
       end |}.

(** A cell of a frame: text, a float (possibly NaN) or an integer. *)
Inductive Cell :=
| Str (s : string)
| Num (x : option Q)
| Int (z : Z).

(** A frame row as written to the output: column name and cell, in column
    order. *)
Definition FrameRow : Type := list (string * Cell).

Fixpoint lookup (c : string) (row : FrameRow) : option Cell :=
  match row with
  | [] => None
  | (c', v) :: row' => if String.eqb c c' then Some v else lookup c row'
  end.

Definition column_names (row : FrameRow) : list string := map fst row.

(** [df[cols]] on one row, for column names that exist. *)
Definition select (cols : list string) (row : FrameRow) : FrameRow :=
  flat_map (fun c => match lookup c row with
                     | Some v => [(c, v)]
                     | None => []
                     end) cols.

(** [format_calendar_year] *)
Definition format_calendar_year (year : Z) : string :=
  if 0 <? year then Py.str_int year ++ " CE"
  else if year <? 0 then Py.str_int (Z.abs year) ++ " BCE"
  else "0 CE".

(** [lambda x: f"{x:.2f}%" if pd.notna(x) else ""] after [astype(float)]. *)
Definition percent_cell (v : Cell) : Cell :=
  match v with
  | Num (Some q) => Str (Np.fmt2 q ++ "%")
  | Num None => Str ""
  | Int z => Str (Np.fmt2 (inject_Z z) ++ "%")
  | Str s => Str s
  end.

(** [astype(int)] *)
Definition int_cell (v : Cell) : Cell :=
  match v with
  | Num (Some q) => Int (Np.trunc q)
  | other => other
  end.

Definition base_cols : list string :=
  ["Ancient pop name"; "Country"; "Age"; "Lat"; "Long"].

(** Group means of the coordinate columns:
    [groupby(group_cols)[["lat_numeric", "long_numeric", "age_numeric"]].mean()] *)
Definition coord_mean (col : Row -> option Q) (g : GroupKey) (l : list Row)
  : option Q :=
  Np.nanmean (map col (get_group g l)).

(* ================================================================== *)
(** ** new_haplogroup_frequency_tables.py *)

Module NewTables.

(** The warnings [make_haplo_table] prints. *)
Inductive Warning :=
| Zero_total                      (* "Some rows have a total count of 0 ..." *)
| No_subclades                    (* "No valid subclade haplogroups found ..." *)
| Subclade_error (sc : string)    (* "Error processing subclade {sc} ..." *)
| Age_unknown.                    (* "Error calculating calendar years ..." *)

(** The two [ValueError]s raised by the filters. *)
Inductive Error :=
| No_valid_entries
| No_matching_pattern.

Inductive Outcome :=
| Written (rows : list FrameRow) (warnings : list Warning)
| Raised (e : Error).

Definition invalid_patterns : list string :=
  [""; ".."; "n/a"; "N/A"; "Neanderthal"].

Definition is_valid_haplo (x : string) : bool :=
  let x := Py.strip x in
  (Py.len x =? 1)%nat
  || ((2 <=? Py.len x)%nat
      && match Py.item x 1 with
         | Some c => Py.isdigit c
         | None => false
         end).

Definition parse_subclade (h : string) : option string :=
  let h := Py.strip h in
  if (Py.len h <? 2)%nat then None
  else match Py.item h 1 with
       | Some c => if Py.isdigit c then Some (Py.upper (Py.slice_to 2 h)) else None
       | None => None
       end.

(** [np.where(total > 0, count / total * 100, 0.0)] on one row. *)
Definition percentage (count total : Q) : Q :=
  if Np.gt0 total then (count / total * 100)%Q else 0%Q.

(** [if (pivot_basal["Total"] == 0).any(): print("Warning: ...")] *)
Definition zero_total_warning (totals : list Q) : list Warning :=
  if existsb (Qeq_bool 0) totals then [Zero_total] else [].

Section MakeHaploTable.
Variable haplo_col : Row -> string.

(** 1) the two filters that build [df_valid] *)
Definition filter_patterns (df : list Row) : list Row :=
  filter (fun r => negb (Py.isin (Py.strip (haplo_col r)) invalid_patterns)) df.

Definition filter_shape (df : list Row) : list Row :=
  filter (fun r => is_valid_haplo (haplo_col r)) df.

(** 2) [df_valid[haplo_col].str[0].str.upper()] *)
Definition haplo_basal (r : Row) : string :=
  Py.upper (Py.slice_to 1 (haplo_col r)).

Definition haplo_sub (r : Row) : option string :=
  parse_subclade (haplo_col r).

Section Valid.
Variable df_valid : list Row.

(** 3) raw counts per group and basal letter *)
Definition grouped_basal : list (GroupKey * string * Z) :=
  groupby_size (fun r => (group_keys r, haplo_basal r)) df_valid.

(** 4) the pivot of raw counts ([pivot_basal] before step 5, and
    [pivot_basal_counts]) *)
Definition pivot_basal_counts : Pivot GroupKey string :=
  pivot_table grouped_basal 0.

Definition basal_letters : list string := columns pivot_basal_counts.

Definition Count_basal (g : GroupKey) (b : string) : Q :=
  value pivot_basal_counts g b.

(** [pivot_basal.sum(axis=1)] *)
Definition Total_count (g : GroupKey) : Q :=
  Np.sum (map (Count_basal g) basal_letters).

(** 5) the basal percentages *)
Definition pivot_basal (g : GroupKey) (b : string) : Q :=
  percentage (Count_basal g b) (Total_count g).

(** 6) raw subclade counts *)
Definition sub_valid : list Row :=
  filter (fun r => match haplo_sub r with Some _ => true | None => false end)
         df_valid.

Definition sub_code (r : Row) : string :=
  match haplo_sub r with Some s => s | None => "" end.

Definition grouped_sub : list (GroupKey * string * string * Z) :=
  groupby_size (fun r => (group_keys r, haplo_basal r, sub_code r)) sub_valid.

(** [pivot_table(index=group_cols, columns="haplo_sub", values="Count_sub")]:
    [haplo_basal] is no key of the pivot. *)
Definition pivot_sub : Pivot GroupKey string :=
  pivot_table
    (map (fun e => (fst (fst (fst e)), snd (fst e), snd e)) grouped_sub) 0.

(** 7) the left merge: a group without subclade rows gets NaN. *)
Definition merged_sub (g : GroupKey) (sc : string) : option Q :=
  if mem g (index pivot_sub) then Some (value pivot_sub g sc) else None.

(** 9) [sorted(set(pivot_sub.columns) - set(group_cols))] and the
    recalculated total *)
Definition subclade_cols : list string := uniq (columns pivot_sub).

Definition Total (g : GroupKey) : Q :=
  match subclade_cols with
  | [] => Total_count g
  | _ => (Total_count g + Np.nansum (map (merged_sub g) subclade_cols))%Q
  end.

(** 10) subclade frequencies.  The column [parent_letter + "_count"]
    exists exactly for the basal letters; a missing one is the KeyError
    that sets the column to 0.0. *)
Definition parent_letter (sc : string) : string :=
  Py.upper (Py.slice_to 1 sc).

Definition has_parent (sc : string) : bool :=
  Py.isin (parent_letter sc) basal_letters.

Definition subclade_percentage (g : GroupKey) (sc : string) : Q :=
  if has_parent sc then
    percentage (Np.fillna 0 (merged_sub g sc)) (Count_basal g (parent_letter sc))
  else 0%Q.

Definition subclade_warnings : list Warning :=
  map Subclade_error (filter (fun sc => negb (has_parent sc)) subclade_cols).

(** 11) coordinate means over the filtered rows *)
Definition coord_df (g : GroupKey) : option Q * option Q * option Q :=
  (coord_mean lat_numeric g df_valid,
   coord_mean long_numeric g df_valid,
   coord_mean age_numeric g df_valid).

(** 13) [(1950 - merged_df["age_numeric"]).round().astype(int)] raises
    when one group has no age; every row then gets "Unknown". *)
Definition computed_age : option (GroupKey -> Z) :=
  if forallb (fun g => match coord_mean age_numeric g df_valid with
                       | Some _ => true
                       | None => false
                       end) (index pivot_basal_counts)
  then Some (fun g => Np.rint (1950 - Np.fillna 0 (coord_mean age_numeric g df_valid)))
  else None.

Definition Age (g : GroupKey) : string :=
  match computed_age with
  | Some year => format_calendar_year (year g)
  | None => "Unknown"
  end.

(** The merged frame after step 15, one row per group. *)
Definition merged_df (g : GroupKey) : FrameRow :=
  ([("Ancient pop name", Str (fst (fst g))); ("Country", Str (snd (fst g)))]
   ++ map (fun b => (b, Num (Some (pivot_basal g b)))) basal_letters
   ++ [("Total", Num (Some (Total g)))]
   ++ map (fun sc => (sc, Num (Some (subclade_percentage g sc)))) subclade_cols
   ++ map (fun b => ((b ++ "_count")%string, Num (Some (Count_basal g b))))
          basal_letters
   ++ [("Total_count", Num (Some (Total_count g)));
       ("Lat", Num (fst (fst (coord_df g))));
       ("Long", Num (snd (fst (coord_df g))));
       ("Age", Str (Age g))])%list.

(** 16) the column order *)
Definition related_subs (b : string) : list string :=
  sorted (filter (Py.startswith b) subclade_cols).

Definition final_order_of_haplos : list string :=
  (flat_map (fun b => b :: related_subs b) (sorted basal_letters)
   ++ ["Total"])%list.

Definition final_cols (g : GroupKey) : list string :=
  filter (fun c => Py.isin c (column_names (merged_df g)))
         (base_cols ++ final_order_of_haplos)%list.

(** 17) formatting, one column of [final_order_of_haplos] after the other.
    A column is formatted once: a second [astype(float)] on the percent text
    would fail and leave the column as it is. *)
Definition format_cell (entry : string * Cell) : string * Cell :=
  let (hc, v) := entry in
  if String.eqb hc "Total" then (hc, int_cell v)
  else if Py.isin hc final_order_of_haplos then (hc, percent_cell v)
  else (hc, v).

Definition output_row (g : GroupKey) : FrameRow :=
  map format_cell (select (final_cols g) (merged_df g)).

Definition output_rows : list FrameRow :=
  map output_row (index pivot_basal_counts).

Definition warnings : list Warning :=
  (zero_total_warning (map Total_count (index pivot_basal_counts))
   ++ (match sub_valid with [] => [No_subclades] | _ => [] end)
   ++ subclade_warnings
   ++ (match computed_age with Some _ => [] | None => [Age_unknown] end))%list.
End Valid.

Definition df_valid (df : list Row) : list Row :=
  filter_shape (filter_patterns df).

Definition make_haplo_table (df : list Row) : Outcome :=
  match filter_patterns df with
  | [] => Raised No_valid_entries
  | _ =>
      match df_valid df with
      | [] => Raised No_matching_pattern
      | dfv => Written (output_rows dfv) (warnings dfv)
      end
  end.
End MakeHaploTable.

(** [main]: the run stops when no row has a numeric age; a haplogroup type
    whose column is blank throughout is skipped. *)
Inductive Run :=
| Skipped
| Ran (o : Outcome).

Definition run (haplo_col : Row -> string) (df : list Row) : Run :=
  if forallb (fun r => String.eqb (Py.strip (haplo_col r)) "") df then Skipped
  else Ran (make_haplo_table haplo_col df).

Definition main (df : list Row) : option (Run * Run) :=
  if forallb (fun r => match age_numeric r with None => true | Some _ => false end) df
  then None
  else Some (run Y_haplogroup df, run mtDNA_haplogroup df).

End NewTables.

(* ================================================================== *)
(** ** haplogroup_frequency_tables.py *)

Module OldTables.

(** The script has no error handling: the cast of a NaN mean age to [int]
    ends the run with no table written. *)
Inductive Outcome :=
| Written (rows : list FrameRow)
| Raised_cast_NaN.

Definition invalid_patterns : list string := [""; ".."; "n/a"; "N/A"].

Section MakeHaploTable.
Variable haplo_col : Row -> string.

(** 1) *)
Definition df_valid (df : list Row) : list Row :=
  filter (fun r => negb (Py.isin (Py.strip (haplo_col r)) invalid_patterns)) df.

(** 2) *)
Definition haplo_basal (r : Row) : string :=
  Py.upper (Py.slice_to 1 (haplo_col r)).

Section Frames.
Variable df : list Row.

(** 3), 4) *)
Definition grouped : list (GroupKey * string * Z) :=
  groupby_size (fun r => (group_keys r, haplo_basal r)) (df_valid df).

Definition pivot_df : Pivot GroupKey string := pivot_table grouped 0.

(** 5) *)
Definition Total (g : GroupKey) : Q :=
  Np.sum (map (value pivot_df g) (columns pivot_df)).

(** 6) [pivot_df[col] / pivot_df["Total"] * 100]; a zero total gives NaN. *)
Definition percentage (g : GroupKey) (b : string) : option Q :=
  if Qeq_bool (Total g) 0 then None
  else Some (value pivot_df g b / Total g * 100)%Q.

(** 8) the coordinate means, over all rows of [df] *)
Definition coord_df (g : GroupKey) : option Q * option Q * option Q :=
  (coord_mean lat_numeric g df,
   coord_mean long_numeric g df,
   coord_mean age_numeric g df).

(** 11) [(1950 - merged_df["age_numeric"]).round().astype(int)] *)
Definition computed_age : option (GroupKey -> Z) :=
  if forallb (fun g => match coord_mean age_numeric g df with
                       | Some _ => true
                       | None => false
                       end) (index pivot_df)
  then Some (fun g => Np.rint (1950 - Np.fillna 0 (coord_mean age_numeric g df)))
  else None.

(** The merged frame after step 13. *)
Definition merged_df (year : GroupKey -> Z) (g : GroupKey) : FrameRow :=
  ([("Ancient pop name", Str (fst (fst g))); ("Country", Str (snd (fst g)))]
   ++ map (fun b => (b, Num (percentage g b))) (columns pivot_df)
   ++ [("Total", Num (Some (Total g)));
       ("Lat", Num (fst (fst (coord_df g))));
       ("Long", Num (snd (fst (coord_df g))));
       ("Age", Str (format_calendar_year (year g)))])%list.

(** 14) *)
Definition haplo_cols_sorted (row : FrameRow) : list string :=
  sorted (filter (fun col => negb (Py.isin col (base_cols ++ ["Total"])%list))
                 (column_names row)).

Definition final_cols (row : FrameRow) : list string :=
  (base_cols ++ haplo_cols_sorted row ++ ["Total"])%list.

(** 15), 16) *)
Definition format_cell (haplo_cols : list string) (entry : string * Cell)
  : string * Cell :=
  let (col, v) := entry in
  if Py.isin col haplo_cols then (col, percent_cell v)
  else if String.eqb col "Total" then (col, int_cell v)
  else (col, v).

Definition output_row (year : GroupKey -> Z) (g : GroupKey) : FrameRow :=
  let row := merged_df year g in
  map (format_cell (haplo_cols_sorted row)) (select (final_cols row) row).

Definition make_haplo_table : Outcome :=
  match computed_age with
  | Some year => Written (map (output_row year) (index pivot_df))
  | None => Raised_cast_NaN
  end.
End Frames.
End MakeHaploTable.

Inductive Run :=
| Skipped
| Ran (o : Outcome).

Definition run (haplo_col : Row -> string) (df : list Row) : Run :=
  if forallb (fun r => String.eqb (Py.strip (haplo_col r)) "") df then Skipped
  else Ran (make_haplo_table haplo_col df).

Definition main (df : list Row) : Run * Run :=
  (run Y_haplogroup df, run mtDNA_haplogroup df).

End OldTables.

(* ================================================================== *)
(** ** Laws of the sort order *)

Class OrdLaws (A : Type) `{Ord A} : Prop := {
  cmp_refl : forall x : A, cmp x x = Eq;
  cmp_eq : forall x y : A, cmp x y = Eq -> x = y;
  cmp_antisym : forall x y : A, cmp y x = CompOpp (cmp x y);
  cmp_trans : forall x y z : A, cmp x y = Lt -> cmp y z = Lt -> cmp x z = Lt
}.

(** [before x y]: [x] sorts strictly before [y]. *)
Definition before {A} `{Ord A} (x y : A) : Prop := cmp x y = Lt.

(* ================================================================== *)
(** ** Record counts, as the properties name them *)

Definition sumZ (l : list Z) : Z := fold_right Z.add 0 l.

Definition count_rows (p : Row -> bool) (l : list Row) : Z :=
  Z.of_nat (List.length (filter p l)).

Section Counts.
Variable haplo_col : Row -> string.

(** The first character of the code as stored, upper-cased: the basal
    letter both scripts use. *)
Definition raw_basal (r : Row) : string :=
  Py.upper (Py.slice_to 1 (haplo_col r)).

(** Records of group [g] among [l]. *)
Definition n_group (l : list Row) (g : GroupKey) : Z :=
  count_rows (fun r => eqk (group_keys r) g) l.

(** Records of group [g] counted under basal letter [b]. *)
Definition n_basal (l : list Row) (g : GroupKey) (b : string) : Z :=
  count_rows (fun r => eqk (group_keys r) g && eqk (raw_basal r) b) l.

(** Records of group [g] whose subclade code is [s]. *)
Definition has_sub (s : string) (r : Row) : bool :=
  match NewTables.parse_subclade (haplo_col r) with
  | Some s' => eqk s' s
  | None => false
  end.

Definition n_sub (l : list Row) (g : GroupKey) (s : string) : Z :=
  count_rows (fun r => eqk (group_keys r) g && has_sub s r) l.

(** Records of group [g] that carry a subclade at all. *)
Definition any_sub (r : Row) : bool :=
  match NewTables.parse_subclade (haplo_col r) with
  | Some _ => true
  | None => false
  end.

Definition n_group_sub (l : list Row) (g : GroupKey) : Z :=
  count_rows (fun r => eqk (group_keys r) g && any_sub r) l.

End Counts.

(** A code stored without leading whitespace: its subclade starts with its
    basal letter. *)
Definition no_leading_space (x : string) : Prop :=
  forall c s, x = String c s -> Py.isspace c = false.

(* ================================================================== *)
(** ** Sample inputs *)

Module Samples.

(** A record of region [country] with age [age] (years BP) and Y haplogroup
    code [code], at latitude [lat]. *)
Definition sample (country : string) (age : option Q) (lat : option Q)
    (code : string) : Row :=
  mkRow country age lat (Some 20%Q) code "".

Definition X500 (code : string) : Row := sample "X" (Some 500%Q) (Some 10%Q) code.

(** The scenario of the specification: A1, A2 and B in one group. *)
Definition scenario : list Row := [X500 "A1"; X500 "A2"; X500 "B"].

(** One subclade stored with and without a leading blank. *)
Definition mixed_spacing : list Row :=
  [X500 "A1"; X500 "A1"; X500 "A1"; X500 " A1"].


(** The placeholder "Neanderthal" next to a regular code. *)
Definition with_neanderthal : list Row := [X500 "A"; X500 "Neanderthal"].


(** A record with a placeholder code at another latitude. *)
Definition with_placeholder : list Row :=
  [X500 "A"; sample "X" (Some 500%Q) (Some 30%Q) ".."].

(** Two groups, only the first with a subclade. *)
Definition two_groups : list Row :=
  [X500 "A1"; sample "Y" (Some 500%Q) (Some 10%Q) "B"].

Definition X_0_1000 : GroupKey := ("X 0-1000 BP", "X", "0-1000 BP").
Definition Y_0_1000 : GroupKey := ("Y 0-1000 BP", "Y", "0-1000 BP").

End Samples.

(* ================================================================== *)
(** ** Statements about the written tables *)

(** Every written row's [Total] is the number of valid records of the row's
    group (the sum of its raw basal counts). *)
Definition total_counts_records (haplo_col : Row -> string) (df : list Row)
  : Prop :=
  forall rows ws row,
    NewTables.make_haplo_table haplo_col df = NewTables.Written rows ws ->
    In row rows ->
    exists g,
      In g (map group_keys (NewTables.df_valid haplo_col df))
      /\ lookup "Ancient pop name" row = Some (Str (fst (fst g)))
      /\ lookup "Total" row
         = Some (Int (n_group (NewTables.df_valid haplo_col df) g)).


(** A subclade column observed in the table but in no record of the row's
    group is left blank in that row. *)
Definition absent_subclade_blank (haplo_col : Row -> string) (df : list Row)
  : Prop :=
  forall rows ws row,
    NewTables.make_haplo_table haplo_col df = NewTables.Written rows ws ->
    In row rows ->
    exists g,
      let dfv := NewTables.df_valid haplo_col df in
      In g (map group_keys dfv)
      /\ lookup "Ancient pop name" row = Some (Str (fst (fst g)))
      /\ forall sc,
          In sc (column_names row) ->
          In sc (NewTables.subclade_cols haplo_col dfv) ->
          n_sub haplo_col dfv g sc = 0 ->
          lookup sc row = Some (Str "").

(* ================================================================== *)
(** ** Decimal text *)

(** Every character of [s] is a decimal digit. *)
Fixpoint all_digits (s : string) : bool :=
  match s with
  | EmptyString => true
  | String c s' => Py.isdigit c && all_digits s'
  end.

(* ================================================================== *)
(** ** perfect_geography.py: reading the tables of step 2 *)

Module Geography.

(** [str.isalpha] on one ASCII character. *)
Definition isalpha (c : ascii) : bool :=
  let n := Py.code c in
  ((65 <=? n) && (n <=? 90) || (97 <=? n) && (n <=? 122))%N.

(** [col.isalpha()]: at least one character, and all of them letters. *)
Fixpoint all_alpha (s : string) : bool :=
  match s with
  | EmptyString => true
  | String c s' => isalpha c && all_alpha s'
  end.

Definition str_isalpha (s : string) : bool :=
  negb (String.eqb s "") && all_alpha s.

Definition meta_cols : list string :=
  ["Ancient pop name"; "Country"; "Age"; "Lat"; "Long"].

(** [haplo_cols] of [process_dataframe]:
    [[c for c in all_cols if c not in meta_cols and c != "Total"]] *)
Definition haplo_cols_of (all_cols : list string) : list string :=
  filter (fun c => negb (Py.isin c meta_cols) && negb (String.eqb c "Total"))
         all_cols.

Definition is_basal_col (col : string) : bool :=
  (Py.len col =? 1)%nat && str_isalpha col.

Definition is_subclade_col (col : string) : bool :=
  if (Py.len col <? 2)%nat then false
  else match Py.item col 0, Py.item col 1 with
       | Some a, Some b => isalpha a && Py.isdigit b
       | _, _ => false
       end.

(** [sub in s] for two strings. *)
Fixpoint contains (sub s : string) {struct s} : bool :=
  Py.startswith sub s
  || match s with
     | EmptyString => false
     | String _ s' => contains sub s'
     end.

(** The longest run of digits at the start of [s]. *)
Fixpoint digit_run (s : string) : string :=
  match s with
  | EmptyString => EmptyString
  | String c s' => if Py.isdigit c then String c (digit_run s') else EmptyString
  end.

(** [re.search(r"(\d+)", s)]: the first maximal run of digits, [None] when
    [s] has no digit. *)
Fixpoint search_digits (s : string) : option string :=
  match s with
  | EmptyString => None
  | String c s' => if Py.isdigit c then Some (digit_run s) else search_digits s'
  end.

(** [int(text)] for a run of digits, the only texts the pattern returns. *)
Definition int_of_digits (text : string) : Z :=
  match NilEmpty.uint_of_string text with
  | Some d => Z.of_uint d
  | None => 0
  end.

(** [parse_historical_age], on a string (the "Age" column is read with
    [dtype=str]). *)
Definition parse_historical_age (age_str : string) : Z :=
  let is_bce := contains "BCE" age_str || contains "BC" age_str in
  match search_digits age_str with
  | None => 0
  | Some text =>
      let year := int_of_digits text in
      if is_bce then - year else year
  end.

(** *** [build_two_ring_data] *)

(** A Python [dict] with string keys, in insertion order. *)
Definition Dict (V : Type) : Type := list (string * V).

Fixpoint get {V} (k : string) (d : Dict V) : option V :=
  match d with
  | [] => None
  | (k', v) :: d' => if String.eqb k k' then Some v else get k d'
  end.

(** [d[k] = v]: a present key keeps its place. *)
Fixpoint set {V} (k : string) (v : V) (d : Dict V) : Dict V :=
  match d with
  | [] => [(k, v)]
  | (k', v') :: d' =>
      if String.eqb k k' then (k, v) :: d' else (k', v') :: set k v d'
  end.

(** [k in d] *)
Definition has_key {V} (k : string) (d : Dict V) : bool :=
  match get k d with Some _ => true | None => false end.

(** [d.setdefault(k, []).append(e)] *)
Definition setdefault_append {E} (k : string) (e : E) (d : Dict (list E))
  : Dict (list E) :=
  match get k d with
  | Some l => set k (l ++ [e])%list d
  | None => set k [e] d
  end.

(** [sum(l)]: from 0, left to right. *)
Definition py_sum (l : list Q) : Q := fold_left Qplus l 0%Q.

(** [sorted(items, key=lambda x: x[1], reverse=True)]: descending by value,
    items of equal value in their original order. *)
Fixpoint insert_desc (x : string * Q) (l : list (string * Q))
  : list (string * Q) :=
  match l with
  | [] => [x]
  | y :: l' =>
      if Qle_bool (snd y) (snd x) then x :: l else y :: insert_desc x l'
  end.

Definition sorted_desc (l : list (string * Q)) : list (string * Q) :=
  fold_right insert_desc [] l.

(** One position of the five parallel lists the function returns. *)
Record Slice := mkSlice {
  label : string;
  data_main : Q;
  data_sub : Q;
  display_sub : option Q;
  is_placeholder : bool
}.

Section TwoRing.
(** The order in which a [set] of strings is iterated; Python leaves it
  open. *)
Variable set_order : list string -> list string.
(** [float(row[col])], [None] when it raises. *)
Variable row : string -> option Q.
Variable haplo_cols : list string.

(** The first loop: the two dictionaries. *)
Definition collect_col (acc : Dict Q * Dict (list (string * Q))) (col : string)
: Dict Q * Dict (list (string * Q)) :=
match row col with
| None => acc
| Some val_pct =>
    if Qle_bool val_pct 0 then acc
    else if is_basal_col col then (set col val_pct (fst acc), snd acc)
    else if is_subclade_col col then
      (fst acc, setdefault_append (Py.slice_to 1 col) (col, val_pct) (snd acc))
    else acc
end.

Definition collect : Dict Q * Dict (list (string * Q)) :=
fold_left collect_col haplo_cols ([], []).

Definition basal_values : Dict Q := fst collect.
Definition subclade_values : Dict (list (string * Q)) := snd collect.

Definition basal_sorted : list (string * Q) := sorted_desc basal_values.

(** The body of the loop over [basal_sorted]. *)
Definition parent_block (b : string * Q) : list Slice :=
let (basal, basal_val) := b in
mkSlice basal basal_val 0 None false
:: match get basal subclade_values with
   | Some (e :: es) =>
       let subclades := e :: es in
       let sum_sub := py_sum (map snd subclades) in
       map (fun s =>
              mkSlice (fst s) 0
                (if Np.gt0 sum_sub then snd s / sum_sub * basal_val else 0)%Q
                (Some (if Np.gt0 sum_sub then snd s / sum_sub * 100 else 0)%Q)
                false)
           (sorted_desc subclades)
   | _ => [mkSlice (basal ++ "_placeholder") 0 basal_val None true]
   end.

(** [set([subclade[0][0] for subclade in subclade_values.items()
        if subclade[0] not in basal_values])] *)
Definition leftover_parents : list string :=
set_order
  (map (fun e => Py.slice_to 1 (fst e))
       (filter (fun e => negb (has_key (fst e) basal_values))
               subclade_values)).

(** The body of the loop over [leftover_parents]; a key of
  [subclade_values] is one character, so [subclade_values[parent]] is
  there. *)
Definition leftover_block (parent : string) : list Slice :=
let subclades :=
  match get parent subclade_values with Some l => l | None => [] end in
let sum_sub := py_sum (map snd subclades) in
mkSlice parent 0 0 None false
:: map (fun s =>
          mkSlice (fst s) 0 (snd s)
            (Some (if Np.gt0 sum_sub then snd s / sum_sub * 100 else 0)%Q)
            false)
       (sorted_desc subclades).

Definition slices : list Slice :=
(flat_map parent_block basal_sorted
 ++ flat_map leftover_block leftover_parents)%list.

Definition build_two_ring_data
: list string * list Q * list Q * list (option Q) * list bool :=
(map label slices, map data_main slices, map data_sub slices,
 map display_sub slices, map is_placeholder slices).
End TwoRing.

End Geography.

(* ================================================================== *)
(** ** Statements about the chart data *)

(** What the first loop of [build_two_ring_data] keeps: every stored value
    is positive, and no parent has an empty list of subclades. *)
Definition collected
    (acc : Geography.Dict Q * Geography.Dict (list (string * Q))) : Prop :=
  (forall k v, In (k, v) (fst acc) -> (0 < v)%Q)
  /\ (forall p subs, In (p, subs) (snd acc) ->
                     subs <> [] /\ forall e, In e subs -> (0 < snd e)%Q).

(** The subclade columns of [parent] with a positive value in [row], with
    their values, in column order. *)
Definition subclade_entries (row : string -> option Q)
    (haplo_cols : list string) (parent : string) : list (string * Q) :=
  flat_map
    (fun col =>
       match row col with
       | Some val =>
           if negb (Qle_bool val 0) && Geography.is_subclade_col col
              && String.eqb (Py.slice_to 1 col) parent
           then [(col, val)] else []
       | None => []
       end)
    haplo_cols.

(** A chart row given by its cells. *)
Definition chart_row (cells : list (string * Q)) (col : string) : option Q :=
  Geography.get col cells.

(** The subclades stored for [parent] by the first loop, none when the
    key is missing. *)
Definition stored_subclades (parent : string)
    (d : Geography.Dict (list (string * Q))) : list (string * Q) :=
  match Geography.get parent d with Some l => l | None => [] end.


(* ================================================================== *)
(** * Properties *)

Local Open Scope list_scope.
Arguments Qred : simpl never.

(** ** The sort order *)

Lemma ascii_compare_refl (a : ascii) : Ascii.compare a a = Eq.
Proof. unfold Ascii.compare. apply N.compare_refl. Qed.

Lemma ascii_compare_trans (a b c : ascii) :
  Ascii.compare a b = Lt -> Ascii.compare b c = Lt -> Ascii.compare a c = Lt.
Proof.
  unfold Ascii.compare. rewrite !N.compare_lt_iff. apply N.lt_trans.
Qed.

Lemma string_compare_refl (s : string) : String.compare s s = Eq.
Proof.
  induction s as [|a s IH]; simpl; [reflexivity|].
  now rewrite ascii_compare_refl.
Qed.

Lemma string_compare_trans (x y z : string) :
  String.compare x y = Lt -> String.compare y z = Lt -> String.compare x z = Lt.
Proof.
  revert y z.
  induction x as [|a x IH]; intros [|b y] [|c z]; simpl; try easy.
  destruct (Ascii.compare a b) eqn:Eab; try easy.
  - apply Ascii.compare_eq_iff in Eab. subst b.
    destruct (Ascii.compare a c) eqn:Eac; try easy. apply IH.
  - destruct (Ascii.compare b c) eqn:Ebc; try easy.
    + apply Ascii.compare_eq_iff in Ebc. subst c. now rewrite Eab.
    + now rewrite (ascii_compare_trans _ _ _ Eab Ebc).
Qed.

#[export] Instance OrdLaws_string : OrdLaws string.
Proof.
  split.
  - exact string_compare_refl.
  - exact String.compare_eq_iff.
  - intros x y. apply String.compare_antisym.
  - exact string_compare_trans.
Qed.

#[export] Instance OrdLaws_prod {A B} `{OrdLaws A} `{OrdLaws B} : OrdLaws (A * B).
Proof.
  split.
  - intros [a b]. unfold cmp, Ord_prod. simpl. now rewrite !cmp_refl.
  - intros [a b] [a' b']. unfold cmp, Ord_prod. simpl.
    destruct (cmp a a') eqn:E; try easy.
    intros E'. apply cmp_eq in E. apply cmp_eq in E'. now subst.
  - intros [a b] [a' b']. unfold cmp, Ord_prod. simpl.
    rewrite (cmp_antisym a a'). destruct (cmp a a'); simpl; try easy.
    apply cmp_antisym.
  - intros [a b] [a' b'] [a'' b'']. unfold cmp, Ord_prod. simpl.
    destruct (cmp a a') eqn:E1; try easy.
    + apply cmp_eq in E1. subst a'.
      destruct (cmp a a''); try easy. apply cmp_trans.
    + destruct (cmp a' a'') eqn:E2; try easy.
      * apply cmp_eq in E2. subst a''. now rewrite E1.
      * now rewrite (cmp_trans _ _ _ E1 E2).
Qed.

Section OrderFacts.
Context {A : Type} `{OrdLaws A}.

Lemma eqk_true (x y : A) : eqk x y = true <-> x = y.
Proof.
  unfold eqk. split.
  - destruct (cmp x y) eqn:E; try easy. intros _. now apply cmp_eq.
  - intros ->. now rewrite cmp_refl.
Qed.

Lemma eqk_refl (x : A) : eqk x x = true.
Proof. now apply eqk_true. Qed.

Lemma eqk_false (x y : A) : eqk x y = false <-> x <> y.
Proof.
  rewrite <- eqk_true. destruct (eqk x y); split; congruence.
Qed.

Lemma eqk_sym (x y : A) : eqk x y = eqk y x.
Proof.
  destruct (eqk x y) eqn:E.
  - apply eqk_true in E. subst. symmetry. apply eqk_refl.
  - apply eqk_false in E. symmetry. apply eqk_false. congruence.
Qed.

Lemma cmp_gt_lt (x y : A) : cmp x y = Gt -> cmp y x = Lt.
Proof. intros E. now rewrite cmp_antisym, E. Qed.

Lemma before_irrefl (x : A) : ~ before x x.
Proof. unfold before. now rewrite cmp_refl. Qed.

Lemma before_neq (x y : A) : before x y -> x <> y.
Proof. intros L ->. now apply before_irrefl in L. Qed.

Lemma mem_In (x : A) (l : list A) : mem x l = true <-> In x l.
Proof.
  unfold mem. rewrite existsb_exists. split.
  - intros (y & Hy & E). apply eqk_true in E. now subst.
  - intros Hx. exists x. split; [assumption | apply eqk_refl].
Qed.

(** *** [uniq]: sorted, duplicate-free, same elements *)

Lemma insert_uniq_In (x y : A) (l : list A) :
  In y (insert_uniq x l) <-> y = x \/ In y l.
Proof.
  induction l as [|z l IH]; simpl.
  - intuition.
  - destruct (cmp x z) eqn:E; simpl.
    + apply cmp_eq in E. subst z. intuition.
    + intuition.
    + rewrite IH. intuition.
Qed.

Lemma uniq_In (x : A) (l : list A) : In x (uniq l) <-> In x l.
Proof.
  induction l as [|y l IH]; simpl; [reflexivity|].
  rewrite insert_uniq_In, IH. intuition.
Qed.

Lemma insert_uniq_sorted (x : A) (l : list A) :
  StronglySorted before l -> StronglySorted before (insert_uniq x l).
Proof.
  induction 1 as [|z l Hs IH Hz]; simpl.
  - repeat constructor.
  - destruct (cmp x z) eqn:E.
    + now constructor.
    + constructor; [now constructor|].
      constructor; [exact E|].
      rewrite Forall_forall in *. intros w Hw.
      exact (cmp_trans _ _ _ E (Hz w Hw)).
    + constructor; [exact IH|].
      rewrite Forall_forall in *. intros w Hw.
      apply insert_uniq_In in Hw. destruct Hw as [->|Hw].
      * now apply cmp_gt_lt.
      * now apply Hz.
Qed.

Lemma uniq_sorted (l : list A) : StronglySorted before (uniq l).
Proof.
  induction l as [|x l IH]; simpl; [constructor|].
  now apply insert_uniq_sorted.
Qed.

Lemma ascending_NoDup (l : list A) : StronglySorted before l -> NoDup l.
Proof.
  induction 1 as [|x l Hs IH Hx]; constructor; [|exact IH].
  intros Hin. rewrite Forall_forall in Hx.
  exact (before_irrefl x (Hx x Hin)).
Qed.

Lemma uniq_NoDup (l : list A) : NoDup (uniq l).
Proof. apply ascending_NoDup, uniq_sorted. Qed.

(** *** [sorted] leaves an ascending list as it is *)

Lemma insert_below (x : A) (l : list A) :
  Forall (before x) l -> insert x l = x :: l.
Proof.
  destruct l as [|y l]; simpl; [reflexivity|].
  intros Hx. inversion Hx as [|? ? Hy _]; subst.
  unfold before in Hy. now rewrite Hy.
Qed.

Lemma sorted_id (l : list A) : StronglySorted before l -> sorted l = l.
Proof.
  induction 1 as [|x l Hs IH Hx]; [reflexivity|].
  unfold sorted in *. simpl. rewrite IH. now apply insert_below.
Qed.

Lemma uniq_id (l : list A) : StronglySorted before l -> uniq l = l.
Proof.
  induction 1 as [|x l Hs IH Hx]; [reflexivity|].
  unfold uniq in *. simpl. rewrite IH.
  destruct l as [|y l]; simpl; [reflexivity|].
  inversion Hx as [|? ? Hy _]; subst. unfold before in Hy. now rewrite Hy.
Qed.

Lemma sorted_uniq (l : list A) : sorted (uniq l) = uniq l.
Proof. apply sorted_id, uniq_sorted. Qed.

Lemma filter_sorted (p : A -> bool) (l : list A) :
  StronglySorted before l -> StronglySorted before (filter p l).
Proof.
  induction 1 as [|x l Hs IH Hx]; simpl; [constructor|].
  destruct (p x); [|exact IH].
  constructor; [exact IH|].
  rewrite Forall_forall in *. intros y Hy.
  apply filter_In in Hy. now apply Hx.
Qed.
End OrderFacts.

(** ** Sums and counts *)

Lemma sum_ext {X} (f g : X -> Q) (l : list X) :
  (forall x, In x l -> f x == g x) -> Np.sum (map f l) == Np.sum (map g l).
Proof.
  induction l as [|x l IH]; simpl; intros Hfg; [reflexivity|].
  rewrite (Hfg x) by now left. rewrite IH; [reflexivity|].
  intros y Hy. apply Hfg. now right.
Qed.

Lemma sum_inject {X} (f : X -> Z) (l : list X) :
  Np.sum (map (fun x => inject_Z (f x)) l) == inject_Z (sumZ (map f l)).
Proof.
  induction l as [|x l IH]; simpl; [reflexivity|].
  rewrite IH, inject_Z_plus. reflexivity.
Qed.

Lemma sum_scale {X} (f : X -> Q) (k : Q) (l : list X) :
  (Np.sum (map (fun x => f x * k) l) == Np.sum (map f l) * k)%Q.
Proof.
  induction l as [|x l IH]; simpl; [ring|]. rewrite IH. ring.
Qed.

Lemma sum_zero {X} (f : X -> Q) (l : list X) :
  (forall x, In x l -> f x == 0) -> Np.sum (map f l) == 0.
Proof.
  induction l as [|x l IH]; simpl; intros Hf; [reflexivity|].
  rewrite (Hf x) by now left. rewrite IH; [ring|].
  intros y Hy. apply Hf. now right.
Qed.

Lemma count_rows_cons (p : Row -> bool) (r : Row) (l : list Row) :
  count_rows p (r :: l) = (if p r then 1 else 0) + count_rows p l.
Proof.
  unfold count_rows. simpl. destruct (p r); [|reflexivity].
  cbn [List.length]. rewrite Nat2Z.inj_succ. lia.
Qed.

Lemma count_rows_nonneg (p : Row -> bool) (l : list Row) : 0 <= count_rows p l.
Proof. unfold count_rows. lia. Qed.

Lemma count_rows_ext (p q : Row -> bool) (l : list Row) :
  (forall r, In r l -> p r = q r) -> count_rows p l = count_rows q l.
Proof.
  intros Hpq. unfold count_rows. f_equal. f_equal.
  now apply filter_ext_in.
Qed.

Lemma count_rows_pos (p : Row -> bool) (l : list Row) :
  0 < count_rows p l <-> exists r, In r l /\ p r = true.
Proof.
  induction l as [|x l IH].
  - unfold count_rows. simpl. split; [lia | intros (r & [] & _)].
  - rewrite count_rows_cons. pose proof (count_rows_nonneg p l) as Hn.
    split.
    + intros Hpos. destruct (p x) eqn:Px.
      * exists x. split; [now left | assumption].
      * destruct IH as [IH _].
        destruct (IH ltac:(lia)) as (r & Hr & Pr).
        exists r. split; [now right | assumption].
    + intros (r & [->|Hr] & Pr).
      * rewrite Pr. lia.
      * destruct IH as [_ IH]. specialize (IH (ex_intro _ r (conj Hr Pr))).
        destruct (p x); lia.
Qed.

Lemma count_rows_le (p q : Row -> bool) (l : list Row) :
  (forall r, In r l -> p r = true -> q r = true) ->
  count_rows p l <= count_rows q l.
Proof.
  induction l as [|x l IH]; intros Hpq.
  - unfold count_rows. simpl. lia.
  - rewrite !count_rows_cons.
    assert (count_rows p l <= count_rows q l) as Hl
      by (apply IH; intros r Hr; apply Hpq; now right).
    destruct (p x) eqn:Px.
    + rewrite (Hpq x (or_introl eq_refl) Px). lia.
    + destruct (q x); lia.
Qed.

Section Partition.
Context {K : Type} `{OrdLaws K}.

Lemma sum_indicator (k : K) (ks : list K) :
  NoDup ks ->
  sumZ (map (fun k' => if eqk k k' then 1 else 0) ks)
  = if mem k ks then 1 else 0.
Proof.
  induction 1 as [|k' ks Hnotin Hnd IH]; simpl; [reflexivity|].
  rewrite IH. destruct (eqk k k') eqn:E; simpl.
  - apply eqk_true in E. subst k'.
    destruct (mem k ks) eqn:M; [|reflexivity].
    apply mem_In in M. contradiction.
  - reflexivity.
Qed.

(** Counting class by class: the counts of the distinct keys add up to the
    number of rows. *)
Lemma count_partition (key : Row -> K) (p : Row -> bool)
      (l : list Row) (ks : list K) :
  NoDup ks ->
  (forall r, In r l -> p r = true -> In (key r) ks) ->
  sumZ (map (fun k => count_rows (fun r => p r && eqk (key r) k) l) ks)
  = count_rows p l.
Proof.
  intros Hnd. induction l as [|x l IH]; intros Hks.
  - unfold count_rows. simpl. induction ks; simpl; [reflexivity|].
    inversion Hnd; subst. now rewrite IHks.
  - rewrite count_rows_cons, <- IH by (intros r Hr; apply Hks; now right).
    transitivity
      (sumZ (map (fun k => (if p x && eqk (key x) k then 1 else 0)
                           + count_rows (fun r => p r && eqk (key r) k) l) ks)).
    { f_equal. apply map_ext. intros k. apply count_rows_cons. }
    assert (forall (f g : K -> Z) ks',
               sumZ (map (fun k => f k + g k) ks')
               = sumZ (map f ks') + sumZ (map g ks')) as Hsplit.
    { intros f g ks'. induction ks'; simpl; lia. }
    rewrite Hsplit. f_equal.
    destruct (p x) eqn:Px; simpl.
    + rewrite sum_indicator by assumption.
      assert (mem (key x) ks = true) as ->; [|reflexivity].
      apply mem_In, Hks; [now left | assumption].
    + clear. induction ks; simpl; [reflexivity | lia].
Qed.

Lemma filter_keyed {V} (f : K -> V) (k : K) (ks : list K) :
  NoDup ks ->
  filter (fun e => eqk (fst e) k) (map (fun k' => (k', f k')) ks)
  = if mem k ks then [(k, f k)] else [].
Proof.
  induction 1 as [|k' ks Hnotin Hnd IH]; simpl; [reflexivity|].
  rewrite IH. rewrite (eqk_sym k k').
  destruct (eqk k' k) eqn:E; simpl; [|reflexivity].
  apply eqk_true in E. subst k'.
  destruct (mem k ks) eqn:M; [|reflexivity].
  apply mem_In in M. contradiction.
Qed.
End Partition.

Lemma eqk_pair {A B} `{Ord A} `{Ord B} (a a' : A) (b b' : B) :
  eqk (a, b) (a', b') = eqk a a' && eqk b b'.
Proof.
  unfold eqk, cmp at 1, Ord_prod. simpl.
  destruct (cmp a a'); simpl; reflexivity.
Qed.

(** ** [groupby(...).size()] and [pivot_table] *)

Section PivotFacts.
Context {I C : Type} `{OrdLaws I} `{OrdLaws C}.
Variable f : Row -> I * C.
Variable l : list Row.

Lemma size_of_pair (i : I) (c : C) :
  size_of f (i, c) l
  = count_rows (fun r => eqk (fst (f r)) i && eqk (snd (f r)) c) l.
Proof.
  unfold size_of, count_rows. f_equal. f_equal.
  apply filter_ext. intros r. destruct (f r) as [i' c']. apply eqk_pair.
Qed.

Lemma size_of_absent (k : I * C) :
  ~ In k (map f l) -> size_of f k l = 0.
Proof.
  intros Hk. unfold size_of.
  replace (filter (fun r => eqk (f r) k) l) with (@nil Row); [reflexivity|].
  symmetry.
  induction l as [|r l' IH]; simpl; [reflexivity|].
  destruct (eqk (f r) k) eqn:E.
  - apply eqk_true in E. exfalso. apply Hk. simpl. now left.
  - apply IH. intros Hin. apply Hk. simpl. now right.
Qed.

(** A cell of the pivot of a size table is the size of its class; an
    absent combination is filled with 0, which is its size too. *)
Lemma pivot_groupby_value (i : I) (c : C) :
  value (pivot_table (groupby_size f l) 0) i c
  == inject_Z (size_of f (i, c) l).
Proof.
  unfold pivot_table, groupby_size. simpl.
  erewrite filter_ext; [rewrite (filter_keyed (fun k => size_of f k l) (i, c))|].
  2: apply uniq_NoDup.
  2: { intros [[i' c'] n]. simpl. symmetry. apply eqk_pair. }
  destruct (mem (i, c) (uniq (map f l))) eqn:M; simpl.
  - rewrite Qred_correct. unfold Qdiv. rewrite Qplus_0_r. simpl. field.
  - rewrite size_of_absent; [reflexivity|].
    intros Hin. apply uniq_In in Hin. apply mem_In in Hin. congruence.
Qed.

Lemma pivot_groupby_index (i : I) :
  In i (index (pivot_table (groupby_size f l) 0))
  <-> exists r, In r l /\ fst (f r) = i.
Proof.
  unfold pivot_table, groupby_size. simpl.
  rewrite uniq_In, map_map. simpl. rewrite in_map_iff.
  split.
  - intros (k & <- & Hk). apply uniq_In, in_map_iff in Hk.
    destruct Hk as (r & <- & Hr). now exists r.
  - intros (r & Hr & <-). exists (f r). split; [reflexivity|].
    apply uniq_In, in_map_iff. now exists r.
Qed.

Lemma pivot_groupby_columns (c : C) :
  In c (columns (pivot_table (groupby_size f l) 0))
  <-> exists r, In r l /\ snd (f r) = c.
Proof.
  unfold pivot_table, groupby_size. simpl.
  rewrite uniq_In, map_map. simpl. rewrite in_map_iff.
  split.
  - intros (k & <- & Hk). apply uniq_In, in_map_iff in Hk.
    destruct Hk as (r & <- & Hr). now exists r.
  - intros (r & Hr & <-). exists (f r). split; [reflexivity|].
    apply uniq_In, in_map_iff. now exists r.
Qed.
End PivotFacts.

(** ** Strings *)

Lemma upper_char_idem (c : ascii) :
  Py.upper_char (Py.upper_char c) = Py.upper_char c.
Proof. destruct c as [[] [] [] [] [] [] [] []]; reflexivity. Qed.

Lemma upper_char_space (c : ascii) :
  Py.isspace c = true -> Py.upper_char c = c.
Proof. destruct c as [[] [] [] [] [] [] [] []]; simpl; easy. Qed.

Lemma upper_length (s : string) : String.length (Py.upper s) = String.length s.
Proof. induction s; simpl; congruence. Qed.

Lemma slice_to_0 (s : string) : Py.slice_to 0 s = "".
Proof. destruct s; reflexivity. Qed.

Lemma slice_to_cons (n : nat) (c : ascii) (s : string) :
  Py.slice_to (S n) (String c s) = String c (Py.slice_to n s).
Proof. reflexivity. Qed.

Lemma slice_to_length (n : nat) (s : string) :
  (n <= String.length s)%nat -> String.length (Py.slice_to n s) = n.
Proof.
  revert s. induction n as [|n IH]; intros s Hn.
  - now rewrite slice_to_0.
  - destruct s as [|c s]; simpl in Hn; [lia|].
    rewrite slice_to_cons. simpl. f_equal. apply IH. lia.
Qed.

Lemma slice_to_length_le (n : nat) (s : string) :
  (String.length (Py.slice_to n s) <= n)%nat.
Proof.
  revert s. induction n as [|n IH]; intros s.
  - now rewrite slice_to_0.
  - destruct s as [|c s]; [simpl; lia|].
    rewrite slice_to_cons. simpl. specialize (IH s). lia.
Qed.

Lemma rstrip_cons (c : ascii) (s : string) :
  Py.isspace c = false -> Py.rstrip (String c s) = String c (Py.rstrip s).
Proof.
  intros Hc. simpl. destruct (Py.rstrip s); [now rewrite Hc | reflexivity].
Qed.

Lemma strip_cons (c : ascii) (s : string) :
  Py.isspace c = false -> Py.strip (String c s) = String c (Py.rstrip s).
Proof.
  intros Hc. unfold Py.strip. simpl. rewrite Hc. now apply rstrip_cons.
Qed.

Lemma strip_space (c : ascii) (s : string) :
  Py.isspace c = true -> Py.strip (String c s) = Py.strip s.
Proof. intros Hc. unfold Py.strip. simpl. now rewrite Hc. Qed.

Lemma isin_In (x : string) (l : list string) :
  Py.isin x l = true <-> In x l.
Proof.
  unfold Py.isin. rewrite existsb_exists. split.
  - intros (y & Hy & E). apply String.eqb_eq in E. now subst.
  - intros Hx. exists x. split; [assumption | apply String.eqb_refl].
Qed.

Lemma isin_false (x : string) (l : list string) :
  Py.isin x l = false <-> ~ In x l.
Proof.
  rewrite <- isin_In. destruct (Py.isin x l); split; congruence.
Qed.

Lemma startswith_letter (d : ascii) (s : string) :
  Py.startswith (String d "") s = true <-> Py.slice_to 1 s = String d "".
Proof.
  destruct s as [|e s]; simpl; [easy|].
  rewrite slice_to_cons, slice_to_0.
  destruct (ascii_dec d e) as [->|Hne].
  - destruct s; simpl; easy.
  - split; [easy|]. intros E. congruence.
Qed.

(** ** The classifier of the subclade-aware script *)

Lemma is_valid_nonempty (x : string) :
  NewTables.is_valid_haplo x = true -> x <> "".
Proof. intros Hv ->. discriminate Hv. Qed.

Lemma parse_subclade_length (x s : string) :
  NewTables.parse_subclade x = Some s -> String.length s = 2%nat.
Proof.
  unfold NewTables.parse_subclade, Py.len.
  destruct (String.length (Py.strip x) <? 2)%nat eqn:L; [easy|].
  apply Nat.ltb_ge in L.
  destruct (Py.item (Py.strip x) 1) as [c|]; [|easy].
  destruct (Py.isdigit c); [|easy].
  intros [= <-]. rewrite upper_length. now apply slice_to_length.
Qed.

Lemma parse_subclade_valid (x s : string) :
  NewTables.parse_subclade x = Some s -> NewTables.is_valid_haplo x = true.
Proof.
  unfold NewTables.parse_subclade, NewTables.is_valid_haplo, Py.len.
  destruct (String.length (Py.strip x) <? 2)%nat eqn:L; [easy|].
  apply Nat.ltb_ge in L.
  destruct (Py.item (Py.strip x) 1) as [c|]; [|easy].
  destruct (Py.isdigit c); [|easy].
  intros _. apply orb_true_iff. right.
  apply andb_true_iff. split; [now apply Nat.leb_le | reflexivity].
Qed.

Lemma raw_basal_cons (haplo_col : Row -> string) (r : Row) (c : ascii) (s : string) :
  haplo_col r = String c s ->
  raw_basal haplo_col r = String (Py.upper_char c) "".
Proof.
  intros E. unfold raw_basal. rewrite E, slice_to_cons, slice_to_0. reflexivity.
Qed.

Lemma raw_basal_length (haplo_col : Row -> string) (r : Row) :
  (String.length (raw_basal haplo_col r) <= 1)%nat.
Proof.
  unfold raw_basal. rewrite upper_length. apply slice_to_length_le.
Qed.

Lemma parse_subclade_parent (haplo_col : Row -> string) (r : Row) (s : string) :
  no_leading_space (haplo_col r) ->
  NewTables.parse_subclade (haplo_col r) = Some s ->
  NewTables.parent_letter s = raw_basal haplo_col r
  /\ Py.slice_to 1 s = raw_basal haplo_col r.
Proof.
  intros Hclean Hs.
  destruct (haplo_col r) as [|c x] eqn:E; [discriminate Hs|].
  rewrite (raw_basal_cons _ _ _ _ E).
  specialize (Hclean c x eq_refl).
  unfold NewTables.parse_subclade in Hs. rewrite (strip_cons _ _ Hclean) in Hs.
  destruct (Py.len (String c (Py.rstrip x)) <? 2)%nat; [easy|].
  destruct (Py.item (String c (Py.rstrip x)) 1) as [d|]; [|easy].
  destruct (Py.isdigit d); [|easy].
  injection Hs as <-. unfold NewTables.parent_letter.
  rewrite slice_to_cons. simpl. rewrite slice_to_0. simpl.
  now rewrite upper_char_idem.
Qed.

(** ** Numbers *)

Lemma gt0_spec (q : Q) : Np.gt0 q = true <-> (0 < q)%Q.
Proof.
  unfold Np.gt0. rewrite negb_true_iff.
  destruct (Qle_bool q 0) eqn:E.
  - apply Qle_bool_iff in E. split; [easy|].
    intros Hq. exfalso. exact (Qlt_not_le _ _ Hq E).
  - split; [intros _|easy].
    apply Qnot_le_lt. intros Hq. apply Qle_bool_iff in Hq. congruence.
Qed.

Lemma gt0_comp (q q' : Q) : q == q' -> Np.gt0 q = Np.gt0 q'.
Proof.
  intros E. destruct (Np.gt0 q) eqn:G, (Np.gt0 q') eqn:G'; try reflexivity.
  - apply gt0_spec in G. rewrite E in G. apply gt0_spec in G. congruence.
  - apply gt0_spec in G'. rewrite <- E in G'. apply gt0_spec in G'. congruence.
Qed.

Lemma percentage_comp (c c' t t' : Q) :
  c == c' -> t == t' ->
  NewTables.percentage c t == NewTables.percentage c' t'.
Proof.
  intros Ec Et. unfold NewTables.percentage.
  rewrite (gt0_comp _ _ Et). destruct (Np.gt0 t'); [|reflexivity].
  now rewrite Ec, Et.
Qed.

Lemma percentage_pos (c t : Q) :
  (0 < t)%Q -> (NewTables.percentage c t == 100 * c / t)%Q.
Proof.
  intros Ht. unfold NewTables.percentage.
  rewrite (proj2 (gt0_spec t) Ht). field.
  intros E. rewrite E in Ht. now apply Qlt_irrefl in Ht.
Qed.


Lemma trunc_inject (q : Q) (z : Z) : q == inject_Z z -> Np.trunc q = z.
Proof.
  destruct q as [n d]. unfold Qeq, Np.trunc. simpl. intros E.
  rewrite Z.mul_1_r in E. subst n. apply Z.quot_mul. easy.
Qed.

Lemma rint_comp (q q' : Q) : q == q' -> Np.rint q = Np.rint q'.
Proof.
  intros E. unfold Np.rint. rewrite (Qfloor_comp _ _ E).
  assert ((q - inject_Z (Qfloor q') ?= 1 # 2)%Q
          = (q' - inject_Z (Qfloor q') ?= 1 # 2)%Q) as ->; [|reflexivity].
  apply Qcompare_comp; [now rewrite E | reflexivity].
Qed.

Lemma fmt2_comp (q q' : Q) : q == q' -> Np.fmt2 q = Np.fmt2 q'.
Proof.
  intros E. unfold Np.fmt2.
  assert (Np.rint (Qabs q * 100) = Np.rint (Qabs q' * 100)) as ->
      by (apply rint_comp; now rewrite E).
  assert (Qle_bool 0 q = Qle_bool 0 q') as ->; [|reflexivity].
  destruct (Qle_bool 0 q) eqn:L, (Qle_bool 0 q') eqn:L'; try reflexivity.
  - apply Qle_bool_iff in L. rewrite E in L. apply Qle_bool_iff in L. congruence.
  - apply Qle_bool_iff in L'. rewrite <- E in L'. apply Qle_bool_iff in L'.
    congruence.
Qed.

Lemma fmt2_zero (q : Q) : q == 0 -> Np.fmt2 q = "0.00".
Proof. intros E. now rewrite (fmt2_comp _ _ E). Qed.

(** ** Frame rows *)

Lemma lookup_app (c : string) (r1 r2 : FrameRow) :
  lookup c (r1 ++ r2)
  = match lookup c r1 with Some v => Some v | None => lookup c r2 end.
Proof.
  induction r1 as [|[c' v] r1 IH]; simpl; [reflexivity|].
  destruct (String.eqb c c'); [reflexivity | exact IH].
Qed.

Lemma lookup_keyed (f : string -> Cell) (c : string) (l : list string) :
  lookup c (map (fun k => (k, f k)) l)
  = if Py.isin c l then Some (f c) else None.
Proof.
  induction l as [|k l IH]; simpl; [reflexivity|].
  destruct (String.eqb_spec c k) as [->|Hne]; simpl; [reflexivity | exact IH].
Qed.

Lemma lookup_absent (c : string) (row : FrameRow) :
  ~ In c (column_names row) -> lookup c row = None.
Proof.
  induction row as [|[c' v] row IH]; simpl; intros Hc; [reflexivity|].
  destruct (String.eqb_spec c c') as [->|Hne].
  - exfalso. apply Hc. now left.
  - apply IH. intros Hin. apply Hc. now right.
Qed.

Lemma lookup_present (c : string) (row : FrameRow) :
  In c (column_names row) -> exists v, lookup c row = Some v.
Proof.
  induction row as [|[c' v] row IH]; simpl; intros Hc; [easy|].
  destruct (String.eqb_spec c c') as [->|Hne]; [now exists v|].
  apply IH. destruct Hc as [E|Hc]; [congruence | exact Hc].
Qed.

Lemma lookup_select (c : string) (cols : list string) (row : FrameRow) :
  lookup c (select cols row)
  = if Py.isin c cols then lookup c row else None.
Proof.
  unfold select. induction cols as [|k cols IH]; simpl; [reflexivity|].
  rewrite lookup_app, IH.
  destruct (String.eqb_spec c k) as [->|Hne]; simpl.
  - destruct (lookup k row) as [v|]; simpl.
    + now rewrite String.eqb_refl.
    + now destruct (Py.isin k cols).
  - destruct (lookup k row) as [v|]; simpl; [|reflexivity].
    destruct (String.eqb_spec c k); [contradiction | reflexivity].
Qed.

Lemma select_names (cols : list string) (row : FrameRow) :
  (forall c, In c cols -> In c (column_names row)) ->
  column_names (select cols row) = cols.
Proof.
  unfold select, column_names.
  induction cols as [|k cols IH]; simpl; intros Hc; [reflexivity|].
  rewrite map_app, IH by (intros c Hin; apply Hc; now right).
  destruct (lookup_present k row (Hc k (or_introl eq_refl))) as (v & ->).
  reflexivity.
Qed.

Lemma lookup_map_cells (h : string * Cell -> string * Cell) (c : string)
      (row : FrameRow) :
  (forall e, fst (h e) = fst e) ->
  lookup c (map h row)
  = option_map (fun v => snd (h (c, v))) (lookup c row).
Proof.
  intros Hh. induction row as [|[c' v] row IH]; simpl; [reflexivity|].
  pose proof (Hh (c', v)) as E. destruct (h (c', v)) as [c'' v'] eqn:Hv.
  simpl in E. subst c''.
  destruct (String.eqb_spec c c') as [->|Hne]; simpl; [|exact IH].
  now rewrite Hv.
Qed.

Lemma map_names_cells (h : string * Cell -> string * Cell) (row : FrameRow) :
  (forall e, fst (h e) = fst e) ->
  column_names (map h row) = column_names row.
Proof.
  intros Hh. unfold column_names. rewrite map_map. apply map_ext. exact Hh.
Qed.

Lemma isin_length (x : string) (l : list string) :
  (forall y, In y l -> String.length y <> String.length x) ->
  Py.isin x l = false.
Proof.
  intros Hl. apply isin_false. intros Hin. now apply (Hl x Hin).
Qed.

(** ** The subclade-aware script: counts and percentages *)

Section NewCounts.
Variable haplo_col : Row -> string.
Variable dfv : list Row.

Let groups := index (NewTables.pivot_basal_counts haplo_col dfv).
Let letters := NewTables.basal_letters haplo_col dfv.

Lemma groups_In (g : GroupKey) :
  In g groups <-> exists r, In r dfv /\ group_keys r = g.
Proof.
  unfold groups, NewTables.pivot_basal_counts, NewTables.grouped_basal.
  now rewrite pivot_groupby_index.
Qed.

Lemma basal_letters_In (b : string) :
  In b letters <-> exists r, In r dfv /\ raw_basal haplo_col r = b.
Proof.
  unfold letters, NewTables.basal_letters, NewTables.pivot_basal_counts,
    NewTables.grouped_basal.
  now rewrite pivot_groupby_columns.
Qed.

Lemma basal_letters_sorted : StronglySorted before letters.
Proof. apply uniq_sorted. Qed.

Lemma basal_letters_length (b : string) :
  In b letters -> (String.length b <= 1)%nat.
Proof.
  intros Hb. apply basal_letters_In in Hb. destruct Hb as (r & _ & <-).
  apply raw_basal_length.
Qed.

Lemma Count_basal_n (g : GroupKey) (b : string) :
  NewTables.Count_basal haplo_col dfv g b
  == inject_Z (n_basal haplo_col dfv g b).
Proof.
  unfold NewTables.Count_basal, NewTables.pivot_basal_counts,
    NewTables.grouped_basal.
  rewrite pivot_groupby_value, size_of_pair. reflexivity.
Qed.

Lemma n_basal_partition (g : GroupKey) :
  sumZ (map (n_basal haplo_col dfv g) letters) = n_group dfv g.
Proof.
  unfold n_basal, n_group.
  apply (count_partition (raw_basal haplo_col)
           (fun r => eqk (group_keys r) g)).
  - apply ascending_NoDup, basal_letters_sorted.
  - intros r Hr _. apply basal_letters_In. now exists r.
Qed.

Lemma Total_count_n (g : GroupKey) :
  NewTables.Total_count haplo_col dfv g == inject_Z (n_group dfv g).
Proof.
  unfold NewTables.Total_count.
  rewrite (sum_ext _ (fun b => inject_Z (n_basal haplo_col dfv g b)))
    by (intros b _; apply Count_basal_n).
  rewrite sum_inject. now rewrite n_basal_partition.
Qed.

Lemma n_group_pos (g : GroupKey) : In g groups -> 0 < n_group dfv g.
Proof.
  intros Hg. apply groups_In in Hg. destruct Hg as (r & Hr & <-).
  apply count_rows_pos. exists r. split; [assumption | apply eqk_refl].
Qed.


Lemma pivot_basal_n (g : GroupKey) (b : string) :
  NewTables.pivot_basal haplo_col dfv g b
  == NewTables.percentage (inject_Z (n_basal haplo_col dfv g b))
                          (inject_Z (n_group dfv g)).
Proof.
  unfold NewTables.pivot_basal.
  apply percentage_comp; [apply Count_basal_n | apply Total_count_n].
Qed.
End NewCounts.

Lemma filter_map_comm {X Y} (h : X -> Y) (p : Y -> bool) (l : list X) :
  filter p (map h l) = map h (filter (fun x => p (h x)) l).
Proof.
  induction l as [|x l IH]; simpl; [reflexivity|].
  destruct (p (h x)); simpl; now rewrite IH.
Qed.

Lemma count_rows_filter (p q : Row -> bool) (l : list Row) :
  count_rows p (filter q l) = count_rows (fun r => q r && p r) l.
Proof.
  unfold count_rows. f_equal. f_equal.
  induction l as [|x l IH]; simpl; [reflexivity|].
  destruct (q x); simpl; [|exact IH].
  destruct (p x); simpl; now rewrite IH.
Qed.

Lemma nansum_some (l : list Q) : Np.nansum (map Some l) = Np.sum l.
Proof.
  unfold Np.nansum. induction l as [|q l IH]; simpl; [reflexivity|].
  now rewrite IH.
Qed.

Lemma nansum_none {X} (l : list X) :
  Np.nansum (map (fun _ => @None Q) l) = 0%Q.
Proof. unfold Np.nansum. induction l; simpl; auto. Qed.

Section NewSubclades.
Variable haplo_col : Row -> string.
Variable dfv : list Row.

Let subs := NewTables.sub_valid haplo_col dfv.
Let key3 (r : Row) : GroupKey * string * string :=
  (group_keys r, NewTables.haplo_basal haplo_col r, NewTables.sub_code haplo_col r).

Lemma sub_valid_In (r : Row) :
  In r subs <-> In r dfv /\ any_sub haplo_col r = true.
Proof. unfold subs, NewTables.sub_valid. apply filter_In. Qed.

Lemma sub_code_Some (r : Row) (s : string) :
  NewTables.parse_subclade (haplo_col r) = Some s ->
  NewTables.sub_code haplo_col r = s.
Proof.
  intros E. unfold NewTables.sub_code, NewTables.haplo_sub. now rewrite E.
Qed.

Lemma any_sub_code (r : Row) :
  any_sub haplo_col r = true ->
  NewTables.parse_subclade (haplo_col r)
  = Some (NewTables.sub_code haplo_col r).
Proof.
  unfold any_sub, NewTables.sub_code, NewTables.haplo_sub.
  now destruct (NewTables.parse_subclade (haplo_col r)).
Qed.

Lemma has_sub_iff (s : string) (r : Row) :
  has_sub haplo_col s r = true
  <-> NewTables.parse_subclade (haplo_col r) = Some s.
Proof.
  unfold has_sub. destruct (NewTables.parse_subclade (haplo_col r)) as [s'|].
  - rewrite eqk_true. split; congruence.
  - easy.
Qed.

Lemma pivot_sub_columns_In (s : string) :
  In s (columns (NewTables.pivot_sub haplo_col dfv))
  <-> exists r, In r dfv /\ NewTables.parse_subclade (haplo_col r) = Some s.
Proof.
  unfold NewTables.pivot_sub, NewTables.grouped_sub, groupby_size, pivot_table.
  simpl. rewrite uniq_In, !map_map. simpl. rewrite in_map_iff. split.
  - intros (k & <- & Hk). apply uniq_In, in_map_iff in Hk.
    destruct Hk as (r & <- & Hr). apply sub_valid_In in Hr.
    destruct Hr as (Hr & Hs). exists r. split; [assumption|].
    simpl. now apply any_sub_code.
  - intros (r & Hr & Hs). exists (key3 r). split.
    + simpl. now apply sub_code_Some.
    + apply uniq_In, in_map_iff. exists r. split; [reflexivity|].
      apply sub_valid_In. split; [assumption|].
      unfold any_sub. now rewrite Hs.
Qed.

Lemma pivot_sub_index_In (g : GroupKey) :
  In g (index (NewTables.pivot_sub haplo_col dfv))
  <-> exists r, In r dfv /\ group_keys r = g /\ any_sub haplo_col r = true.
Proof.
  unfold NewTables.pivot_sub, NewTables.grouped_sub, groupby_size, pivot_table.
  simpl. rewrite uniq_In, !map_map. simpl. rewrite in_map_iff. split.
  - intros (k & <- & Hk). apply uniq_In, in_map_iff in Hk.
    destruct Hk as (r & <- & Hr). apply sub_valid_In in Hr.
    destruct Hr as (Hr & Hs). now exists r.
  - intros (r & Hr & <- & Hs). exists (key3 r). split; [reflexivity|].
    apply uniq_In, in_map_iff. exists r. split; [reflexivity|].
    now apply sub_valid_In.
Qed.

Lemma subclade_cols_columns :
  NewTables.subclade_cols haplo_col dfv
  = columns (NewTables.pivot_sub haplo_col dfv).
Proof.
  unfold NewTables.subclade_cols. apply uniq_id.
  unfold NewTables.pivot_sub, pivot_table. simpl. apply uniq_sorted.
Qed.

Lemma subclade_cols_sorted :
  StronglySorted before (NewTables.subclade_cols haplo_col dfv).
Proof. apply uniq_sorted. Qed.

Lemma subclade_cols_In (s : string) :
  In s (NewTables.subclade_cols haplo_col dfv)
  <-> exists r, In r dfv /\ NewTables.parse_subclade (haplo_col r) = Some s.
Proof. rewrite subclade_cols_columns. apply pivot_sub_columns_In. Qed.

Lemma subclade_cols_length (s : string) :
  In s (NewTables.subclade_cols haplo_col dfv) -> String.length s = 2%nat.
Proof.
  intros Hs. apply subclade_cols_In in Hs. destruct Hs as (r & _ & Hs).
  exact (parse_subclade_length _ _ Hs).
Qed.

(** Without leading whitespace the basal letter of a record is the first
    character of its subclade, so a subclade has one parent per group and
    the pivot's mean is the count itself. *)
Hypothesis clean : forall r, In r dfv -> no_leading_space (haplo_col r).

Lemma key3_match (g : GroupKey) (s : string) (r : Row) :
  In r dfv -> any_sub haplo_col r = true ->
  eqk (group_keys r) g && eqk (NewTables.sub_code haplo_col r) s
  = eqk (key3 r) (g, Py.slice_to 1 s, s).
Proof.
  intros Hr Hs. unfold key3. rewrite !eqk_pair.
  destruct (eqk (group_keys r) g); simpl; [|reflexivity].
  destruct (eqk (NewTables.sub_code haplo_col r) s) eqn:E;
    [|now rewrite andb_false_r].
  apply eqk_true in E. rewrite andb_true_r. symmetry. apply eqk_true.
  apply any_sub_code in Hs. rewrite E in Hs.
  destruct (parse_subclade_parent haplo_col r s (clean r Hr) Hs) as (_ & ->).
  reflexivity.
Qed.

Lemma size_of_key3 (g : GroupKey) (s : string) :
  size_of key3 (g, Py.slice_to 1 s, s) subs = n_sub haplo_col dfv g s.
Proof.
  unfold size_of. fold (count_rows (fun r => eqk (key3 r) (g, Py.slice_to 1 s, s)) subs).
  unfold subs, NewTables.sub_valid. rewrite count_rows_filter.
  unfold n_sub. apply count_rows_ext. intros r Hr.
  unfold NewTables.haplo_sub.
  destruct (any_sub haplo_col r) eqn:Hs.
  - pose proof (any_sub_code r Hs) as Hc.
    rewrite Hc. simpl. rewrite <- (key3_match g s r Hr Hs).
    unfold has_sub. now rewrite Hc.
  - unfold any_sub in Hs. unfold has_sub.
    destruct (NewTables.parse_subclade (haplo_col r)); [discriminate|].
    simpl. now rewrite andb_false_r.
Qed.

Lemma pivot_sub_value (g : GroupKey) (s : string) :
  value (NewTables.pivot_sub haplo_col dfv) g s
  == inject_Z (n_sub haplo_col dfv g s).
Proof.
  rewrite <- size_of_key3.
  unfold NewTables.pivot_sub, NewTables.grouped_sub, groupby_size, pivot_table.
  simpl. rewrite filter_map_comm. simpl.
  fold key3. fold subs.
  rewrite filter_map_comm. simpl.
  assert (filter
            (fun k : GroupKey * string * string =>
               eqk (fst (fst k)) g && eqk (snd k) s)
            (uniq (map key3 subs))
          = filter (fun k => eqk k (g, Py.slice_to 1 s, s))
                   (uniq (map key3 subs))) as ->.
  { apply filter_ext_in. intros k Hk. apply uniq_In, in_map_iff in Hk.
    destruct Hk as (r & <- & Hr). apply sub_valid_In in Hr.
    destruct Hr as (Hr & Hs). simpl. now apply key3_match. }
  pose proof (filter_keyed (fun k => k) (g, Py.slice_to 1 s, s)
                (uniq (map key3 subs)) (uniq_NoDup _)) as Hf.
  rewrite filter_map_comm in Hf. simpl in Hf.
  apply (f_equal (map fst)) in Hf. rewrite map_map in Hf. simpl in Hf.
  rewrite map_id in Hf. rewrite Hf.
  destruct (mem (g, Py.slice_to 1 s, s) (uniq (map key3 subs))) eqn:M; simpl.
  - rewrite Qred_correct. unfold Qdiv. rewrite Qplus_0_r. simpl. field.
  - rewrite size_of_absent; [reflexivity|].
    intros Hin. apply uniq_In in Hin. apply mem_In in Hin. congruence.
Qed.

Lemma n_sub_partition (g : GroupKey) :
  sumZ (map (n_sub haplo_col dfv g) (NewTables.subclade_cols haplo_col dfv))
  = n_group_sub haplo_col dfv g.
Proof.
  unfold n_sub, n_group_sub.
  rewrite <- (count_partition (NewTables.sub_code haplo_col)
                (fun r => eqk (group_keys r) g && any_sub haplo_col r)
                dfv (NewTables.subclade_cols haplo_col dfv)).
  - f_equal. apply map_ext. intros s. apply count_rows_ext. intros r _.
    rewrite <- andb_assoc. f_equal.
    unfold has_sub, any_sub, NewTables.sub_code, NewTables.haplo_sub.
    now destruct (NewTables.parse_subclade (haplo_col r)).
  - apply ascending_NoDup, subclade_cols_sorted.
  - intros r Hr Hp. apply andb_true_iff in Hp. destruct Hp as (_ & Hs).
    apply subclade_cols_In. exists r. split; [assumption|].
    now apply any_sub_code.
Qed.

Lemma n_group_sub_absent (g : GroupKey) :
  ~ In g (index (NewTables.pivot_sub haplo_col dfv)) ->
  n_group_sub haplo_col dfv g = 0.
Proof.
  intros Hg. unfold n_group_sub.
  set (p := fun r => eqk (group_keys r) g && any_sub haplo_col r).
  pose proof (count_rows_nonneg p dfv) as Hn.
  destruct (Z.eq_dec (count_rows p dfv) 0) as [E|E]; [exact E|].
  assert (0 < count_rows p dfv) as Hpos by lia.
  apply count_rows_pos in Hpos. destruct Hpos as (r & Hr & Hp).
  apply andb_true_iff in Hp. destruct Hp as (Hk & Hs).
  apply eqk_true in Hk. exfalso. apply Hg, pivot_sub_index_In. now exists r.
Qed.

(** The recalculated total: every record of the group once, and every
    record that carries a subclade once more. *)
Lemma Total_n (g : GroupKey) :
  NewTables.Total haplo_col dfv g
  == inject_Z (n_group dfv g + n_group_sub haplo_col dfv g).
Proof.
  rewrite inject_Z_plus, <- n_sub_partition.
  unfold NewTables.Total.
  destruct (NewTables.subclade_cols haplo_col dfv) as [|s0 cols] eqn:Ecols.
  - simpl. rewrite Total_count_n. unfold inject_Z at 3. ring.
  - rewrite <- Ecols. rewrite Total_count_n.
    apply Qplus_comp; [reflexivity|].
    unfold NewTables.merged_sub.
    destruct (mem g (index (NewTables.pivot_sub haplo_col dfv))) eqn:M.
    + rewrite <- (map_map _ Some), nansum_some.
      rewrite (sum_ext _ (fun s => inject_Z (n_sub haplo_col dfv g s)))
        by (intros s _; apply pivot_sub_value).
      apply sum_inject.
    + rewrite nansum_none, n_sub_partition, n_group_sub_absent; [reflexivity|].
      intros Hin. apply mem_In in Hin. congruence.
Qed.
End NewSubclades.

Lemma eqb_length (x y : string) :
  String.length x <> String.length y -> String.eqb x y = false.
Proof. intros Hl. apply String.eqb_neq. congruence. Qed.

Lemma append_length (x y : string) :
  String.length (x ++ y)%string = (String.length x + String.length y)%nat.
Proof. induction x; simpl; congruence. Qed.

Lemma filter_all {X} (p : X -> bool) (l : list X) :
  (forall x, In x l -> p x = true) -> filter p l = l.
Proof.
  induction l as [|x l IH]; simpl; intros Hp; [reflexivity|].
  rewrite (Hp x) by now left. f_equal. apply IH. intros y Hy. apply Hp. now right.
Qed.

(** ** The subclade-aware script: the rows it writes *)

Section NewOutput.
Variable haplo_col : Row -> string.
Variable dfv : list Row.

Let letters := NewTables.basal_letters haplo_col dfv.
Let subcols := NewTables.subclade_cols haplo_col dfv.

Lemma related_subs_filter (b : string) :
  NewTables.related_subs haplo_col dfv b
  = filter (Py.startswith b) subcols.
Proof.
  unfold NewTables.related_subs. apply sorted_id, filter_sorted.
  apply subclade_cols_sorted.
Qed.

Lemma final_order_blocks :
  NewTables.final_order_of_haplos haplo_col dfv
  = flat_map (fun b => b :: filter (Py.startswith b) subcols) letters
    ++ ["Total"].
Proof.
  unfold NewTables.final_order_of_haplos.
  rewrite (sorted_id _ (basal_letters_sorted haplo_col dfv)).
  f_equal. apply flat_map_ext. intros b. f_equal. apply related_subs_filter.
Qed.

Lemma final_order_In (c : string) :
  In c (NewTables.final_order_of_haplos haplo_col dfv) ->
  In c letters \/ In c subcols \/ c = "Total".
Proof.
  rewrite final_order_blocks, in_app_iff, in_flat_map.
  intros [(b & Hb & [<-|Hc])|[<-|[]]]; auto.
  apply filter_In in Hc. tauto.
Qed.

Lemma final_order_basal (b : string) :
  In b letters -> In b (NewTables.final_order_of_haplos haplo_col dfv).
Proof.
  intros Hb. rewrite final_order_blocks, in_app_iff, in_flat_map.
  left. exists b. split; [assumption | now left].
Qed.

Lemma merged_names (g : GroupKey) :
  column_names (NewTables.merged_df haplo_col dfv g)
  = ["Ancient pop name"; "Country"] ++ letters ++ ["Total"] ++ subcols
    ++ map (fun b => (b ++ "_count")%string) letters
    ++ ["Total_count"; "Lat"; "Long"; "Age"].
Proof.
  unfold NewTables.merged_df, column_names.
  rewrite !map_app, !map_map. simpl. rewrite !map_id. reflexivity.
Qed.

Lemma final_cols_all (g : GroupKey) :
  NewTables.final_cols haplo_col dfv g
  = base_cols ++ NewTables.final_order_of_haplos haplo_col dfv.
Proof.
  unfold NewTables.final_cols. apply filter_all. intros c Hc.
  apply isin_In. rewrite merged_names.
  apply in_app_iff in Hc. destruct Hc as [Hc|Hc].
  - simpl in Hc. rewrite !in_app_iff. simpl.
    destruct Hc as [<-|[<-|[<-|[<-|[<-|[]]]]]]; tauto.
  - apply final_order_In in Hc. rewrite !in_app_iff. simpl.
    destruct Hc as [Hc|[Hc| ->]]; tauto.
Qed.

Lemma output_names (g : GroupKey) :
  column_names (NewTables.output_row haplo_col dfv g)
  = base_cols ++ NewTables.final_order_of_haplos haplo_col dfv.
Proof.
  unfold NewTables.output_row.
  rewrite map_names_cells by (intros [c v]; unfold NewTables.format_cell;
    destruct (String.eqb c "Total"); [reflexivity|];
    destruct (Py.isin c _); reflexivity).
  rewrite select_names; [apply final_cols_all|].
  intros c Hc. unfold NewTables.final_cols in Hc.
  apply filter_In in Hc. now apply isin_In.
Qed.

(** Cells of the merged frame, by column name. *)

Lemma lookup_count_cols (c : string) (f : string -> Cell) :
  (String.length c < 6)%nat ->
  lookup c (map (fun b => ((b ++ "_count")%string, f b)) letters) = None.
Proof.
  intros Hc. apply lookup_absent. unfold column_names.
  rewrite map_map. simpl. intros Hin. apply in_map_iff in Hin.
  destruct Hin as (b & E & _). subst c. rewrite append_length in Hc.
  simpl in Hc. lia.
Qed.

Lemma merged_basal (g : GroupKey) (b : string) :
  In b letters ->
  lookup b (NewTables.merged_df haplo_col dfv g)
  = Some (Num (Some (NewTables.pivot_basal haplo_col dfv g b))).
Proof.
  intros Hb. pose proof (basal_letters_length _ _ _ Hb) as Hl.
  unfold NewTables.merged_df. cbn [app lookup].
  rewrite !eqb_length by (simpl; lia).
  rewrite lookup_app, lookup_keyed.
  fold letters. now rewrite (proj2 (isin_In b letters) Hb).
Qed.

Lemma merged_sub_cell (g : GroupKey) (sc : string) :
  In sc subcols ->
  lookup sc (NewTables.merged_df haplo_col dfv g)
  = Some (Num (Some (NewTables.subclade_percentage haplo_col dfv g sc))).
Proof.
  intros Hs. pose proof (subclade_cols_length _ _ _ Hs) as Hl.
  unfold NewTables.merged_df. cbn [app lookup].
  rewrite !eqb_length by (simpl; lia).
  rewrite lookup_app, lookup_keyed. fold letters.
  rewrite isin_length
    by (intros b Hb; apply (basal_letters_length haplo_col dfv) in Hb; lia).
  cbn [app lookup]. rewrite eqb_length by (simpl; lia).
  rewrite lookup_app, lookup_keyed. fold subcols.
  now rewrite (proj2 (isin_In sc subcols) Hs).
Qed.

Lemma merged_total (g : GroupKey) :
  lookup "Total" (NewTables.merged_df haplo_col dfv g)
  = Some (Num (Some (NewTables.Total haplo_col dfv g))).
Proof.
  unfold NewTables.merged_df. cbn [app lookup].
  rewrite !eqb_length by (simpl; lia).
  rewrite lookup_app, lookup_keyed. fold letters.
  rewrite isin_length
    by (intros b Hb; apply (basal_letters_length haplo_col dfv) in Hb;
        simpl; lia).
  reflexivity.
Qed.

Lemma merged_coord (g : GroupKey) :
  lookup "Ancient pop name" (NewTables.merged_df haplo_col dfv g)
    = Some (Str (fst (fst g)))
  /\ lookup "Country" (NewTables.merged_df haplo_col dfv g)
    = Some (Str (snd (fst g)))
  /\ lookup "Lat" (NewTables.merged_df haplo_col dfv g)
    = Some (Num (coord_mean lat_numeric g dfv))
  /\ lookup "Long" (NewTables.merged_df haplo_col dfv g)
    = Some (Num (coord_mean long_numeric g dfv))
  /\ lookup "Age" (NewTables.merged_df haplo_col dfv g)
    = Some (Str (NewTables.Age haplo_col dfv g)).
Proof.
  split; [reflexivity|]. split; [reflexivity|].
  assert (forall c,
             (2 < String.length c < 5)%nat ->
             lookup c (NewTables.merged_df haplo_col dfv g)
             = lookup c [("Lat", Num (coord_mean lat_numeric g dfv));
                         ("Long", Num (coord_mean long_numeric g dfv));
                         ("Age", Str (NewTables.Age haplo_col dfv g))]) as Hc.
  { intros c Hl. unfold NewTables.merged_df. cbn [app lookup].
    rewrite !eqb_length by (simpl; lia).
    rewrite lookup_app, lookup_keyed. fold letters.
    rewrite isin_length
      by (intros b Hb; apply (basal_letters_length haplo_col dfv) in Hb; lia).
    cbn [app lookup]. rewrite eqb_length by (simpl; lia).
    rewrite lookup_app, lookup_keyed. fold subcols.
    rewrite isin_length
      by (intros s Hs; apply (subclade_cols_length haplo_col dfv) in Hs; lia).
    rewrite lookup_app. fold letters.
    rewrite lookup_count_cols by lia.
    cbn [app lookup]. rewrite eqb_length by (simpl; lia). reflexivity. }
  repeat split; rewrite Hc by (simpl; lia); reflexivity.
Qed.

(** Cells of the written row, by column name. *)

Lemma output_lookup (g : GroupKey) (c : string) :
  In c (base_cols ++ NewTables.final_order_of_haplos haplo_col dfv) ->
  lookup c (NewTables.output_row haplo_col dfv g)
  = option_map (fun v => snd (NewTables.format_cell haplo_col dfv (c, v)))
               (lookup c (NewTables.merged_df haplo_col dfv g)).
Proof.
  intros Hc. unfold NewTables.output_row.
  rewrite lookup_map_cells by (intros [c' v]; unfold NewTables.format_cell;
    destruct (String.eqb c' "Total"); [reflexivity|];
    destruct (Py.isin c' _); reflexivity).
  rewrite lookup_select, final_cols_all.
  now rewrite (proj2 (isin_In _ _) Hc).
Qed.

Lemma output_basal (g : GroupKey) (b : string) :
  In b letters ->
  lookup b (NewTables.output_row haplo_col dfv g)
  = Some (Str (Np.fmt2 (NewTables.pivot_basal haplo_col dfv g b) ++ "%")%string).
Proof.
  intros Hb. pose proof (basal_letters_length _ _ _ Hb) as Hl.
  rewrite output_lookup
    by (apply in_app_iff; right; now apply final_order_basal).
  rewrite merged_basal by assumption. simpl.
  rewrite eqb_length by (simpl; lia).
  now rewrite (proj2 (isin_In _ _) (final_order_basal b Hb)).
Qed.

Lemma output_sub (g : GroupKey) (sc : string) :
  In sc subcols ->
  In sc (NewTables.final_order_of_haplos haplo_col dfv) ->
  lookup sc (NewTables.output_row haplo_col dfv g)
  = Some (Str (Np.fmt2 (NewTables.subclade_percentage haplo_col dfv g sc)
               ++ "%")%string).
Proof.
  intros Hs Ho. pose proof (subclade_cols_length _ _ _ Hs) as Hl.
  rewrite output_lookup by (apply in_app_iff; now right).
  rewrite merged_sub_cell by assumption. simpl.
  rewrite eqb_length by (simpl; lia).
  now rewrite (proj2 (isin_In _ _) Ho).
Qed.

Lemma output_total (g : GroupKey) :
  lookup "Total" (NewTables.output_row haplo_col dfv g)
  = Some (Int (Np.trunc (NewTables.Total haplo_col dfv g))).
Proof.
  rewrite output_lookup.
  - now rewrite merged_total.
  - apply in_app_iff. right. rewrite final_order_blocks.
    apply in_app_iff. right. now left.
Qed.

Lemma output_coord (g : GroupKey) :
  lookup "Ancient pop name" (NewTables.output_row haplo_col dfv g)
    = Some (Str (fst (fst g)))
  /\ lookup "Country" (NewTables.output_row haplo_col dfv g)
    = Some (Str (snd (fst g)))
  /\ lookup "Lat" (NewTables.output_row haplo_col dfv g)
    = Some (Num (coord_mean lat_numeric g dfv))
  /\ lookup "Long" (NewTables.output_row haplo_col dfv g)
    = Some (Num (coord_mean long_numeric g dfv)).
Proof.
  destruct (merged_coord g) as (H1 & H2 & H3 & H4 & _).
  assert (forall c v,
             In c ["Ancient pop name"; "Country"; "Lat"; "Long"] ->
             lookup c (NewTables.merged_df haplo_col dfv g) = Some v ->
             lookup c (NewTables.output_row haplo_col dfv g) = Some v) as Hc.
  { intros c v Hin Hv. rewrite output_lookup.
    - rewrite Hv. simpl. f_equal.
      assert (String.eqb c "Total" = false) as ->
          by (simpl in Hin;
              destruct Hin as [<-|[<-|[<-|[<-|[]]]]]; reflexivity).
      assert (Py.isin c (NewTables.final_order_of_haplos haplo_col dfv) = false)
        as ->; [|reflexivity].
      apply isin_false. intros Ho. apply final_order_In in Ho.
      destruct Ho as [Ho|[Ho|Ho]].
      + apply (basal_letters_length haplo_col dfv) in Ho.
        simpl in Hin. destruct Hin as [<-|[<-|[<-|[<-|[]]]]]; simpl in Ho; lia.
      + apply (subclade_cols_length haplo_col dfv) in Ho.
        simpl in Hin. destruct Hin as [<-|[<-|[<-|[<-|[]]]]]; simpl in Ho; lia.
      + subst c. simpl in Hin. intuition discriminate.
    - apply in_app_iff. left. simpl in *. tauto. }
  repeat split; apply Hc; simpl; auto.
Qed.
End NewOutput.

Lemma new_written (haplo_col : Row -> string) (df : list Row)
      (rows : list FrameRow) (ws : list NewTables.Warning) :
  NewTables.make_haplo_table haplo_col df = NewTables.Written rows ws ->
  NewTables.df_valid haplo_col df <> []
  /\ rows = NewTables.output_rows haplo_col (NewTables.df_valid haplo_col df)
  /\ ws = NewTables.warnings haplo_col (NewTables.df_valid haplo_col df).
Proof.
  unfold NewTables.make_haplo_table.
  destruct (NewTables.filter_patterns haplo_col df); [discriminate|].
  destruct (NewTables.df_valid haplo_col df); [discriminate|].
  intros [= <- <-]. repeat split. discriminate.
Qed.

(** A table is written as soon as one record passes both filters. *)
Lemma new_writes (haplo_col : Row -> string) (df : list Row) :
  NewTables.df_valid haplo_col df <> [] ->
  NewTables.make_haplo_table haplo_col df
  = NewTables.Written
      (NewTables.output_rows haplo_col (NewTables.df_valid haplo_col df))
      (NewTables.warnings haplo_col (NewTables.df_valid haplo_col df)).
Proof.
  intros Hv. unfold NewTables.make_haplo_table.
  destruct (NewTables.filter_patterns haplo_col df) eqn:E.
  - exfalso. apply Hv. unfold NewTables.df_valid. now rewrite E.
  - destruct (NewTables.df_valid haplo_col df); [contradiction | reflexivity].
Qed.

Lemma new_written_row (haplo_col : Row -> string) (df : list Row)
      (rows : list FrameRow) (ws : list NewTables.Warning) (row : FrameRow) :
  NewTables.make_haplo_table haplo_col df = NewTables.Written rows ws ->
  In row rows ->
  exists g,
    In g (map group_keys (NewTables.df_valid haplo_col df))
    /\ row = NewTables.output_row haplo_col (NewTables.df_valid haplo_col df) g.
Proof.
  intros Hw Hrow. apply new_written in Hw. destruct Hw as (_ & -> & _).
  unfold NewTables.output_rows in Hrow. apply in_map_iff in Hrow.
  destruct Hrow as (g & <- & Hg). exists g. split; [|reflexivity].
  apply groups_In in Hg. destruct Hg as (r & Hr & <-). now apply in_map.
Qed.

(** ** The basal-only script *)

Section OldOutput.
Variable haplo_col : Row -> string.
Variable df : list Row.

Let dfv := OldTables.df_valid haplo_col df.
Let letters := columns (OldTables.pivot_df haplo_col df).

Lemma old_letters : letters = NewTables.basal_letters haplo_col dfv.
Proof. reflexivity. Qed.

Lemma old_Total_n (g : GroupKey) :
  OldTables.Total haplo_col df g == inject_Z (n_group dfv g).
Proof. exact (Total_count_n haplo_col dfv g). Qed.

Lemma old_groups_In (g : GroupKey) :
  In g (index (OldTables.pivot_df haplo_col df))
  <-> exists r, In r dfv /\ group_keys r = g.
Proof. exact (groups_In haplo_col dfv g). Qed.

Lemma old_merged_names (year : GroupKey -> Z) (g : GroupKey) :
  column_names (OldTables.merged_df haplo_col df year g)
  = ["Ancient pop name"; "Country"] ++ letters
    ++ ["Total"; "Lat"; "Long"; "Age"].
Proof.
  unfold OldTables.merged_df, column_names.
  rewrite !map_app, !map_map. simpl. rewrite map_id. reflexivity.
Qed.

Lemma old_haplo_cols (year : GroupKey -> Z) (g : GroupKey) :
  OldTables.haplo_cols_sorted (OldTables.merged_df haplo_col df year g)
  = letters.
Proof.
  unfold OldTables.haplo_cols_sorted. rewrite old_merged_names.
  set (p := fun col => negb (Py.isin col (base_cols ++ ["Total"]))).
  rewrite !filter_app.
  replace (filter p ["Ancient pop name"; "Country"]) with (@nil string)
    by reflexivity.
  replace (filter p ["Total"; "Lat"; "Long"; "Age"]) with (@nil string)
    by reflexivity.
  rewrite app_nil_r, filter_all.
  - apply sorted_id. apply (basal_letters_sorted haplo_col dfv).
  - intros b Hb. apply negb_true_iff, isin_length.
    apply (basal_letters_length haplo_col dfv) in Hb.
    intros y Hy. simpl in Hy.
    destruct Hy as [<-|[<-|[<-|[<-|[<-|[<-|[]]]]]]]; simpl; lia.
Qed.

Lemma old_output_total (year : GroupKey -> Z) (g : GroupKey) :
  lookup "Total" (OldTables.output_row haplo_col df year g)
  = Some (Int (Np.trunc (OldTables.Total haplo_col df g))).
Proof.
  unfold OldTables.output_row.
  rewrite lookup_map_cells by (intros [c v]; unfold OldTables.format_cell;
    destruct (Py.isin c _); [reflexivity|];
    destruct (String.eqb c "Total"); reflexivity).
  rewrite lookup_select. unfold OldTables.final_cols.
  rewrite old_haplo_cols.
  assert (Py.isin "Total" (base_cols ++ letters ++ ["Total"]) = true) as ->.
  { apply isin_In. rewrite !in_app_iff. right. right. now left. }
  assert (Py.isin "Total" letters = false) as Hl.
  { apply isin_length. intros b Hb.
    apply (basal_letters_length haplo_col dfv) in Hb. simpl. lia. }
  unfold OldTables.merged_df. cbn [app lookup].
  rewrite !eqb_length by (simpl; lia).
  rewrite lookup_app, lookup_keyed. fold letters. rewrite Hl.
  cbn [app lookup String.eqb Ascii.eqb Bool.eqb option_map].
  unfold OldTables.format_cell. now rewrite Hl.
Qed.

Lemma old_output_coord (year : GroupKey -> Z) (g : GroupKey) :
  lookup "Ancient pop name" (OldTables.output_row haplo_col df year g)
    = Some (Str (fst (fst g)))
  /\ lookup "Lat" (OldTables.output_row haplo_col df year g)
    = Some (Num (coord_mean lat_numeric g df))
  /\ lookup "Long" (OldTables.output_row haplo_col df year g)
    = Some (Num (coord_mean long_numeric g df)).
Proof.
  assert (forall c, In c ["Ancient pop name"; "Lat"; "Long"] ->
            lookup c (OldTables.output_row haplo_col df year g)
            = lookup c [("Ancient pop name", Str (fst (fst g)));
                        ("Lat", Num (coord_mean lat_numeric g df));
                        ("Long", Num (coord_mean long_numeric g df))]) as Hc.
  { intros c Hc.
    assert (Py.isin c letters = false) as Hl.
    { apply isin_length. intros b Hb.
      apply (basal_letters_length haplo_col dfv) in Hb.
      simpl in Hc. destruct Hc as [<-|[<-|[<-|[]]]]; simpl; lia. }
    unfold OldTables.output_row.
    rewrite lookup_map_cells by (intros [c' v]; unfold OldTables.format_cell;
      destruct (Py.isin c' _); [reflexivity|];
      destruct (String.eqb c' "Total"); reflexivity).
    rewrite lookup_select. unfold OldTables.final_cols.
    rewrite old_haplo_cols.
    assert (Py.isin c (base_cols ++ letters ++ ["Total"]) = true) as ->.
    { apply isin_In. rewrite !in_app_iff. left. simpl in *. tauto. }
    unfold OldTables.merged_df.
    rewrite lookup_app.
    simpl in Hc. destruct Hc as [<-|[<-|[<-|[]]]].
    - simpl. unfold OldTables.format_cell. now rewrite Hl.
    - cbn [lookup String.eqb Ascii.eqb Bool.eqb].
      rewrite lookup_app, lookup_keyed. fold letters. rewrite Hl.
      cbn [lookup String.eqb Ascii.eqb Bool.eqb option_map].
      unfold OldTables.format_cell. now rewrite Hl.
    - cbn [lookup String.eqb Ascii.eqb Bool.eqb].
      rewrite lookup_app, lookup_keyed. fold letters. rewrite Hl.
      cbn [lookup String.eqb Ascii.eqb Bool.eqb option_map].
      unfold OldTables.format_cell. now rewrite Hl. }
  repeat split; rewrite Hc by (simpl; auto); reflexivity.
Qed.

Lemma old_percentage_n (g : GroupKey) (b : string) :
  0 < n_group dfv g ->
  exists p,
    OldTables.percentage haplo_col df g b = Some p
    /\ (p == 100 * inject_Z (n_basal haplo_col dfv g b)
             / inject_Z (n_group dfv g))%Q.
Proof.
  intros Hpos. unfold OldTables.percentage.
  assert (~ inject_Z (n_group dfv g) == 0) as Hne.
  { intros E. change 0%Q with (inject_Z 0) in E.
    apply (proj1 (inject_Z_injective _ _)) in E. lia. }
  destruct (Qeq_bool (OldTables.Total haplo_col df g) 0) eqn:E.
  - apply Qeq_bool_iff in E. rewrite old_Total_n in E. contradiction.
  - eexists. split; [reflexivity|].
    rewrite old_Total_n.
    change (value (OldTables.pivot_df haplo_col df) g b)
      with (NewTables.Count_basal haplo_col dfv g b).
    rewrite Count_basal_n. field. exact Hne.
Qed.

Lemma old_output_basal (year : GroupKey -> Z) (g : GroupKey) (b : string) :
  In b letters ->
  lookup b (OldTables.output_row haplo_col df year g)
  = Some (percent_cell (Num (OldTables.percentage haplo_col df g b))).
Proof.
  intros Hb. pose proof (basal_letters_length haplo_col dfv b Hb) as Hl.
  pose proof (proj2 (isin_In b letters) Hb) as Hin.
  unfold OldTables.output_row.
  rewrite lookup_map_cells by (intros [c v]; unfold OldTables.format_cell;
    destruct (Py.isin c _); [reflexivity|];
    destruct (String.eqb c "Total"); reflexivity).
  rewrite lookup_select. unfold OldTables.final_cols.
  rewrite old_haplo_cols.
  assert (Py.isin b (base_cols ++ letters ++ ["Total"]) = true) as ->.
  { apply isin_In. rewrite !in_app_iff. right. now left. }
  unfold OldTables.merged_df. cbn [app lookup].
  rewrite !eqb_length by (simpl; lia).
  rewrite lookup_app, lookup_keyed. fold letters. rewrite Hin.
  cbn [option_map]. unfold OldTables.format_cell. now rewrite Hin.
Qed.

Lemma old_written_row (rows : list FrameRow) (row : FrameRow) :
  OldTables.make_haplo_table haplo_col df = OldTables.Written rows ->
  In row rows ->
  exists year g,
    In g (map group_keys dfv)
    /\ row = OldTables.output_row haplo_col df year g.
Proof.
  unfold OldTables.make_haplo_table.
  destruct (OldTables.computed_age haplo_col df) as [year|]; [|discriminate].
  intros [= <-] Hrow. apply in_map_iff in Hrow.
  destruct Hrow as (g & <- & Hg). exists year, g. split; [|reflexivity].
  apply old_groups_In in Hg. destruct Hg as (r & Hr & <-). now apply in_map.
Qed.
End OldOutput.

(** ** The scenario of the specification *)

(** Codes A1, A2 and B in the group "X 0-1000 BP": A = 66.67%, B = 33.33%,
    A1 = A2 = 50.00% of A's count; the total is reported as 5 by the
    subclade-aware script and as 3 by the basal-only script. *)
Example scenario_new :
  NewTables.make_haplo_table Y_haplogroup Samples.scenario
  = NewTables.Written
      [[("Ancient pop name", Str "X 0-1000 BP"); ("Country", Str "X");
        ("Age", Str "1450 CE"); ("Lat", Num (Some 10%Q));
        ("Long", Num (Some 20%Q));
        ("A", Str "66.67%"); ("A1", Str "50.00%"); ("A2", Str "50.00%");
        ("B", Str "33.33%"); ("Total", Int 5)]]
      [].
Proof. vm_compute. reflexivity. Qed.

Example scenario_old :
  OldTables.make_haplo_table Y_haplogroup Samples.scenario
  = OldTables.Written
      [[("Ancient pop name", Str "X 0-1000 BP"); ("Country", Str "X");
        ("Age", Str "1450 CE"); ("Lat", Num (Some 10%Q));
        ("Long", Num (Some 20%Q));
        ("A", Str "66.67%"); ("B", Str "33.33%"); ("Total", Int 3)]].
Proof. vm_compute. reflexivity. Qed.

Example calendar_year_labels :
  format_calendar_year (Np.rint (1950 - 2500)) = "550 BCE"
  /\ format_calendar_year (Np.rint (1950 - 1950)) = "0 CE"
  /\ format_calendar_year (Np.rint (1950 - 500)) = "1450 CE".
Proof. vm_compute. repeat split. Qed.

(* ================================================================== *)
(** * The stated properties *)


Lemma zero_total_warning_spec (totals : list Q) :
  In NewTables.Zero_total (NewTables.zero_total_warning totals)
  <-> exists t, In t totals /\ t == 0.
Proof.
  unfold NewTables.zero_total_warning.
  destruct (existsb (Qeq_bool 0) totals) eqn:E.
  - apply existsb_exists in E. destruct E as (t & Ht & Et).
    apply Qeq_bool_iff in Et. split; [intros _|intros _; now left].
    exists t. split; [assumption | now symmetry].
  - split; [intros []|]. intros (t & Ht & Et).
    assert (existsb (Qeq_bool 0) totals = true) as E'; [|congruence].
    apply existsb_exists. exists t. split; [assumption|].
    apply Qeq_bool_iff. now symmetry.
Qed.



(** C1, as stated, fails on the scenario of the specification: the group
    holds three valid records (A1, A2, B) and its row reports Total 5. *)
Lemma C1_total_counts_subclades_twice :
  ~ total_counts_records Y_haplogroup Samples.scenario.
Proof.
  intros Hc.
  destruct (Hc (NewTables.output_rows Y_haplogroup
                  (NewTables.df_valid Y_haplogroup Samples.scenario))
               (NewTables.warnings Y_haplogroup
                  (NewTables.df_valid Y_haplogroup Samples.scenario))
               (NewTables.output_row Y_haplogroup
                  (NewTables.df_valid Y_haplogroup Samples.scenario)
                  Samples.X_0_1000)
               eq_refl)
    as (g & Hg & _ & Ht).
  - vm_compute. left. reflexivity.
  - assert (g = Samples.X_0_1000) as ->.
    { vm_compute in Hg. intuition. }
    vm_compute in Ht. discriminate Ht.
Qed.

(** C1, amended.  In the basal-only script the [Total] of a row is the sum
    of the raw basal counts of its group, the number of its records that pass
    the filter.  In the subclade-aware script (codes stored without leading
    whitespace) the [Total] is that sum plus the number of the group's
    records that carry a subclade: those records are counted twice. *)
Theorem C1_total_amended :
  (forall haplo_col df rows ws row,
      (forall r, In r df -> no_leading_space (haplo_col r)) ->
      NewTables.make_haplo_table haplo_col df = NewTables.Written rows ws ->
      In row rows ->
      exists g,
        let dfv := NewTables.df_valid haplo_col df in
        In g (map group_keys dfv)
        /\ lookup "Ancient pop name" row = Some (Str (fst (fst g)))
        /\ lookup "Country" row = Some (Str (snd (fst g)))
        /\ n_group dfv g
           = sumZ (map (n_basal haplo_col dfv g)
                       (NewTables.basal_letters haplo_col dfv))
        /\ lookup "Total" row
           = Some (Int (n_group dfv g + n_group_sub haplo_col dfv g)))
  /\ (forall haplo_col df rows row,
         OldTables.make_haplo_table haplo_col df = OldTables.Written rows ->
         In row rows ->
         exists g,
           let dfv := OldTables.df_valid haplo_col df in
           In g (map group_keys dfv)
           /\ lookup "Ancient pop name" row = Some (Str (fst (fst g)))
           /\ n_group dfv g
              = sumZ (map (n_basal haplo_col dfv g)
                          (columns (OldTables.pivot_df haplo_col df)))
           /\ lookup "Total" row = Some (Int (n_group dfv g))).
Proof.
  split.
  - intros haplo_col df rows ws row Hclean Hw Hrow.
    destruct (new_written_row _ _ _ _ _ Hw Hrow) as (g & Hg & ->).
    exists g. cbv zeta.
    set (dfv := NewTables.df_valid haplo_col df) in *.
    destruct (output_coord haplo_col dfv g) as (Hn & Hc & _).
    repeat split; try assumption.
    + symmetry. apply n_basal_partition.
    + rewrite output_total. do 2 f_equal. apply trunc_inject, Total_n.
      intros r Hr. apply Hclean.
      unfold dfv, NewTables.df_valid, NewTables.filter_shape,
        NewTables.filter_patterns in Hr.
      apply filter_In in Hr. destruct Hr as (Hr & _).
      apply filter_In in Hr. tauto.
  - intros haplo_col df rows row Hw Hrow.
    destruct (old_written_row _ _ _ _ Hw Hrow) as (year & g & Hg & ->).
    exists g. cbv zeta.
    destruct (old_output_coord haplo_col df year g) as (Hn & _).
    repeat split; try assumption.
    + symmetry.
      apply (n_basal_partition haplo_col (OldTables.df_valid haplo_col df)).
    + rewrite old_output_total. do 2 f_equal.
      apply trunc_inject, old_Total_n.
Qed.

Lemma C1_total_amended_witness :
  (exists g,
      let dfv := NewTables.df_valid Y_haplogroup Samples.scenario in
      let row := NewTables.output_row Y_haplogroup dfv Samples.X_0_1000 in
      In g (map group_keys dfv)
      /\ lookup "Ancient pop name" row = Some (Str (fst (fst g)))
      /\ lookup "Country" row = Some (Str (snd (fst g)))
      /\ n_group dfv g
         = sumZ (map (n_basal Y_haplogroup dfv g)
                     (NewTables.basal_letters Y_haplogroup dfv))
      /\ lookup "Total" row
         = Some (Int (n_group dfv g + n_group_sub Y_haplogroup dfv g)))
  /\ (exists g,
         let dfv := OldTables.df_valid Y_haplogroup Samples.scenario in
         let row := OldTables.output_row Y_haplogroup Samples.scenario
                      (fun _ => 1450) Samples.X_0_1000 in
         In g (map group_keys dfv)
         /\ lookup "Ancient pop name" row = Some (Str (fst (fst g)))
         /\ n_group dfv g
            = sumZ (map (n_basal Y_haplogroup dfv g)
                        (columns (OldTables.pivot_df Y_haplogroup Samples.scenario)))
         /\ lookup "Total" row = Some (Int (n_group dfv g))).
Proof.
  split.
  - apply (proj1 C1_total_amended Y_haplogroup Samples.scenario
             (NewTables.output_rows Y_haplogroup
                (NewTables.df_valid Y_haplogroup Samples.scenario))
             (NewTables.warnings Y_haplogroup
                (NewTables.df_valid Y_haplogroup Samples.scenario))).
    + intros r Hr c s E. vm_compute in Hr.
      destruct Hr as [<-|[<-|[<-|[]]]]; vm_compute in E;
        injection E as <- _; reflexivity.
    + reflexivity.
    + vm_compute. left. reflexivity.
  - apply (proj2 C1_total_amended Y_haplogroup Samples.scenario
             [OldTables.output_row Y_haplogroup Samples.scenario
                (fun _ => 1450) Samples.X_0_1000]).
    + vm_compute. reflexivity.
    + left. reflexivity.
Defined.

(** ** Subclade percentages when no code has leading whitespace *)


Section NewClean.
Variable haplo_col : Row -> string.
Variable dfv : list Row.
Hypothesis clean : forall r, In r dfv -> no_leading_space (haplo_col r).
Hypothesis nonempty : forall r, In r dfv -> haplo_col r <> "".

Let letters := NewTables.basal_letters haplo_col dfv.
Let subcols := NewTables.subclade_cols haplo_col dfv.

Lemma n_sub_le (g : GroupKey) (s : string) :
  n_sub haplo_col dfv g s <= n_group_sub haplo_col dfv g.
Proof.
  apply count_rows_le. intros r _ Hr.
  apply andb_true_iff in Hr. destruct Hr as (Hg & Hs).
  rewrite Hg. simpl. unfold has_sub in Hs. unfold any_sub.
  now destruct (NewTables.parse_subclade (haplo_col r)).
Qed.

Lemma fill_sub_n (g : GroupKey) (sc : string) :
  Np.fillna 0 (NewTables.merged_sub haplo_col dfv g sc)
  == inject_Z (n_sub haplo_col dfv g sc).
Proof.
  unfold NewTables.merged_sub.
  destruct (mem g (index (NewTables.pivot_sub haplo_col dfv))) eqn:M; simpl.
  - now apply pivot_sub_value.
  - assert (n_sub haplo_col dfv g sc = 0) as ->; [|reflexivity].
    pose proof (n_sub_le g sc) as Hle.
    pose proof (count_rows_nonneg
                  (fun r => eqk (group_keys r) g && has_sub haplo_col sc r)
                  dfv) as Hge.
    fold (n_sub haplo_col dfv g sc) in Hge.
    rewrite n_group_sub_absent in Hle; [lia|].
    intros Hin. apply mem_In in Hin. congruence.
Qed.

Lemma subclade_parent_In (sc : string) :
  In sc subcols -> In (NewTables.parent_letter sc) letters.
Proof.
  intros Hs. apply subclade_cols_In in Hs. destruct Hs as (r & Hr & Hs).
  destruct (parse_subclade_parent haplo_col r sc (clean r Hr) Hs) as (-> & _).
  apply basal_letters_In. now exists r.
Qed.

(** The frequency of a subclade: its count over its parent's raw count in
    the same group. *)
Lemma subclade_percentage_n (g : GroupKey) (sc : string) :
  In sc subcols ->
  NewTables.subclade_percentage haplo_col dfv g sc
  == NewTables.percentage
       (inject_Z (n_sub haplo_col dfv g sc))
       (inject_Z (n_basal haplo_col dfv g (NewTables.parent_letter sc))).
Proof.
  intros Hs. unfold NewTables.subclade_percentage, NewTables.has_parent.
  pose proof (proj2 (isin_In _ _) (subclade_parent_In sc Hs)) as Hp.
  unfold letters in Hp. rewrite Hp.
  apply percentage_comp; [apply fill_sub_n | apply Count_basal_n].
Qed.

Lemma letter_shape (b : string) :
  In b letters -> exists c, b = String (Py.upper_char c) "".
Proof.
  intros Hb. apply basal_letters_In in Hb. destruct Hb as (r & Hr & <-).
  destruct (haplo_col r) as [|c x] eqn:E; [now apply nonempty in E|].
  exists c. now apply raw_basal_cons with (s := x).
Qed.

Lemma related_parent (b sc : string) :
  In b letters -> In sc subcols ->
  Py.startswith b sc = true <-> NewTables.parent_letter sc = b.
Proof.
  intros Hb Hs. destruct (letter_shape b Hb) as (c & ->).
  rewrite startswith_letter.
  apply subclade_cols_In in Hs. destruct Hs as (r & Hr & Hs).
  destruct (parse_subclade_parent haplo_col r sc (clean r Hr) Hs) as (Hp & Hq).
  rewrite Hp, Hq. reflexivity.
Qed.



End NewClean.

Lemma df_valid_clean (haplo_col : Row -> string) (df : list Row) :
  (forall r, In r df -> no_leading_space (haplo_col r)) ->
  forall r, In r (NewTables.df_valid haplo_col df) ->
            no_leading_space (haplo_col r).
Proof.
  intros Hclean r Hr. apply Hclean.
  unfold NewTables.df_valid, NewTables.filter_shape,
    NewTables.filter_patterns in Hr.
  apply filter_In in Hr. destruct Hr as (Hr & _).
  apply filter_In in Hr. tauto.
Qed.

Lemma df_valid_valid (haplo_col : Row -> string) (df : list Row) (r : Row) :
  In r (NewTables.df_valid haplo_col df) <->
  In r df
  /\ Py.isin (Py.strip (haplo_col r)) NewTables.invalid_patterns = false
  /\ NewTables.is_valid_haplo (haplo_col r) = true.
Proof.
  unfold NewTables.df_valid, NewTables.filter_shape, NewTables.filter_patterns.
  rewrite !filter_In, negb_true_iff. tauto.
Qed.

Lemma df_valid_nonempty (haplo_col : Row -> string) (df : list Row) (r : Row) :
  In r (NewTables.df_valid haplo_col df) -> haplo_col r <> "".
Proof.
  intros Hr. apply df_valid_valid in Hr. now apply is_valid_nonempty.
Qed.

Lemma final_order_sub (haplo_col : Row -> string) (dfv : list Row)
      (b sc : string) :
  In b (NewTables.basal_letters haplo_col dfv) ->
  In sc (NewTables.related_subs haplo_col dfv b) ->
  In sc (NewTables.final_order_of_haplos haplo_col dfv)
  /\ In sc (NewTables.subclade_cols haplo_col dfv).
Proof.
  intros Hb Hsc. rewrite related_subs_filter in Hsc. split.
  - rewrite final_order_blocks, in_app_iff, in_flat_map.
    left. exists b. split; [assumption | now right].
  - apply filter_In in Hsc. tauto.
Qed.

(** Where no code has leading whitespace, the cell of a subclade is its
    count over the raw count of its parent letter in the same group, and 0
    when the parent has no record there. *)
Lemma subclade_percentage_clean :
  forall haplo_col df rows ws row,
    (forall r, In r df -> no_leading_space (haplo_col r)) ->
    NewTables.make_haplo_table haplo_col df = NewTables.Written rows ws ->
    In row rows ->
    exists g,
      let dfv := NewTables.df_valid haplo_col df in
      In g (map group_keys dfv)
      /\ lookup "Ancient pop name" row = Some (Str (fst (fst g)))
      /\ lookup "Country" row = Some (Str (snd (fst g)))
      /\ forall sc,
          In sc (NewTables.subclade_cols haplo_col dfv) ->
          let b := NewTables.parent_letter sc in
          exists p,
            lookup sc row = Some (Str (Np.fmt2 p ++ "%")%string)
            /\ (0 < n_basal haplo_col dfv g b ->
                (p == 100 * inject_Z (n_sub haplo_col dfv g sc)
                      / inject_Z (n_basal haplo_col dfv g b))%Q)
            /\ (n_basal haplo_col dfv g b = 0 -> p == 0).
Proof.
  intros haplo_col df rows ws row Hclean Hw Hrow.
  destruct (new_written_row _ _ _ _ _ Hw Hrow) as (g & Hg & ->).
  exists g. cbv zeta.
  set (dfv := NewTables.df_valid haplo_col df) in *.
  pose proof (df_valid_clean _ _ Hclean) as Hc. fold dfv in Hc.
  destruct (output_coord haplo_col dfv g) as (Hn & Hco & _).
  repeat split; try assumption.
  intros sc Hsc.
  exists (NewTables.subclade_percentage haplo_col dfv g sc).
  pose proof (subclade_parent_In haplo_col dfv Hc sc Hsc) as Hp.
  repeat split.
  - apply output_sub; [assumption|].
    apply (final_order_sub haplo_col dfv (NewTables.parent_letter sc));
      [assumption|].
    rewrite related_subs_filter. apply filter_In. split; [assumption|].
    apply (related_parent haplo_col dfv Hc (df_valid_nonempty haplo_col df));
      auto.
  - intros Hpos. rewrite (subclade_percentage_n haplo_col dfv Hc) by assumption.
    apply percentage_pos. change 0%Q with (inject_Z 0). now rewrite <- Zlt_Qlt.
  - intros Hz. rewrite (subclade_percentage_n haplo_col dfv Hc) by assumption.
    rewrite Hz. reflexivity.
Qed.

(** C2.  At [Samples.mixed_spacing] (codes A1, A1, A1 and " A1" in one
    group) the cell of subclade A1 reads 66.67%, although four records of the
    group carry subclade A1, three of them under basal letter A, whose raw
    count is 3. *)
Theorem C2_subclade_percentage_mixed_spacing :
  let dfv := NewTables.df_valid Y_haplogroup Samples.mixed_spacing in
  let g := Samples.X_0_1000 in
  let row := NewTables.output_row Y_haplogroup dfv g in
  NewTables.make_haplo_table Y_haplogroup Samples.mixed_spacing
  = NewTables.Written [row] []
  /\ lookup "A1" row = Some (Str "66.67%")
  /\ n_sub Y_haplogroup dfv g "A1" = 4
  /\ n_basal Y_haplogroup dfv g "A" = 3
  /\ count_rows (fun r => eqk (group_keys r) g
                          && eqk (raw_basal Y_haplogroup r) "A"
                          && has_sub Y_haplogroup "A1" r) dfv = 3.
Proof. vm_compute. repeat split. Qed.





(** ** Validity of codes and the records that are left out *)

Lemma is_valid_haplo_shape (x : string) :
  NewTables.is_valid_haplo x = true
  <-> String.length (Py.strip x) = 1%nat
      \/ ((2 <= String.length (Py.strip x))%nat
          /\ exists c, Py.item (Py.strip x) 1 = Some c /\ Py.isdigit c = true).
Proof.
  unfold NewTables.is_valid_haplo, Py.len.
  rewrite orb_true_iff, andb_true_iff, Nat.eqb_eq, Nat.leb_le.
  split; (intros [H1|(H2 & Hd)]; [now left | right; split; [exact H2|]]).
  - destruct (Py.item (Py.strip x) 1) as [c|]; [now exists c | discriminate].
  - destruct Hd as (c & -> & Hc). exact Hc.
Qed.

Lemma placeholders_invalid (x : string) :
  Py.isin (Py.strip x) NewTables.invalid_patterns = true ->
  NewTables.is_valid_haplo x = false.
Proof.
  intros Hin. apply isin_In in Hin. unfold NewTables.is_valid_haplo.
  simpl in Hin.
  destruct Hin as [<-|[<-|[<-|[<-|[<-|[]]]]]]; reflexivity.
Qed.

(** The records the subclade-aware script keeps are those whose code has the
    basal or subclade shape; the placeholder tokens never have it. *)
Lemma new_df_valid_iff (haplo_col : Row -> string) (df : list Row) (r : Row) :
  In r (NewTables.df_valid haplo_col df)
  <-> In r df /\ NewTables.is_valid_haplo (haplo_col r) = true.
Proof.
  rewrite df_valid_valid. split; [tauto|]. intros (Hr & Hv).
  repeat split; try assumption.
  destruct (Py.isin (Py.strip (haplo_col r)) NewTables.invalid_patterns) eqn:E;
    [|reflexivity].
  apply placeholders_invalid in E. congruence.
Qed.

Lemma new_df_valid_filter (haplo_col : Row -> string) (df : list Row) :
  NewTables.df_valid haplo_col df
  = filter (fun r => NewTables.is_valid_haplo (haplo_col r)) df.
Proof.
  unfold NewTables.df_valid, NewTables.filter_shape, NewTables.filter_patterns.
  induction df as [|r df IH]; [reflexivity|]. cbn [filter].
  destruct (Py.isin (Py.strip (haplo_col r)) NewTables.invalid_patterns) eqn:E;
    cbn [negb filter].
  - rewrite (placeholders_invalid _ E). exact IH.
  - destruct (NewTables.is_valid_haplo (haplo_col r)); [now f_equal | exact IH].
Qed.

(** A record with an invalid code changes nothing in a written table of the
    subclade-aware script: no count, no total, no coordinate mean. *)
Lemma new_invalid_ignored (haplo_col : Row -> string) (df1 df2 : list Row)
      (r : Row) (rows : list FrameRow) (ws : list NewTables.Warning) :
  NewTables.is_valid_haplo (haplo_col r) = false ->
  NewTables.make_haplo_table haplo_col (df1 ++ df2) = NewTables.Written rows ws ->
  NewTables.make_haplo_table haplo_col (df1 ++ r :: df2)
  = NewTables.Written rows ws.
Proof.
  intros Hinv Hw.
  assert (NewTables.df_valid haplo_col (df1 ++ r :: df2)
          = NewTables.df_valid haplo_col (df1 ++ df2)) as E.
  { rewrite !new_df_valid_filter, !filter_app. simpl. now rewrite Hinv. }
  apply new_written in Hw. destruct Hw as (Hne & -> & ->).
  rewrite new_writes by (now rewrite E). now rewrite E.
Qed.

(** The coordinate cells of the subclade-aware script are the means over the
    valid records of the row's group; a missing value is left out of its
    mean. *)
Lemma new_coordinates (haplo_col : Row -> string) (df : list Row)
      (rows : list FrameRow) (ws : list NewTables.Warning) (row : FrameRow) :
  NewTables.make_haplo_table haplo_col df = NewTables.Written rows ws ->
  In row rows ->
  exists g,
    let members := get_group g (NewTables.df_valid haplo_col df) in
    In g (map group_keys (NewTables.df_valid haplo_col df))
    /\ lookup "Ancient pop name" row = Some (Str (fst (fst g)))
    /\ lookup "Country" row = Some (Str (snd (fst g)))
    /\ lookup "Lat" row
       = Some (Num (Np.mean (Np.dropna (map lat_numeric members))))
    /\ lookup "Long" row
       = Some (Num (Np.mean (Np.dropna (map long_numeric members))))
    /\ (forall m,
           Np.mean (Np.dropna (map age_numeric members)) = Some m ->
           lookup "Age" row = Some (Str "Unknown")
           \/ lookup "Age" row
              = Some (Str (format_calendar_year (Np.rint (1950 - m))))).
Proof.
  intros Hw Hrow.
  destruct (new_written_row _ _ _ _ _ Hw Hrow) as (g & Hg & ->).
  exists g. cbv zeta.
  set (dfv := NewTables.df_valid haplo_col df) in *.
  destruct (output_coord haplo_col dfv g) as (Hn & Hc & Hlat & Hlong).
  split; [exact Hg|]. split; [exact Hn|]. split; [exact Hc|].
  split; [exact Hlat|]. split; [exact Hlong|].
  intros m Hm.
  rewrite output_lookup by (apply in_app_iff; left; simpl; tauto).
  destruct (merged_coord haplo_col dfv g) as (_ & _ & _ & _ & ->).
  assert (forall s, snd (NewTables.format_cell haplo_col dfv ("Age", Str s))
                    = Str s) as Hfmt.
  { intros s. unfold NewTables.format_cell.
    replace (String.eqb "Age" "Total") with false by reflexivity.
    now destruct (Py.isin "Age" _). }
  cbn [option_map]. rewrite Hfmt. unfold NewTables.Age.
  destruct (NewTables.computed_age haplo_col dfv) as [year|] eqn:Ey;
    [right | now left].
  unfold NewTables.computed_age in Ey.
  destruct (forallb _ _); [|discriminate]. injection Ey as <-.
  unfold coord_mean, Np.nanmean. now rewrite Hm.
Qed.

Lemma dropna_missing (l : list (option Q)) : Np.dropna (None :: l) = Np.dropna l.
Proof. reflexivity. Qed.

(** C5.  At [Samples.with_neanderthal] (codes A and "Neanderthal" in one
    group) the basal-only script counts the placeholder under basal letter N
    and in the total, although the code is a placeholder and has neither the
    basal nor the subclade shape. *)
Theorem C5_old_counts_neanderthal :
  let row := OldTables.output_row Y_haplogroup Samples.with_neanderthal
               (fun _ => 1450) Samples.X_0_1000 in
  OldTables.make_haplo_table Y_haplogroup Samples.with_neanderthal
  = OldTables.Written [row]
  /\ lookup "N" row = Some (Str "50.00%")
  /\ lookup "Total" row = Some (Int 2)
  /\ Py.isin "Neanderthal" NewTables.invalid_patterns = true
  /\ Py.isin "Neanderthal" OldTables.invalid_patterns = false
  /\ NewTables.is_valid_haplo "Neanderthal" = false
  /\ (exists ws,
         NewTables.make_haplo_table Y_haplogroup Samples.with_neanderthal
         = NewTables.Written
             [NewTables.output_row Y_haplogroup [Samples.X500 "A"]
                Samples.X_0_1000] ws
         /\ lookup "Total"
              (NewTables.output_row Y_haplogroup [Samples.X500 "A"]
                 Samples.X_0_1000) = Some (Int 1)).
Proof.
  vm_compute. repeat split. eexists. split; reflexivity.
Qed.

(** C7.  At [Samples.with_placeholder] (a valid record at latitude 10 and a
    record with the placeholder code ".." at latitude 30, same group) the
    basal-only script reports latitude 20, the mean over all rows, where the
    subclade-aware script reports 10, the mean over the valid records. *)
Theorem C7_old_means_over_all_rows :
  let old_row := OldTables.output_row Y_haplogroup Samples.with_placeholder
                   (fun _ => 1450) Samples.X_0_1000 in
  let new_row := NewTables.output_row Y_haplogroup [Samples.X500 "A"]
                   Samples.X_0_1000 in
  OldTables.make_haplo_table Y_haplogroup Samples.with_placeholder
  = OldTables.Written [old_row]
  /\ lookup "Lat" old_row = Some (Num (Some 20%Q))
  /\ lookup "Total" old_row = Some (Int 1)
  /\ NewTables.make_haplo_table Y_haplogroup Samples.with_placeholder
     = NewTables.Written [new_row] [NewTables.No_subclades]
  /\ lookup "Lat" new_row = Some (Num (Some 10%Q)).
Proof. vm_compute. repeat split. Qed.

(** ** Leading whitespace *)

Lemma upper_char_not_space (c : ascii) :
  Py.isspace c = false -> Py.isspace (Py.upper_char c) = false.
Proof. destruct c as [[] [] [] [] [] [] [] []]; simpl; easy. Qed.

Lemma lstrip_head (x : string) :
  Py.lstrip x = "" \/ exists d t, Py.lstrip x = String d t /\ Py.isspace d = false.
Proof.
  induction x as [|c x IH]; simpl; [now left|].
  destruct (Py.isspace c) eqn:E; [exact IH|].
  right. now exists c, x.
Qed.

Lemma rstrip_idem (x : string) : Py.rstrip (Py.rstrip x) = Py.rstrip x.
Proof.
  induction x as [|c x IH]; [reflexivity|].
  cbn [Py.rstrip]. destruct (Py.rstrip x) as [|d t] eqn:E.
  - destruct (Py.isspace c) eqn:Ec; [reflexivity|].
    cbn [Py.rstrip]. now rewrite Ec.
  - cbn [Py.rstrip]. cbn [Py.rstrip] in IH. now rewrite IH.
Qed.

Lemma strip_head (x : string) :
  Py.strip x = "" \/ exists d t, Py.strip x = String d t /\ Py.isspace d = false.
Proof.
  unfold Py.strip. destruct (lstrip_head x) as [->|(d & t & -> & Hd)].
  - now left.
  - right. exists d, (Py.rstrip t). split; [now apply rstrip_cons | exact Hd].
Qed.

Lemma strip_idem (x : string) : Py.strip (Py.strip x) = Py.strip x.
Proof.
  destruct (strip_head x) as [->|(d & t & E & Hd)]; [reflexivity|].
  unfold Py.strip at 1. rewrite E. cbn [Py.lstrip]. rewrite Hd.
  rewrite <- E. unfold Py.strip. apply rstrip_idem.
Qed.

Lemma parse_subclade_strip (x : string) :
  NewTables.parse_subclade (Py.strip x) = NewTables.parse_subclade x.
Proof. unfold NewTables.parse_subclade. now rewrite strip_idem. Qed.

Lemma parse_subclade_letter (x s : string) :
  NewTables.parse_subclade x = Some s ->
  exists d, NewTables.parent_letter s = String d "" /\ Py.isspace d = false.
Proof.
  unfold NewTables.parse_subclade.
  destruct (strip_head x) as [->|(d & t & -> & Hd)]; [discriminate|].
  destruct (Py.len (String d t) <? 2)%nat; [discriminate|].
  destruct (Py.item (String d t) 1) as [e|]; [|discriminate].
  destruct (Py.isdigit e); [|discriminate].
  intros [= <-]. exists (Py.upper_char (Py.upper_char d)).
  split.
  - unfold NewTables.parent_letter. rewrite slice_to_cons. simpl.
    now rewrite slice_to_0.
  - now do 2 apply upper_char_not_space.
Qed.

(** C10.  The basal letter is read from the code as stored, the validity
    test and the subclade from the trimmed code.  A valid code that starts
    with a whitespace character [c] is therefore counted under the basal
    column [c], its subclade is the subclade of the trimmed code, and the
    parent letter of that subclade differs from the basal letter of the
    record; so for " A1": basal " ", subclade "A1", parent letter "A". *)
Theorem C10_basal_from_untrimmed_code :
  (forall (haplo_col : Row -> string) (r : Row) (c : ascii) (x : string),
      haplo_col r = String c x ->
      Py.isspace c = true ->
      NewTables.is_valid_haplo (haplo_col r) = true ->
      NewTables.haplo_basal haplo_col r = String c ""
      /\ NewTables.is_valid_haplo (Py.strip (haplo_col r)) = true
      /\ NewTables.haplo_sub haplo_col r
         = NewTables.parse_subclade (Py.strip (haplo_col r))
      /\ (forall s, NewTables.haplo_sub haplo_col r = Some s ->
                    NewTables.parent_letter s
                    <> NewTables.haplo_basal haplo_col r)
      /\ forall df,
          In r df ->
          let dfv := NewTables.df_valid haplo_col df in
          In (String c "") (NewTables.basal_letters haplo_col dfv)
          /\ 0 < n_basal haplo_col dfv (group_keys r) (String c ""))
  /\ NewTables.is_valid_haplo " A1" = true
  /\ NewTables.haplo_basal Y_haplogroup (Samples.X500 " A1") = " "
  /\ NewTables.haplo_sub Y_haplogroup (Samples.X500 " A1") = Some "A1"
  /\ NewTables.parent_letter "A1" = "A".
Proof.
  split; [|repeat split].
  intros haplo_col r c x E Hc Hv.
  assert (NewTables.haplo_basal haplo_col r = String c "") as Hb.
  { change (raw_basal haplo_col r = String c "").
    rewrite (raw_basal_cons _ _ _ _ E). now rewrite upper_char_space. }
  split; [exact Hb|]. split; [|split; [|split]].
  - unfold NewTables.is_valid_haplo in *. now rewrite strip_idem.
  - unfold NewTables.haplo_sub. symmetry. apply parse_subclade_strip.
  - intros s Hs. unfold NewTables.haplo_sub in Hs.
    destruct (parse_subclade_letter _ _ Hs) as (d & -> & Hd).
    rewrite Hb. intros [= ->]. congruence.
  - intros df Hr. cbv zeta.
    assert (In r (NewTables.df_valid haplo_col df)) as Hin
        by (apply new_df_valid_iff; now split).
    split.
    + apply basal_letters_In. exists r. split; [exact Hin | exact Hb].
    + apply count_rows_pos. exists r. split; [exact Hin|].
      change (raw_basal haplo_col r) with (NewTables.haplo_basal haplo_col r).
      now rewrite Hb, !eqk_refl.
Qed.

Lemma C10_basal_from_untrimmed_code_witness :
  let r := Samples.X500 " A1" in
  NewTables.haplo_basal Y_haplogroup r = " "
  /\ NewTables.is_valid_haplo (Py.strip (Y_haplogroup r)) = true
  /\ NewTables.haplo_sub Y_haplogroup r
     = NewTables.parse_subclade (Py.strip (Y_haplogroup r))
  /\ (forall s, NewTables.haplo_sub Y_haplogroup r = Some s ->
                NewTables.parent_letter s <> NewTables.haplo_basal Y_haplogroup r)
  /\ forall df,
      In r df ->
      let dfv := NewTables.df_valid Y_haplogroup df in
      In " " (NewTables.basal_letters Y_haplogroup dfv)
      /\ 0 < n_basal Y_haplogroup dfv (group_keys r) " ".
Proof.
  apply (proj1 C10_basal_from_untrimmed_code Y_haplogroup
           (Samples.X500 " A1") " "%char "A1"); reflexivity.
Defined.

(** ** Records without a numeric age *)

(** A valid record is grouped whatever its age: a record without a numeric
    age has a row of its own, with the age label "<NA>-<NA> BP". *)
Lemma undated_record_grouped (haplo_col : Row -> string) (df : list Row) (r : Row) :
  In r df ->
  age_numeric r = None ->
  NewTables.is_valid_haplo (haplo_col r) = true ->
  age_bin_lower r = None
  /\ binned_age r = "<NA>-<NA> BP"
  /\ exists rows ws row,
      NewTables.make_haplo_table haplo_col df = NewTables.Written rows ws
      /\ In row rows
      /\ lookup "Ancient pop name" row
         = Some (Str (Political_Entity r ++ " <NA>-<NA> BP")%string)
      /\ lookup "Country" row = Some (Str (Political_Entity r)).
Proof.
  intros Hr Hage Hv.
  assert (age_bin_lower r = None) as Hbin
      by (unfold age_bin_lower; now rewrite Hage).
  assert (binned_age r = "<NA>-<NA> BP") as Hlabel
      by (unfold binned_age; now rewrite Hbin).
  split; [exact Hbin|]. split; [exact Hlabel|].
  assert (In r (NewTables.df_valid haplo_col df)) as Hin
      by (apply new_df_valid_iff; now split).
  set (dfv := NewTables.df_valid haplo_col df) in *.
  exists (NewTables.output_rows haplo_col dfv), (NewTables.warnings haplo_col dfv),
    (NewTables.output_row haplo_col dfv (group_keys r)).
  split; [|split].
  - apply new_writes. fold dfv. intros E. rewrite E in Hin. exact Hin.
  - unfold NewTables.output_rows. apply in_map, groups_In. now exists r.
  - destruct (output_coord haplo_col dfv (group_keys r)) as (-> & -> & _).
    unfold group_keys, Ancient_pop_name. simpl. now rewrite Hlabel.
Qed.


(** ** Column order *)

Lemma flat_map_of_map {X Y Z} (f : Y -> list Z) (h : X -> Y) (l : list X) :
  flat_map f (map h l) = flat_map (fun x => f (h x)) l.
Proof. induction l as [|x l IH]; simpl; [reflexivity | now rewrite IH]. Qed.

(** C8.  Every written row has the columns 'Ancient pop name', 'Country',
    'Age', 'Lat', 'Long', then one block per basal letter, the letters
    ascending, each letter followed at once by its own subclade columns
    (the observed subclade codes that start with the letter) in ascending
    order, and 'Total' last. *)
Theorem C8_column_order :
  forall haplo_col df rows ws row,
    NewTables.make_haplo_table haplo_col df = NewTables.Written rows ws ->
    In row rows ->
    exists blocks : list (string * list string),
      let dfv := NewTables.df_valid haplo_col df in
      column_names row
      = ["Ancient pop name"; "Country"; "Age"; "Lat"; "Long"]
        ++ flat_map (fun block => fst block :: snd block) blocks
        ++ ["Total"]
      /\ StronglySorted before (map fst blocks)
      /\ (forall b,
             In b (map fst blocks)
             <-> exists r, In r dfv /\ NewTables.haplo_basal haplo_col r = b)
      /\ (forall b subs,
             In (b, subs) blocks ->
             StronglySorted before subs
             /\ forall sc,
                 In sc subs
                 <-> Py.startswith b sc = true
                     /\ exists r, In r dfv
                                  /\ NewTables.haplo_sub haplo_col r = Some sc).
Proof.
  intros haplo_col df rows ws row Hw Hrow.
  destruct (new_written_row _ _ _ _ _ Hw Hrow) as (g & _ & ->).
  set (dfv := NewTables.df_valid haplo_col df).
  exists (map (fun b => (b, filter (Py.startswith b)
                              (NewTables.subclade_cols haplo_col dfv)))
              (NewTables.basal_letters haplo_col dfv)).
  cbv zeta. fold dfv. split; [|split; [|split]].
  - rewrite output_names, final_order_blocks.
    change base_cols with ["Ancient pop name"; "Country"; "Age"; "Lat"; "Long"].
    do 2 f_equal. symmetry. apply flat_map_of_map.
  - rewrite map_map. simpl. rewrite map_id. apply basal_letters_sorted.
  - intros b. rewrite map_map. simpl. rewrite map_id.
    apply basal_letters_In.
  - intros b subs Hin. apply in_map_iff in Hin.
    destruct Hin as (b' & [= -> <-] & Hb). split.
    + apply filter_sorted, subclade_cols_sorted.
    + intros sc. rewrite filter_In, subclade_cols_In. tauto.
Qed.

Lemma C8_column_order_witness :
  exists blocks : list (string * list string),
    let dfv := NewTables.df_valid Y_haplogroup Samples.scenario in
    column_names (NewTables.output_row Y_haplogroup dfv Samples.X_0_1000)
    = ["Ancient pop name"; "Country"; "Age"; "Lat"; "Long"]
      ++ flat_map (fun block => fst block :: snd block) blocks
      ++ ["Total"]
    /\ StronglySorted before (map fst blocks)
    /\ (forall b,
           In b (map fst blocks)
           <-> exists r, In r dfv /\ NewTables.haplo_basal Y_haplogroup r = b)
    /\ (forall b subs,
           In (b, subs) blocks ->
           StronglySorted before subs
           /\ forall sc,
               In sc subs
               <-> Py.startswith b sc = true
                   /\ exists r, In r dfv
                                /\ NewTables.haplo_sub Y_haplogroup r = Some sc).
Proof.
  apply (C8_column_order Y_haplogroup Samples.scenario
           (NewTables.output_rows Y_haplogroup
              (NewTables.df_valid Y_haplogroup Samples.scenario))
           (NewTables.warnings Y_haplogroup
              (NewTables.df_valid Y_haplogroup Samples.scenario))).
  - reflexivity.
  - vm_compute. left. reflexivity.
Defined.

(** ** Cells of absent subclades *)

Lemma filter_none {X} (p : X -> bool) (l : list X) :
  (forall x, In x l -> p x = false) -> filter p l = [].
Proof.
  induction l as [|x l IH]; simpl; intros Hp; [reflexivity|].
  rewrite (Hp x) by now left. apply IH. intros y Hy. apply Hp. now right.
Qed.

Lemma percentage_of_zero (c t : Q) : c == 0 -> NewTables.percentage c t == 0.
Proof.
  intros Hc. unfold NewTables.percentage.
  destruct (Np.gt0 t) eqn:G; [|reflexivity].
  apply gt0_spec in G. rewrite Hc. field.
  intros E. rewrite E in G. now apply Qlt_irrefl in G.
Qed.

Lemma pivot_sub_absent (haplo_col : Row -> string) (dfv : list Row)
      (g : GroupKey) (sc : string) :
  n_sub haplo_col dfv g sc = 0 ->
  value (NewTables.pivot_sub haplo_col dfv) g sc = 0%Q.
Proof.
  intros Hz.
  unfold NewTables.pivot_sub, NewTables.grouped_sub, groupby_size, pivot_table.
  simpl. rewrite filter_none; [reflexivity|].
  intros e He. apply in_map_iff in He. destruct He as (e' & <- & He').
  apply in_map_iff in He'. destruct He' as (k & <- & Hk).
  apply uniq_In, in_map_iff in Hk. destruct Hk as (r & <- & Hr).
  apply sub_valid_In in Hr. destruct Hr as (Hr & Hs). simpl.
  apply not_true_is_false. intros Hm. apply andb_true_iff in Hm.
  destruct Hm as (Hg & Hc). apply eqk_true in Hc.
  assert (0 < n_sub haplo_col dfv g sc) as Hpos; [|lia].
  apply count_rows_pos. exists r. split; [exact Hr|].
  rewrite Hg. simpl. apply has_sub_iff.
  rewrite (any_sub_code haplo_col r Hs). now f_equal.
Qed.

Lemma subclade_percentage_absent (haplo_col : Row -> string) (dfv : list Row)
      (g : GroupKey) (sc : string) :
  n_sub haplo_col dfv g sc = 0 ->
  NewTables.subclade_percentage haplo_col dfv g sc == 0.
Proof.
  intros Hz. unfold NewTables.subclade_percentage.
  destruct (NewTables.has_parent haplo_col dfv sc); [|reflexivity].
  apply percentage_of_zero. unfold NewTables.merged_sub.
  destruct (mem g (index (NewTables.pivot_sub haplo_col dfv)));
    cbn [Np.fillna]; [|reflexivity].
  now rewrite pivot_sub_absent.
Qed.

Lemma percent_text_not_blank (x : string) : (x ++ "%")%string <> "".
Proof. destruct x; discriminate. Qed.

(** C9, as stated, fails at [Samples.two_groups]: group Y has basal data and
    no record of subclade A1, and its A1 cell reads "0.00%". *)
Lemma C9_absent_subclade_not_blank :
  ~ absent_subclade_blank Y_haplogroup Samples.two_groups.
Proof.
  intros Hc.
  destruct (Hc (NewTables.output_rows Y_haplogroup
                  (NewTables.df_valid Y_haplogroup Samples.two_groups))
               (NewTables.warnings Y_haplogroup
                  (NewTables.df_valid Y_haplogroup Samples.two_groups))
               (NewTables.output_row Y_haplogroup
                  (NewTables.df_valid Y_haplogroup Samples.two_groups)
                  Samples.Y_0_1000)
               eq_refl)
    as (g & Hg & Hn & Hblank).
  - vm_compute. right. left. reflexivity.
  - assert (g = Samples.Y_0_1000) as ->.
    { vm_compute in Hg. destruct Hg as [<-|[<-|[]]];
        [vm_compute in Hn; discriminate Hn | reflexivity]. }
    specialize (Hblank "A1").
    assert (lookup "A1"
              (NewTables.output_row Y_haplogroup
                 (NewTables.df_valid Y_haplogroup Samples.two_groups)
                 Samples.Y_0_1000) = Some (Str "0.00%")) as Hcell
        by (vm_compute; reflexivity).
    rewrite Hcell in Hblank. discriminate Hblank.
    + vm_compute. tauto.
    + vm_compute. left. reflexivity.
    + reflexivity.
Qed.

(** C9, amended.  Every haplogroup cell of a written row is a two-decimal
    number followed by '%', never blank: missing subclade counts are filled
    with 0 before the frequency is computed, so the cell of a subclade with
    no record in the row's group reads "0.00%". *)
Theorem C9_cells_amended :
  forall haplo_col df rows ws row,
    NewTables.make_haplo_table haplo_col df = NewTables.Written rows ws ->
    In row rows ->
    exists g,
      let dfv := NewTables.df_valid haplo_col df in
      In g (map group_keys dfv)
      /\ lookup "Ancient pop name" row = Some (Str (fst (fst g)))
      /\ lookup "Country" row = Some (Str (snd (fst g)))
      /\ (forall c,
             In c (column_names row) ->
             ~ In c ["Ancient pop name"; "Country"; "Age"; "Lat"; "Long"; "Total"] ->
             (exists p, lookup c row = Some (Str (Np.fmt2 p ++ "%")%string))
             /\ lookup c row <> Some (Str ""))
      /\ (forall sc,
             In sc (column_names row) ->
             In sc (NewTables.subclade_cols haplo_col dfv) ->
             n_sub haplo_col dfv g sc = 0 ->
             lookup sc row = Some (Str "0.00%")).
Proof.
  intros haplo_col df rows ws row Hw Hrow.
  destruct (new_written_row _ _ _ _ _ Hw Hrow) as (g & Hg & ->).
  exists g. cbv zeta.
  set (dfv := NewTables.df_valid haplo_col df) in *.
  destruct (output_coord haplo_col dfv g) as (Hn & Hco & _).
  split; [exact Hg|]. split; [exact Hn|]. split; [exact Hco|].
  assert (forall c,
             In c (NewTables.final_order_of_haplos haplo_col dfv) ->
             c <> "Total" ->
             exists p,
               lookup c (NewTables.output_row haplo_col dfv g)
               = Some (Str (Np.fmt2 p ++ "%")%string)) as Hcell.
  { intros c Hc Hnt. pose proof Hc as Hc'. apply final_order_In in Hc'.
    destruct Hc' as [Hb|[Hs| ->]]; [| |contradiction].
    - eexists. now apply output_basal.
    - eexists. now apply output_sub. }
  split.
  - intros c Hc Hmeta. rewrite output_names in Hc.
    apply in_app_iff in Hc. destruct Hc as [Hc|Hc].
    + exfalso. apply Hmeta. simpl in *. tauto.
    + destruct (Hcell c Hc) as (p & Hp).
      * intros ->. apply Hmeta. simpl. tauto.
      * split; [now exists p|]. rewrite Hp. intros [= E].
        now apply percent_text_not_blank in E.
  - intros sc Hc Hs Hz. rewrite output_names in Hc.
    apply in_app_iff in Hc. destruct Hc as [Hc|Hc].
    + exfalso. apply subclade_cols_length in Hs. simpl in Hc.
      destruct Hc as [<-|[<-|[<-|[<-|[<-|[]]]]]]; simpl in Hs; lia.
    + rewrite output_sub by assumption.
      now rewrite (fmt2_zero _ (subclade_percentage_absent _ _ _ _ Hz)).
Qed.

Lemma C9_cells_amended_witness :
  exists g,
    let dfv := NewTables.df_valid Y_haplogroup Samples.two_groups in
    let row := NewTables.output_row Y_haplogroup dfv Samples.Y_0_1000 in
    In g (map group_keys dfv)
    /\ lookup "Ancient pop name" row = Some (Str (fst (fst g)))
    /\ lookup "Country" row = Some (Str (snd (fst g)))
    /\ (forall c,
           In c (column_names row) ->
           ~ In c ["Ancient pop name"; "Country"; "Age"; "Lat"; "Long"; "Total"] ->
           (exists p, lookup c row = Some (Str (Np.fmt2 p ++ "%")%string))
           /\ lookup c row <> Some (Str ""))
    /\ (forall sc,
           In sc (column_names row) ->
           In sc (NewTables.subclade_cols Y_haplogroup dfv) ->
           n_sub Y_haplogroup dfv g sc = 0 ->
           lookup sc row = Some (Str "0.00%")).
Proof.
  apply (C9_cells_amended Y_haplogroup Samples.two_groups
           (NewTables.output_rows Y_haplogroup
              (NewTables.df_valid Y_haplogroup Samples.two_groups))
           (NewTables.warnings Y_haplogroup
              (NewTables.df_valid Y_haplogroup Samples.two_groups))).
  - reflexivity.
  - vm_compute. right. left. reflexivity.
Defined.

(* ================================================================== *)
(** * Further properties of the table builders *)

(** ** Age bins *)



(** ** Which outcome [make_haplo_table] has *)

Lemma filter_nil_iff {X} (p : X -> bool) (l : list X) :
  filter p l = [] <-> forall x, In x l -> p x = false.
Proof.
  split.
  - intros E x Hx. destruct (p x) eqn:Px; [|reflexivity].
    assert (In x (filter p l)) as Hin by (apply filter_In; now split).
    rewrite E in Hin. destruct Hin.
  - apply filter_none.
Qed.

(** X2.  The subclade-aware builder raises its first error exactly when
    every code is a placeholder token after trimming, its second error
    exactly when some code is no placeholder but none has the basal or
    subclade shape, and writes a table, with at least one row, exactly when
    some code has that shape. *)
Theorem X2_make_haplo_table_outcome :
  forall (haplo_col : Row -> string) (df : list Row),
    (NewTables.make_haplo_table haplo_col df
     = NewTables.Raised NewTables.No_valid_entries
     <-> forall r, In r df ->
                   Py.isin (Py.strip (haplo_col r)) NewTables.invalid_patterns
                   = true)
    /\ (NewTables.make_haplo_table haplo_col df
        = NewTables.Raised NewTables.No_matching_pattern
        <-> (exists r, In r df
                       /\ Py.isin (Py.strip (haplo_col r))
                            NewTables.invalid_patterns = false)
            /\ forall r, In r df ->
                         NewTables.is_valid_haplo (haplo_col r) = false)
    /\ ((exists rows ws,
            NewTables.make_haplo_table haplo_col df = NewTables.Written rows ws)
        <-> exists r, In r df /\ NewTables.is_valid_haplo (haplo_col r) = true)
    /\ (forall rows ws,
           NewTables.make_haplo_table haplo_col df = NewTables.Written rows ws ->
           rows <> []).
Proof.
  intros haplo_col df.
  assert (NewTables.filter_patterns haplo_col df = []
          <-> forall r, In r df ->
                        Py.isin (Py.strip (haplo_col r)) NewTables.invalid_patterns
                        = true) as Hpat.
  { unfold NewTables.filter_patterns. rewrite filter_nil_iff.
    split; intros Hall r Hr; specialize (Hall r Hr).
    - now apply negb_false_iff in Hall.
    - now rewrite Hall. }
  assert (NewTables.df_valid haplo_col df = []
          <-> forall r, In r df ->
                        NewTables.is_valid_haplo (haplo_col r) = false) as Hval.
  { rewrite new_df_valid_filter. apply filter_nil_iff. }
  assert (forall r, In r df ->
                    NewTables.is_valid_haplo (haplo_col r) = true ->
                    NewTables.df_valid haplo_col df <> []) as Hne.
  { intros r Hr Hv E. rewrite (proj1 Hval E r Hr) in Hv. discriminate. }
  split; [|split; [|split]].
  - rewrite <- Hpat. unfold NewTables.make_haplo_table.
    destruct (NewTables.filter_patterns haplo_col df) eqn:E; [easy|].
    destruct (NewTables.df_valid haplo_col df); easy.
  - unfold NewTables.make_haplo_table.
    destruct (NewTables.filter_patterns haplo_col df) as [|r0 rest] eqn:E.
    + split; [discriminate|]. intros ((r & Hr & Hp) & _).
      rewrite (proj1 Hpat eq_refl r Hr) in Hp. discriminate.
    + assert (exists r, In r df
                        /\ Py.isin (Py.strip (haplo_col r))
                             NewTables.invalid_patterns = false) as Hex.
      { exists r0. assert (In r0 (NewTables.filter_patterns haplo_col df)) as Hin
            by (rewrite E; now left).
        unfold NewTables.filter_patterns in Hin. apply filter_In in Hin.
        destruct Hin as (Hin & Hp). now apply negb_true_iff in Hp. }
      destruct (NewTables.df_valid haplo_col df) eqn:Ev.
      * split; [intros _; split; [exact Hex | now apply Hval] | reflexivity].
      * split; [discriminate|]. intros (_ & Hall).
        apply Hval in Hall. discriminate.
  - split.
    + intros (rows & ws & Hw). apply new_written in Hw. destruct Hw as (Hv & _).
      destruct (NewTables.df_valid haplo_col df) as [|r l] eqn:E; [contradiction|].
      exists r. apply new_df_valid_iff. rewrite E. now left.
    + intros (r & Hr & Hv). eexists. eexists.
      apply new_writes. now apply (Hne r).
  - intros rows ws Hw. apply new_written in Hw. destruct Hw as (Hv & -> & _).
    unfold NewTables.output_rows. intros E. apply map_eq_nil in E.
    destruct (NewTables.df_valid haplo_col df) as [|r l] eqn:Ev; [contradiction|].
    assert (In (group_keys r)
               (index (NewTables.pivot_basal_counts haplo_col (r :: l)))) as Hin
        by (apply groups_In; exists r; split; [now left | reflexivity]).
    rewrite E in Hin. destruct Hin.
Qed.

Lemma X2_make_haplo_table_outcome_witness :
  NewTables.make_haplo_table Y_haplogroup [Samples.X500 ".."; Samples.X500 " n/a "]
  = NewTables.Raised NewTables.No_valid_entries
  /\ NewTables.make_haplo_table Y_haplogroup [Samples.X500 ".."; Samples.X500 "HV"]
     = NewTables.Raised NewTables.No_matching_pattern
  /\ exists rows ws,
      NewTables.make_haplo_table Y_haplogroup [Samples.X500 ".."; Samples.X500 "H"]
      = NewTables.Written rows ws.
Proof.
  split; [|split].
  - apply (proj1 (X2_make_haplo_table_outcome Y_haplogroup _)).
    intros r [<-|[<-|[]]]; reflexivity.
  - apply (proj1 (proj2 (X2_make_haplo_table_outcome Y_haplogroup _))).
    split.
    + exists (Samples.X500 "HV"). split; [right; now left | reflexivity].
    + intros r [<-|[<-|[]]]; reflexivity.
  - apply (proj1 (proj2 (proj2 (X2_make_haplo_table_outcome Y_haplogroup _)))).
    exists (Samples.X500 "H"). split; [right; now left | reflexivity].
Defined.

(** ** When [main] writes a table *)





(** ** Basal percentages of a row *)


Lemma Forall2_map_r {X Y} (P : X -> Y -> Prop) (f : X -> Y) (l : list X) :
  (forall x, In x l -> P x (f x)) -> Forall2 P l (map f l).
Proof.
  induction l as [|x l IH]; simpl; intros H; constructor.
  - apply H. now left.
  - apply IH. intros y Hy. apply H. now right.
Qed.




(** ** One row per group *)

(** X5.  The subclade-aware builder writes exactly one row per group of
    valid records, in ascending order of the group keys (population name,
    region, age label): no group is written twice and none is left out. *)
Theorem X5_one_row_per_group :
  forall haplo_col df rows ws,
    NewTables.make_haplo_table haplo_col df = NewTables.Written rows ws ->
    exists keys : list GroupKey,
      StronglySorted before keys
      /\ NoDup keys
      /\ (forall g, In g keys
                    <-> exists r, In r (NewTables.df_valid haplo_col df)
                                  /\ group_keys r = g)
      /\ Forall2 (fun g row =>
                    lookup "Ancient pop name" row = Some (Str (fst (fst g)))
                    /\ lookup "Country" row = Some (Str (snd (fst g))))
                 keys rows.
Proof.
  intros haplo_col df rows ws Hw.
  apply new_written in Hw. destruct Hw as (_ & -> & _).
  set (dfv := NewTables.df_valid haplo_col df).
  exists (index (NewTables.pivot_basal_counts haplo_col dfv)).
  assert (StronglySorted before (index (NewTables.pivot_basal_counts haplo_col dfv)))
    as Hs by apply uniq_sorted.
  split; [exact Hs|]. split; [now apply ascending_NoDup|].
  split; [intros g; apply groups_In|].
  unfold NewTables.output_rows. apply Forall2_map_r. intros g _.
  destruct (output_coord haplo_col dfv g) as (Hn & Hc & _). now split.
Qed.

Lemma X5_one_row_per_group_witness :
  exists keys : list GroupKey,
    StronglySorted before keys
    /\ NoDup keys
    /\ (forall g, In g keys
                  <-> exists r,
                      In r (NewTables.df_valid Y_haplogroup Samples.two_groups)
                      /\ group_keys r = g)
    /\ Forall2 (fun g row =>
                  lookup "Ancient pop name" row = Some (Str (fst (fst g)))
                  /\ lookup "Country" row = Some (Str (snd (fst g))))
               keys
               (NewTables.output_rows Y_haplogroup
                  (NewTables.df_valid Y_haplogroup Samples.two_groups)).
Proof.
  apply (X5_one_row_per_group Y_haplogroup Samples.two_groups _
           (NewTables.warnings Y_haplogroup
              (NewTables.df_valid Y_haplogroup Samples.two_groups))).
  reflexivity.
Defined.

(** ** The totals of a table *)

Lemma n_group_partition (dfv : list Row) (keys : list GroupKey) :
  NoDup keys ->
  (forall r, In r dfv -> In (group_keys r) keys) ->
  sumZ (map (n_group dfv) keys) = Z.of_nat (List.length dfv).
Proof.
  intros Hnd Hall.
  pose proof (count_partition group_keys (fun _ => true) dfv keys Hnd
                (fun r Hr _ => Hall r Hr)) as Hp.
  unfold n_group. cbn [andb] in Hp. rewrite Hp.
  unfold count_rows. do 2 f_equal. apply filter_all. reflexivity.
Qed.

Lemma n_group_sub_partition (haplo_col : Row -> string) (dfv : list Row)
      (keys : list GroupKey) :
  NoDup keys ->
  (forall r, In r dfv -> In (group_keys r) keys) ->
  sumZ (map (n_group_sub haplo_col dfv) keys)
  = count_rows (any_sub haplo_col) dfv.
Proof.
  intros Hnd Hall.
  rewrite <- (count_partition group_keys (any_sub haplo_col) dfv keys Hnd
                (fun r Hr _ => Hall r Hr)).
  f_equal. apply map_ext. intros g. unfold n_group_sub.
  apply count_rows_ext. intros r _. apply andb_comm.
Qed.

Lemma sumZ_plus {X} (f h : X -> Z) (l : list X) :
  sumZ (map (fun x => f x + h x) l) = sumZ (map f l) + sumZ (map h l).
Proof. induction l; simpl; lia. Qed.

(** X6.  The totals of a table account for every counted record.  In the
    basal-only script the [Total] cells add up to the number of records that
    pass the filter.  In the subclade-aware script (codes stored without
    leading whitespace) they add up to the number of valid records plus the
    number of valid records that carry a subclade. *)
Theorem X6_totals_add_up :
  (forall haplo_col df rows,
      OldTables.make_haplo_table haplo_col df = OldTables.Written rows ->
      exists totals : list Z,
        Forall2 (fun row t => lookup "Total" row = Some (Int t)) rows totals
        /\ sumZ totals
           = Z.of_nat (List.length (OldTables.df_valid haplo_col df)))
  /\ (forall haplo_col df rows ws,
         (forall r, In r df -> no_leading_space (haplo_col r)) ->
         NewTables.make_haplo_table haplo_col df = NewTables.Written rows ws ->
         exists totals : list Z,
           Forall2 (fun row t => lookup "Total" row = Some (Int t)) rows totals
           /\ sumZ totals
              = Z.of_nat (List.length (NewTables.df_valid haplo_col df))
                + count_rows (any_sub haplo_col)
                             (NewTables.df_valid haplo_col df)).
Proof.
  assert (forall {X Y Z'} (P : Y -> Z' -> Prop) (f : X -> Y) (h : X -> Z')
                 (l : list X),
             (forall x, P (f x) (h x)) -> Forall2 P (map f l) (map h l)) as Hmap2.
  { intros X Y Z' P f h l H. induction l; simpl; constructor; auto. }
  split.
  - intros haplo_col df rows Hw. unfold OldTables.make_haplo_table in Hw.
    destruct (OldTables.computed_age haplo_col df) as [year|]; [|discriminate].
    injection Hw as <-.
    set (dfv := OldTables.df_valid haplo_col df).
    exists (map (n_group dfv) (index (OldTables.pivot_df haplo_col df))).
    split.
    + apply Hmap2. intros g. rewrite old_output_total. do 2 f_equal.
      apply trunc_inject, old_Total_n.
    + apply n_group_partition.
      * apply ascending_NoDup, uniq_sorted.
      * intros r Hr. apply (old_groups_In haplo_col df). now exists r.
  - intros haplo_col df rows ws Hclean Hw.
    apply new_written in Hw. destruct Hw as (_ & -> & _).
    set (dfv := NewTables.df_valid haplo_col df).
    pose proof (df_valid_clean _ _ Hclean) as Hc. fold dfv in Hc.
    exists (map (fun g => n_group dfv g + n_group_sub haplo_col dfv g)
                (index (NewTables.pivot_basal_counts haplo_col dfv))).
    split.
    + apply Hmap2. intros g. rewrite output_total. do 2 f_equal.
      apply trunc_inject. now apply Total_n.
    + rewrite sumZ_plus. f_equal.
      * apply n_group_partition.
        -- apply ascending_NoDup, uniq_sorted.
        -- intros r Hr. apply (groups_In haplo_col dfv). now exists r.
      * apply n_group_sub_partition.
        -- apply ascending_NoDup, uniq_sorted.
        -- intros r Hr. apply (groups_In haplo_col dfv). now exists r.
Qed.

Lemma X6_totals_add_up_witness :
  (exists totals : list Z,
      Forall2 (fun row t => lookup "Total" row = Some (Int t))
              [OldTables.output_row Y_haplogroup Samples.two_groups
                 (fun _ => 1450) Samples.X_0_1000;
               OldTables.output_row Y_haplogroup Samples.two_groups
                 (fun _ => 1450) Samples.Y_0_1000]
              totals
      /\ sumZ totals
         = Z.of_nat (List.length (OldTables.df_valid Y_haplogroup
                                    Samples.two_groups)))
  /\ exists totals : list Z,
      Forall2 (fun row t => lookup "Total" row = Some (Int t))
              (NewTables.output_rows Y_haplogroup
                 (NewTables.df_valid Y_haplogroup Samples.two_groups))
              totals
      /\ sumZ totals
         = Z.of_nat (List.length (NewTables.df_valid Y_haplogroup
                                    Samples.two_groups))
           + count_rows (any_sub Y_haplogroup)
                        (NewTables.df_valid Y_haplogroup Samples.two_groups).
Proof.
  split.
  - apply (proj1 X6_totals_add_up Y_haplogroup Samples.two_groups).
    vm_compute. reflexivity.
  - apply (proj2 X6_totals_add_up Y_haplogroup Samples.two_groups _
             (NewTables.warnings Y_haplogroup
                (NewTables.df_valid Y_haplogroup Samples.two_groups))).
    + intros r Hr c s E. vm_compute in Hr.
      destruct Hr as [<-|[<-|[]]]; vm_compute in E;
        injection E as <- _; reflexivity.
    + reflexivity.
Defined.

(** ** The classifier: case, surrounding whitespace, and what it reads *)

Lemma isspace_upper (c : ascii) : Py.isspace (Py.upper_char c) = Py.isspace c.
Proof. destruct c as [[] [] [] [] [] [] [] []]; reflexivity. Qed.

Lemma isdigit_upper (c : ascii) : Py.isdigit (Py.upper_char c) = Py.isdigit c.
Proof. destruct c as [[] [] [] [] [] [] [] []]; reflexivity. Qed.

Lemma isdigit_not_space (c : ascii) : Py.isdigit c = true -> Py.isspace c = false.
Proof. destruct c as [[] [] [] [] [] [] [] []]; simpl; easy. Qed.

Lemma lstrip_upper (x : string) : Py.lstrip (Py.upper x) = Py.upper (Py.lstrip x).
Proof.
  induction x as [|c x IH]; [reflexivity|].
  cbn [Py.upper Py.lstrip]. rewrite isspace_upper.
  destruct (Py.isspace c); [exact IH | reflexivity].
Qed.

Lemma rstrip_upper (x : string) : Py.rstrip (Py.upper x) = Py.upper (Py.rstrip x).
Proof.
  induction x as [|c x IH]; [reflexivity|].
  cbn [Py.upper Py.rstrip]. rewrite IH, isspace_upper.
  destruct (Py.rstrip x); cbn [Py.upper]; [|reflexivity].
  now destruct (Py.isspace c).
Qed.

Lemma strip_upper (x : string) : Py.strip (Py.upper x) = Py.upper (Py.strip x).
Proof. unfold Py.strip. now rewrite lstrip_upper, rstrip_upper. Qed.

Lemma upper_idem (x : string) : Py.upper (Py.upper x) = Py.upper x.
Proof.
  induction x as [|c x IH]; [reflexivity|].
  cbn [Py.upper]. now rewrite upper_char_idem, IH.
Qed.

Lemma item_upper (x : string) (i : nat) :
  Py.item (Py.upper x) i = option_map Py.upper_char (Py.item x i).
Proof.
  unfold Py.item. revert i.
  induction x as [|c x IH]; intros i; [reflexivity|].
  destruct i; [reflexivity|]. cbn [Py.upper String.get]. apply IH.
Qed.

Lemma slice_to_upper (n : nat) (x : string) :
  Py.slice_to n (Py.upper x) = Py.upper (Py.slice_to n x).
Proof.
  revert x. induction n as [|n IH]; intros x.
  - now rewrite !slice_to_0.
  - destruct x as [|c x]; [reflexivity|].
    cbn [Py.upper]. rewrite !slice_to_cons. cbn [Py.upper]. now rewrite IH.
Qed.

Lemma strip_pair (d e : ascii) :
  Py.isspace d = false -> Py.isspace e = false ->
  Py.strip (String d (String e "")) = String d (String e "").
Proof.
  intros Hd He. rewrite strip_cons by exact Hd.
  now rewrite rstrip_cons by exact He.
Qed.

(** X7.  The classification of a code does not depend on the case of its
    letters, and its subclade is read from the first two characters of the
    trimmed code only ("A12" and "a1b" are both "A1").  A subclade code is a
    fixed point: it is upper-case, two characters long, a valid code, and
    its own subclade. *)
Theorem X7_classifier_normal_form :
  (forall x,
      NewTables.is_valid_haplo (Py.upper x) = NewTables.is_valid_haplo x
      /\ NewTables.parse_subclade (Py.upper x) = NewTables.parse_subclade x
      /\ Py.upper (Py.slice_to 1 (Py.upper x)) = Py.upper (Py.slice_to 1 x))
  /\ (forall x,
         NewTables.parse_subclade (Py.slice_to 2 (Py.strip x))
         = NewTables.parse_subclade x)
  /\ (forall x s,
         NewTables.parse_subclade x = Some s ->
         Py.upper s = s
         /\ String.length s = 2%nat
         /\ NewTables.is_valid_haplo s = true
         /\ NewTables.parse_subclade s = Some s).
Proof.
  split; [|split].
  - intros x. split; [|split].
    + unfold NewTables.is_valid_haplo, Py.len.
      rewrite strip_upper, upper_length, item_upper.
      destruct (Py.item (Py.strip x) 1); cbn [option_map];
        [now rewrite isdigit_upper | reflexivity].
    + unfold NewTables.parse_subclade, Py.len.
      rewrite strip_upper, upper_length, item_upper.
      destruct (String.length (Py.strip x) <? 2)%nat; [reflexivity|].
      destruct (Py.item (Py.strip x) 1); cbn [option_map]; [|reflexivity].
      rewrite isdigit_upper. destruct (Py.isdigit a); [|reflexivity].
      now rewrite slice_to_upper, upper_idem.
    + now rewrite slice_to_upper, upper_idem.
  - intros x. unfold NewTables.parse_subclade at 2.
    destruct (strip_head x) as [E|(d & t & E & Hd)]; rewrite E; [reflexivity|].
    destruct t as [|e t].
    + unfold NewTables.parse_subclade. rewrite slice_to_cons.
      rewrite strip_cons by exact Hd. reflexivity.
    + rewrite !slice_to_cons, slice_to_0. unfold NewTables.parse_subclade.
      destruct (Py.isspace e) eqn:He.
      * assert (Py.isdigit e = false) as Hn.
        { destruct (Py.isdigit e) eqn:Hdg; [|reflexivity].
          apply isdigit_not_space in Hdg. congruence. }
        rewrite strip_cons by exact Hd. cbn [Py.rstrip]. rewrite He.
        cbn. rewrite Hn. reflexivity.
      * rewrite strip_pair by assumption. cbn.
        destruct (Py.isdigit e); reflexivity.
  - intros x s Hs. pose proof (parse_subclade_length _ _ Hs) as Hl.
    unfold NewTables.parse_subclade in Hs.
    destruct (strip_head x) as [E|(d & t & E & Hd)]; rewrite E in Hs;
      [discriminate|].
    destruct t as [|e t]; [discriminate|].
    cbn in Hs. destruct (Py.isdigit e) eqn:He; [|discriminate].
    injection Hs as <-.
    assert (Py.strip (String (Py.upper_char d) (String (Py.upper_char e) ""))
            = String (Py.upper_char d) (String (Py.upper_char e) "")) as Hst.
    { apply strip_pair.
      - now rewrite isspace_upper.
      - rewrite isspace_upper. now apply isdigit_not_space. }
    rewrite slice_to_0. cbn [Py.upper].
    split; [now rewrite !upper_char_idem|]. split; [reflexivity|].
    unfold NewTables.is_valid_haplo, NewTables.parse_subclade.
    rewrite Hst. cbn. rewrite isdigit_upper, He, !upper_char_idem.
    split; reflexivity.
Qed.

Lemma X7_classifier_normal_form_witness :
  Py.upper "A1" = "A1"
  /\ String.length "A1" = 2%nat
  /\ NewTables.is_valid_haplo "A1" = true
  /\ NewTables.parse_subclade "A1" = Some "A1".
Proof.
  apply (proj2 (proj2 X7_classifier_normal_form) " a12b " "A1").
  reflexivity.
Defined.

(** ** Subclade columns without a basal column *)

Lemma parse_subclade_shape (x s : string) :
  NewTables.parse_subclade x = Some s ->
  exists d e,
    s = String d (String e "")
    /\ Py.upper_char d = d
    /\ Py.isspace d = false.
Proof.
  intros Hs. unfold NewTables.parse_subclade in Hs.
  destruct (strip_head x) as [E|(d & t & E & Hd)]; rewrite E in Hs;
    [discriminate|].
  destruct t as [|e t]; [discriminate|].
  cbn in Hs. destruct (Py.isdigit e); [|discriminate].
  injection Hs as <-. rewrite slice_to_0. cbn [Py.upper].
  exists (Py.upper_char d), (Py.upper_char e).
  split; [reflexivity|]. split; [apply upper_char_idem|].
  now apply upper_char_not_space.
Qed.

Section Orphans.
Variable haplo_col : Row -> string.
Variable dfv : list Row.
Hypothesis nonempty : forall r, In r dfv -> haplo_col r <> "".

Let letters := NewTables.basal_letters haplo_col dfv.
Let subcols := NewTables.subclade_cols haplo_col dfv.

Lemma has_parent_block (sc : string) :
In sc subcols ->
NewTables.has_parent haplo_col dfv sc = true
<-> exists b, In b letters /\ Py.startswith b sc = true.
Proof.
intros Hsc. apply subclade_cols_In in Hsc. destruct Hsc as (r & _ & Hp).
destruct (parse_subclade_shape _ _ Hp) as (d & e & -> & Hd & _).
unfold NewTables.has_parent. rewrite isin_In.
assert (NewTables.parent_letter (String d (String e "")) = String d "") as Ep.
{ unfold NewTables.parent_letter. rewrite slice_to_cons, slice_to_0.
  cbn [Py.upper]. now rewrite Hd. }
rewrite Ep. split.
- intros Hin. exists (String d ""). split; [exact Hin|].
  apply startswith_letter. now rewrite slice_to_cons, slice_to_0.
- intros (b & Hb & Hst).
  destruct (letter_shape haplo_col dfv nonempty b Hb) as (c & ->).
  apply startswith_letter in Hst. rewrite slice_to_cons, slice_to_0 in Hst.
  rewrite Hst. exact Hb.
Qed.

Lemma subclade_column_written (g : GroupKey) (sc : string) :
In sc subcols ->
In sc (column_names (NewTables.output_row haplo_col dfv g))
<-> NewTables.has_parent haplo_col dfv sc = true.
Proof.
intros Hsc. pose proof (subclade_cols_length haplo_col dfv sc Hsc) as Hl.
rewrite (has_parent_block sc Hsc).
rewrite output_names, final_order_blocks. rewrite !in_app_iff, in_flat_map.
split.
- intros [Hb|[(b & Hb & [E|Hin])|[E|[]]]].
  + unfold base_cols in Hb. cbn [In] in Hb.
    destruct Hb as [E|[E|[E|[E|[E|[]]]]]]; subst sc; discriminate.
  + subst sc. apply basal_letters_length in Hb. lia.
  + apply filter_In in Hin. exists b. split; [exact Hb | apply Hin].
  + subst sc. discriminate.
- intros (b & Hb & Hst). right. left. exists b. split; [exact Hb|].
  right. apply filter_In. now split.
Qed.

Lemma subclade_error_In (sc : string) :
In (NewTables.Subclade_error sc) (NewTables.warnings haplo_col dfv)
<-> In sc subcols /\ NewTables.has_parent haplo_col dfv sc = false.
Proof.
unfold NewTables.warnings, NewTables.subclade_warnings.
rewrite !in_app_iff, in_map_iff. split.
- intros [H|[H|[(s & E & Hin)|H]]].
  + unfold NewTables.zero_total_warning in H.
    destruct (existsb _ _); [destruct H as [H|[]]; discriminate | destruct H].
  + destruct (NewTables.sub_valid haplo_col dfv);
      [destruct H as [H|[]]; discriminate | destruct H].
  + injection E as ->. apply filter_In in Hin. destruct Hin as (Hin & Hn).
    split; [exact Hin | now apply negb_true_iff].
  + destruct (NewTables.computed_age haplo_col dfv);
      [destruct H | destruct H as [H|[]]; discriminate].
- intros (Hin & Hn). right. right. left. exists sc. split; [reflexivity|].
  apply filter_In. split; [exact Hin | now apply negb_true_iff].
Qed.
End Orphans.

(** X8.  The subclade-aware builder reports "Error processing subclade" for
    exactly the observed subclade codes whose first letter is the basal
    letter of no valid record; such a subclade gets no column in the written
    table, every other observed subclade gets one.  This happens only with
    codes stored with leading whitespace. *)
Theorem X8_subclade_without_basal_column :
  forall (haplo_col : Row -> string) (df : list Row)
         (rows : list FrameRow) (ws : list NewTables.Warning),
    NewTables.make_haplo_table haplo_col df = NewTables.Written rows ws ->
    let dfv := NewTables.df_valid haplo_col df in
    let observed sc :=
      exists r, In r dfv /\ NewTables.haplo_sub haplo_col r = Some sc in
    (forall sc,
        In (NewTables.Subclade_error sc) ws
        <-> observed sc
            /\ ~ exists r, In r dfv
                           /\ NewTables.haplo_basal haplo_col r
                              = NewTables.parent_letter sc)
    /\ (forall sc row,
           In row rows -> observed sc ->
           In sc (column_names row) <-> ~ In (NewTables.Subclade_error sc) ws)
    /\ ((forall r, In r df -> no_leading_space (haplo_col r)) ->
        forall sc, ~ In (NewTables.Subclade_error sc) ws).
Proof.
  intros haplo_col df rows ws Hw dfv observed.
  pose proof (new_written _ _ _ _ Hw) as (_ & Hrows & Hws).
  assert (forall r, In r dfv -> haplo_col r <> "") as Hne
      by (intros r; apply df_valid_nonempty).
  assert (forall sc, observed sc
                     <-> In sc (NewTables.subclade_cols haplo_col dfv)) as Hobs
      by (intros sc; symmetry; apply subclade_cols_In).
  assert (forall sc,
             NewTables.has_parent haplo_col dfv sc = true
             <-> exists r, In r dfv
                           /\ NewTables.haplo_basal haplo_col r
                              = NewTables.parent_letter sc) as Hpar.
  { intros sc. unfold NewTables.has_parent. rewrite isin_In.
    rewrite basal_letters_In. reflexivity. }
  assert (forall sc,
             In (NewTables.Subclade_error sc) ws
             <-> observed sc /\ NewTables.has_parent haplo_col dfv sc = false)
    as Herr.
  { intros sc. rewrite Hws, Hobs. apply subclade_error_In. }
  split; [|split].
  - intros sc. rewrite Herr, <- Hpar.
    destruct (NewTables.has_parent haplo_col dfv sc); intuition congruence.
  - intros sc row Hrow Ho. rewrite Herr.
    destruct (new_written_row _ _ _ _ _ Hw Hrow) as (g & _ & ->).
    fold dfv.
    rewrite (subclade_column_written haplo_col dfv Hne g sc)
      by now apply Hobs.
    destruct (NewTables.has_parent haplo_col dfv sc); intuition congruence.
  - intros Hclean sc Herr'. apply Herr in Herr'. destruct Herr' as (Ho & Hn).
    apply Hobs in Ho.
    pose proof (subclade_parent_In haplo_col dfv
                  (df_valid_clean haplo_col df Hclean) sc Ho) as Hin.
    unfold NewTables.has_parent in Hn. apply isin_false in Hn. now apply Hn.
Qed.

Lemma X8_subclade_without_basal_column_witness :
  let df := [Samples.X500 " A1"; Samples.X500 "B2"] in
  let dfv := NewTables.df_valid Y_haplogroup df in
  let observed sc :=
    exists r, In r dfv /\ NewTables.haplo_sub Y_haplogroup r = Some sc in
  let rows := NewTables.output_rows Y_haplogroup dfv in
  let ws := NewTables.warnings Y_haplogroup dfv in
  (forall sc,
      In (NewTables.Subclade_error sc) ws
      <-> observed sc
          /\ ~ exists r, In r dfv
                         /\ NewTables.haplo_basal Y_haplogroup r
                            = NewTables.parent_letter sc)
  /\ (forall sc row,
         In row rows -> observed sc ->
         In sc (column_names row) <-> ~ In (NewTables.Subclade_error sc) ws)
  /\ ((forall r, In r df -> no_leading_space (Y_haplogroup r)) ->
      forall sc, ~ In (NewTables.Subclade_error sc) ws).
Proof.
  intros df dfv observed rows ws.
  apply (X8_subclade_without_basal_column Y_haplogroup df rows ws).
  reflexivity.
Defined.

(** ** The warnings *)

Lemma flat_map_singleton {X} (l : list X) : flat_map (fun x => [x]) l = l.
Proof. induction l as [|x l IH]; [reflexivity|]. simpl. now rewrite IH. Qed.

Lemma nil_no_member {X} (l : list X) : (forall x, ~ In x l) -> l = [].
Proof.
  destruct l as [|x l]; [reflexivity|]. intros H. destruct (H x). now left.
Qed.

Section NoSubclades.
Variable haplo_col : Row -> string.
Variable dfv : list Row.

Lemma zero_total_never :
~ In NewTables.Zero_total (NewTables.warnings haplo_col dfv).
Proof.
unfold NewTables.warnings, NewTables.subclade_warnings.
rewrite !in_app_iff, in_map_iff. intros [H|[H|[(s & E & _)|H]]].
- apply zero_total_warning_spec in H. destruct H as (t & Ht & Hz).
  apply in_map_iff in Ht. destruct Ht as (g & <- & Hg).
  rewrite Total_count_n in Hz.
  pose proof (n_group_pos haplo_col dfv g Hg) as Hpos.
  apply (proj1 (inject_Z_injective _ _)) in Hz. lia.
- destruct (NewTables.sub_valid haplo_col dfv);
    [destruct H as [H|[]]; discriminate | destruct H].
- discriminate.
- destruct (NewTables.computed_age haplo_col dfv);
    [destruct H | destruct H as [H|[]]; discriminate].
Qed.

Lemma no_subclades_In :
In NewTables.No_subclades (NewTables.warnings haplo_col dfv)
<-> NewTables.sub_valid haplo_col dfv = [].
Proof.
unfold NewTables.warnings, NewTables.subclade_warnings.
rewrite !in_app_iff, in_map_iff. split.
- intros [H|[H|[(s & E & _)|H]]].
  + unfold NewTables.zero_total_warning in H.
    destruct (existsb _ _); [destruct H as [H|[]]; discriminate | destruct H].
  + destruct (NewTables.sub_valid haplo_col dfv); [reflexivity | destruct H].
  + discriminate.
  + destruct (NewTables.computed_age haplo_col dfv);
      [destruct H | destruct H as [H|[]]; discriminate].
- intros ->. right. left. now left.
Qed.

Lemma sub_valid_nil :
NewTables.sub_valid haplo_col dfv = []
<-> forall r, In r dfv -> NewTables.haplo_sub haplo_col r = None.
Proof.
unfold NewTables.sub_valid. rewrite filter_nil_iff.
split; intros Hall r Hr; specialize (Hall r Hr).
- destruct (NewTables.haplo_sub haplo_col r); [discriminate | reflexivity].
- now rewrite Hall.
Qed.

Hypothesis none : forall r, In r dfv -> NewTables.haplo_sub haplo_col r = None.

Lemma subclade_cols_nil : NewTables.subclade_cols haplo_col dfv = [].
Proof.
apply nil_no_member. intros s Hs. apply subclade_cols_In in Hs.
destruct Hs as (r & Hr & Hp). unfold NewTables.haplo_sub in none.
rewrite (none r Hr) in Hp. discriminate.
Qed.

Lemma basal_only_names (g : GroupKey) :
column_names (NewTables.output_row haplo_col dfv g)
= base_cols ++ NewTables.basal_letters haplo_col dfv ++ ["Total"].
Proof.
rewrite output_names, final_order_blocks, subclade_cols_nil.
cbn [filter]. now rewrite flat_map_singleton.
Qed.

Lemma basal_only_total (g : GroupKey) :
lookup "Total" (NewTables.output_row haplo_col dfv g)
= Some (Int (n_group dfv g)).
Proof.
rewrite output_total. do 2 f_equal. apply trunc_inject.
unfold NewTables.Total. rewrite subclade_cols_nil. apply Total_count_n.
Qed.
End NoSubclades.

(** X9.  Of the warnings of the subclade-aware builder, the one about a
    total count of 0 is never printed: every written row has at least one
    record.  "No valid subclade haplogroups found" is printed exactly when
    no valid record has a subclade; the table then has the basal columns
    only, in ascending order, and its Total is the number of valid records
    of the group. *)
Theorem X9_warnings_printed :
  forall (haplo_col : Row -> string) (df : list Row)
         (rows : list FrameRow) (ws : list NewTables.Warning),
    NewTables.make_haplo_table haplo_col df = NewTables.Written rows ws ->
    let dfv := NewTables.df_valid haplo_col df in
    ~ In NewTables.Zero_total ws
    /\ (In NewTables.No_subclades ws
        <-> forall r, In r dfv -> NewTables.haplo_sub haplo_col r = None)
    /\ (In NewTables.No_subclades ws ->
        forall row,
          In row rows ->
          exists g letters,
            In g (map group_keys dfv)
            /\ lookup "Ancient pop name" row = Some (Str (fst (fst g)))
            /\ column_names row
               = ["Ancient pop name"; "Country"; "Age"; "Lat"; "Long"]
                 ++ letters ++ ["Total"]
            /\ StronglySorted before letters
            /\ (forall b, In b letters
                          <-> exists r, In r dfv
                                        /\ NewTables.haplo_basal haplo_col r = b)
            /\ lookup "Total" row = Some (Int (n_group dfv g))).
Proof.
  intros haplo_col df rows ws Hw dfv.
  pose proof (new_written _ _ _ _ Hw) as (_ & Hrows & Hws).
  fold dfv in Hws.
  assert (In NewTables.No_subclades ws
          <-> forall r, In r dfv -> NewTables.haplo_sub haplo_col r = None)
    as Hno.
  { rewrite Hws, no_subclades_In. apply sub_valid_nil. }
  split; [rewrite Hws; apply zero_total_never|].
  split; [exact Hno|].
  intros Hin row Hrow. pose proof (proj1 Hno Hin) as Hnone.
  destruct (new_written_row _ _ _ _ _ Hw Hrow) as (g & Hg & ->).
  fold dfv in Hg |- *.
  exists g, (NewTables.basal_letters haplo_col dfv).
  split; [exact Hg|].
  split; [apply (output_coord haplo_col dfv g)|].
  split; [apply basal_only_names; exact Hnone|].
  split; [apply basal_letters_sorted|].
  split; [intros b; apply basal_letters_In|].
  apply basal_only_total. exact Hnone.
Qed.

Lemma X9_warnings_printed_witness :
  let df := [Samples.X500 "A"; Samples.X500 "b"; Samples.X500 "A"] in
  let dfv := NewTables.df_valid Y_haplogroup df in
  let rows := NewTables.output_rows Y_haplogroup dfv in
  let ws := NewTables.warnings Y_haplogroup dfv in
  ~ In NewTables.Zero_total ws
  /\ (In NewTables.No_subclades ws
      <-> forall r, In r dfv -> NewTables.haplo_sub Y_haplogroup r = None)
  /\ (In NewTables.No_subclades ws ->
      forall row,
        In row rows ->
        exists g letters,
          In g (map group_keys dfv)
          /\ lookup "Ancient pop name" row = Some (Str (fst (fst g)))
          /\ column_names row
             = ["Ancient pop name"; "Country"; "Age"; "Lat"; "Long"]
               ++ letters ++ ["Total"]
          /\ StronglySorted before letters
          /\ (forall b, In b letters
                        <-> exists r, In r dfv
                                      /\ NewTables.haplo_basal Y_haplogroup r = b)
          /\ lookup "Total" row = Some (Int (n_group dfv g))).
Proof.
  intros df dfv rows ws.
  apply (X9_warnings_printed Y_haplogroup df rows ws).
  reflexivity.
Defined.

(** ** Decimal text of integers *)

Lemma uint_digits (d : Decimal.uint) :
  all_digits (NilEmpty.string_of_uint d) = true.
Proof. induction d; simpl; auto. Qed.

Lemma pos_text (p : positive) :
  Py.str_int (Z.pos p) = NilEmpty.string_of_uint (Pos.to_uint p)
  /\ NilEmpty.string_of_uint (Pos.to_uint p) <> "".
Proof.
  unfold Py.str_int. cbn [Z.to_int NilZero.string_of_int].
  unfold NilZero.string_of_uint.
  pose proof (DecimalPos.Unsigned.to_uint_nonnil p) as Hn.
  destruct (Pos.to_uint p); [contradiction|..]; split; easy.
Qed.

Lemma pos_value (p : positive) :
  Geography.int_of_digits (NilEmpty.string_of_uint (Pos.to_uint p)) = Z.pos p.
Proof.
  unfold Geography.int_of_digits. rewrite NilEmpty.usu.
  unfold Z.of_uint. now rewrite DecimalPos.Unsigned.of_to.
Qed.

(** [str(z)] is an optional minus sign and a nonempty run of digits that
    reads back as [abs(z)]. *)
Lemma str_int_shape (z : Z) :
  exists ds,
    all_digits ds = true
    /\ ds <> ""
    /\ Py.str_int z = (if z <? 0 then String "-" ds else ds)
    /\ Geography.int_of_digits ds = Z.abs z.
Proof.
  destruct z as [|p|p].
  - exists "0". repeat split; easy.
  - exists (NilEmpty.string_of_uint (Pos.to_uint p)).
    destruct (pos_text p) as (E & Hn).
    split; [apply uint_digits|]. split; [exact Hn|].
    split; [exact E | apply pos_value].
  - exists (NilEmpty.string_of_uint (Pos.to_uint p)).
    destruct (pos_text p) as (E & Hn).
    split; [apply uint_digits|]. split; [exact Hn|].
    split; [|apply pos_value].
    unfold Py.str_int in *. cbn [Z.to_int NilZero.string_of_int] in *.
    now rewrite E.
Qed.


Lemma digits_head (ds : string) :
  all_digits ds = true -> ds <> "" ->
  exists c t, ds = String c t /\ Py.isdigit c = true.
Proof.
  destruct ds as [|c t]; [easy|]. simpl. intros H _.
  apply andb_true_iff in H. exists c, t. now split.
Qed.

Lemma append_assoc (x y z : string) :
  ((x ++ y) ++ z = x ++ (y ++ z))%string.
Proof. induction x as [|c x IH]; [reflexivity|]. simpl. now rewrite IH. Qed.



(** ** The grouping key *)







(** ** Groups without a numeric age *)











(** ** The map script reads the Age column back *)

Lemma prefix_other_head (c a : ascii) (s t : string) :
  c <> a -> Py.startswith (String c s) (String a t) = false.
Proof.
  intros Hn. unfold Py.startswith. cbn [String.prefix].
  destruct (ascii_dec c a); [contradiction | reflexivity].
Qed.

Lemma contains_after_digits (c : ascii) (s ds rest : string) :
  Py.isdigit c = false ->
  all_digits ds = true ->
  Geography.contains (String c s) (ds ++ rest)
  = Geography.contains (String c s) rest.
Proof.
  intros Hc. induction ds as [|a ds IH]; intros Hd; [reflexivity|].
  cbn [all_digits] in Hd. apply andb_true_iff in Hd. destruct Hd as (Ha & Hd).
  cbn [append Geography.contains].
  rewrite prefix_other_head by congruence.
  cbn [orb]. now apply IH.
Qed.

Lemma digit_run_app (ds : string) (c : ascii) (rest : string) :
  all_digits ds = true -> Py.isdigit c = false ->
  Geography.digit_run (ds ++ String c rest) = ds.
Proof.
  intros Hd Hc. induction ds as [|a ds IH].
  - cbn [append Geography.digit_run]. now rewrite Hc.
  - cbn [all_digits] in Hd. apply andb_true_iff in Hd.
    destruct Hd as (Ha & Hd). cbn [append Geography.digit_run].
    rewrite Ha. f_equal. now apply IH.
Qed.

Lemma search_digits_app (ds : string) (c : ascii) (rest : string) :
  all_digits ds = true -> ds <> "" -> Py.isdigit c = false ->
  Geography.search_digits (ds ++ String c rest) = Some ds.
Proof.
  intros Hd Hn Hc. destruct (digits_head ds Hd Hn) as (a & t & -> & Ha).
  rewrite <- (digit_run_app (String a t) c rest Hd Hc) at 2.
  cbn [append Geography.search_digits]. now rewrite Ha.
Qed.

(** X12.  [parse_historical_age] of the map script inverts
    [format_calendar_year] of the table builders: it returns the calendar
    year the Age cell was written from, negative for "BCE"; the Age
    "Unknown" reads as year 0. *)
Theorem X12_age_round_trip :
  (forall year : Z,
      Geography.parse_historical_age (format_calendar_year year) = year)
  /\ Geography.parse_historical_age "Unknown" = 0.
Proof.
  split; [|reflexivity].
  intros year. unfold format_calendar_year.
  destruct (0 <? year) eqn:Hpos; [|destruct (year <? 0) eqn:Hneg].
  - apply Z.ltb_lt in Hpos.
    destruct (str_int_shape year) as (ds & Hd & Hn & E & V).
    assert ((year <? 0) = false) as Hs by (apply Z.ltb_ge; lia).
    rewrite Hs in E. rewrite E. unfold Geography.parse_historical_age.
    rewrite !contains_after_digits by (reflexivity || assumption).
    rewrite search_digits_app by (reflexivity || assumption).
    cbn. lia.
  - apply Z.ltb_lt in Hneg.
    destruct (str_int_shape (Z.abs year)) as (ds & Hd & Hn & E & V).
    assert ((Z.abs year <? 0) = false) as Hs by (apply Z.ltb_ge; lia).
    rewrite Hs in E. rewrite E. unfold Geography.parse_historical_age.
    rewrite !contains_after_digits by (reflexivity || assumption).
    rewrite search_digits_app by (reflexivity || assumption).
    cbn. lia.
  - apply Z.ltb_ge in Hpos. apply Z.ltb_ge in Hneg.
    assert (year = 0) as -> by lia. reflexivity.
Qed.

(** ** The columns the map script reads *)

Lemma parse_subclade_chars (x s : string) :
  NewTables.parse_subclade x = Some s ->
  exists d e, s = String d (String e "") /\ Py.isdigit e = true.
Proof.
  intros Hs. unfold NewTables.parse_subclade in Hs.
  destruct (strip_head x) as [E|(d & t & E & Hd)]; rewrite E in Hs;
    [discriminate|].
  destruct t as [|e t]; [discriminate|].
  cbn in Hs. destruct (Py.isdigit e) eqn:He; [|discriminate].
  injection Hs as <-. rewrite slice_to_0. cbn [Py.upper].
  exists (Py.upper_char d), (Py.upper_char e).
  split; [reflexivity|]. now rewrite isdigit_upper.
Qed.

Lemma basal_col_letter (c : ascii) :
  Geography.is_basal_col (String c "") = Geography.isalpha c
  /\ Geography.is_subclade_col (String c "") = false.
Proof.
  unfold Geography.is_basal_col, Geography.is_subclade_col,
    Geography.str_isalpha.
  cbn. now rewrite andb_true_r.
Qed.

Lemma subclade_col_pair (c e : ascii) :
  Py.isdigit e = true ->
  Geography.is_subclade_col (String c (String e "")) = Geography.isalpha c
  /\ Geography.is_basal_col (String c (String e "")) = false.
Proof.
  intros He. unfold Geography.is_basal_col, Geography.is_subclade_col.
  cbn. rewrite He. now rewrite andb_true_r.
Qed.

Lemma haplo_cols_of_output (haplo_col : Row -> string) (dfv : list Row)
      (g : GroupKey) :
  Geography.haplo_cols_of (column_names (NewTables.output_row haplo_col dfv g))
  = flat_map (fun b => b :: NewTables.related_subs haplo_col dfv b)
             (NewTables.basal_letters haplo_col dfv).
Proof.
  rewrite output_names, final_order_blocks.
  unfold Geography.haplo_cols_of. rewrite !filter_app.
  replace (filter _ base_cols) with (@nil string) by reflexivity.
  replace (filter _ ["Total"]) with (@nil string) by reflexivity.
  rewrite app_nil_r. cbn [app].
  rewrite filter_all.
  - apply flat_map_ext. intros b. now rewrite related_subs_filter.
  - intros c Hc.
    assert (String.length c <= 2)%nat as Hl.
    { apply in_flat_map in Hc. destruct Hc as (b & Hb & [<-|Hin]).
      - apply basal_letters_length in Hb. lia.
      - apply filter_In in Hin. destruct Hin as (Hin & _).
        apply subclade_cols_length in Hin. lia. }
    rewrite isin_length.
    + rewrite eqb_length by (simpl; lia). reflexivity.
    + intros y Hy. unfold Geography.meta_cols in Hy. cbn [In] in Hy.
      destruct Hy as [<-|[<-|[<-|[<-|[<-|[]]]]]]; simpl; lia.
Qed.

(** X13.  The map script of step 3 takes from a row written by the
    subclade-aware builder exactly the builder's haplogroup columns, in the
    builder's order.  It reads a basal column as a basal group when its
    letter is an ASCII letter, and a subclade column as a subclade of the
    basal letter whose block it stands in, again when that letter is an
    ASCII letter; columns led by another character are read as neither. *)
Theorem X13_map_script_columns :
  forall (haplo_col : Row -> string) (df : list Row)
         (rows : list FrameRow) (ws : list NewTables.Warning) (row : FrameRow),
    NewTables.make_haplo_table haplo_col df = NewTables.Written rows ws ->
    In row rows ->
    let dfv := NewTables.df_valid haplo_col df in
    let letters := NewTables.basal_letters haplo_col dfv in
    Geography.haplo_cols_of (column_names row)
    = flat_map (fun b => b :: NewTables.related_subs haplo_col dfv b) letters
    /\ (forall b,
           In b letters ->
           exists c,
             b = String c ""
             /\ Geography.is_basal_col b = Geography.isalpha c
             /\ Geography.is_subclade_col b = false)
    /\ (forall b sc,
           In b letters ->
           In sc (NewTables.related_subs haplo_col dfv b) ->
           exists c e,
             sc = String c (String e "")
             /\ b = String c ""
             /\ Py.slice_to 1 sc = b
             /\ Geography.is_subclade_col sc = Geography.isalpha c
             /\ Geography.is_basal_col sc = false).
Proof.
  intros haplo_col df rows ws row Hw Hrow dfv letters.
  destruct (new_written_row _ _ _ _ _ Hw Hrow) as (g & _ & ->).
  fold dfv.
  assert (forall r, In r dfv -> haplo_col r <> "") as Hne
      by (intros r; apply df_valid_nonempty).
  split; [apply haplo_cols_of_output|]. split.
  - intros b Hb.
    destruct (letter_shape haplo_col dfv Hne b Hb) as (c & ->).
    exists (Py.upper_char c). split; [reflexivity|]. apply basal_col_letter.
  - intros b sc Hb Hsc. rewrite related_subs_filter in Hsc.
    apply filter_In in Hsc. destruct Hsc as (Hsc & Hst).
    apply subclade_cols_In in Hsc. destruct Hsc as (r & _ & Hp).
    destruct (parse_subclade_chars _ _ Hp) as (d & e & -> & He).
    destruct (letter_shape haplo_col dfv Hne b Hb) as (c & ->).
    apply startswith_letter in Hst. rewrite slice_to_cons, slice_to_0 in Hst.
    injection Hst as ->.
    exists (Py.upper_char c), e. split; [reflexivity|].
    split; [reflexivity|].
    split; [now rewrite slice_to_cons, slice_to_0|].
    now apply subclade_col_pair.
Qed.

Lemma X13_map_script_columns_witness :
  let dfv := NewTables.df_valid Y_haplogroup Samples.scenario in
  let row := NewTables.output_row Y_haplogroup dfv Samples.X_0_1000 in
  let letters := NewTables.basal_letters Y_haplogroup dfv in
  Geography.haplo_cols_of (column_names row)
  = flat_map (fun b => b :: NewTables.related_subs Y_haplogroup dfv b) letters
  /\ (forall b,
         In b letters ->
         exists c,
           b = String c ""
           /\ Geography.is_basal_col b = Geography.isalpha c
           /\ Geography.is_subclade_col b = false)
  /\ (forall b sc,
         In b letters ->
         In sc (NewTables.related_subs Y_haplogroup dfv b) ->
         exists c e,
           sc = String c (String e "")
           /\ b = String c ""
           /\ Py.slice_to 1 sc = b
           /\ Geography.is_subclade_col sc = Geography.isalpha c
           /\ Geography.is_basal_col sc = false).
Proof.
  intros dfv row letters.
  apply (X13_map_script_columns Y_haplogroup Samples.scenario
           (NewTables.output_rows Y_haplogroup dfv)
           (NewTables.warnings Y_haplogroup dfv) row).
  - reflexivity.
  - now left.
Defined.

(** ** The two rings of a chart *)

Lemma sum_app (l1 l2 : list Q) : Np.sum (l1 ++ l2) == Np.sum l1 + Np.sum l2.
Proof.
  induction l1 as [|x l1 IH]; simpl; [ring|]. rewrite IH. ring.
Qed.

Lemma sum_perm (l l' : list Q) : Permutation l l' -> Np.sum l == Np.sum l'.
Proof.
  induction 1 as [|x l l' _ IH|x y l|l l' l'' _ IH1 _ IH2]; simpl.
  - reflexivity.
  - now rewrite IH.
  - ring.
  - now rewrite IH1.
Qed.

Lemma py_sum_from (l : list Q) (a : Q) : fold_left Qplus l a == a + Np.sum l.
Proof.
  revert a. induction l as [|x l IH]; intros a; simpl; [ring|].
  rewrite IH. ring.
Qed.

Lemma py_sum_sum (l : list Q) : Geography.py_sum l == Np.sum l.
Proof. unfold Geography.py_sum. rewrite py_sum_from. ring. Qed.

Lemma sum_positive (l : list Q) :
  l <> [] -> (forall x, In x l -> 0 < x)%Q -> (0 < Np.sum l)%Q.
Proof.
  induction l as [|x l IH]; [easy|]. intros _ Hpos. simpl.
  assert (0 < x)%Q as Hx by (apply Hpos; now left).
  destruct l as [|y l]; [simpl; now rewrite Qplus_0_r|].
  assert (0 < Np.sum (y :: l))%Q as Hl.
  { apply IH; [easy|]. intros z Hz. apply Hpos. now right. }
  rewrite <- (Qplus_0_r 0). now apply Qplus_lt_le_compat; [|apply Qlt_le_weak].
Qed.

Lemma insert_desc_perm (x : string * Q) (l : list (string * Q)) :
  Permutation (Geography.insert_desc x l) (x :: l).
Proof.
  induction l as [|y l IH]; cbn [Geography.insert_desc]; [reflexivity|].
  destruct (Qle_bool (snd y) (snd x)); [reflexivity|].
  rewrite IH. apply perm_swap.
Qed.

Lemma sorted_desc_perm (l : list (string * Q)) :
  Permutation (Geography.sorted_desc l) l.
Proof.
  induction l as [|x l IH]; [reflexivity|].
  unfold Geography.sorted_desc in *. cbn [fold_right].
  rewrite insert_desc_perm. now constructor.
Qed.

Lemma sorted_desc_In (e : string * Q) (l : list (string * Q)) :
  In e (Geography.sorted_desc l) <-> In e l.
Proof.
  split; apply Permutation_in;
    [apply sorted_desc_perm | symmetry; apply sorted_desc_perm].
Qed.

Lemma get_In {V} (k : string) (v : V) (d : Geography.Dict V) :
  Geography.get k d = Some v -> In (k, v) d.
Proof.
  induction d as [|[k' v'] d IH]; cbn [Geography.get]; [discriminate|].
  destruct (String.eqb k k') eqn:E.
  - apply String.eqb_eq in E. intros [= ->]. subst. now left.
  - intros H. right. now apply IH.
Qed.

Lemma set_In {V} (k k' : string) (v v' : V) (d : Geography.Dict V) :
  In (k', v') (Geography.set k v d) -> (k' = k /\ v' = v) \/ In (k', v') d.
Proof.
  induction d as [|[k0 v0] d IH]; cbn [Geography.set].
  - intros [[= <- <-]|[]]. now left.
  - destruct (String.eqb k k0).
    + intros [[= <- <-]|H]; [now left | right; now right].
    + intros [H|H]; [right; now left|].
      destruct (IH H) as [H'|H']; [now left | right; now right].
Qed.

Lemma collect_col_collected (row : string -> option Q) acc (col : string) :
  collected acc -> collected (Geography.collect_col row acc col).
Proof.
  intros (Hb & Hs). unfold Geography.collect_col.
  destruct (row col) as [val|]; [|now split].
  destruct (Qle_bool val 0) eqn:Hle; [now split|].
  assert (0 < val)%Q as Hpos.
  { apply Qnot_le_lt. intros H. apply Qle_bool_iff in H. congruence. }
  destruct (Geography.is_basal_col col).
  - split; [|exact Hs]. cbn [fst]. intros k v Hin.
    apply set_In in Hin. destruct Hin as [(_ & ->)|Hin]; [exact Hpos|].
    now apply (Hb k).
  - destruct (Geography.is_subclade_col col); [|now split].
    split; [exact Hb|]. cbn [snd]. intros p subs Hin.
    unfold Geography.setdefault_append in Hin.
    destruct (Geography.get (Py.slice_to 1 col) (snd acc)) as [l|] eqn:Eg.
    + apply set_In in Hin. destruct Hin as [(_ & ->)|Hin]; [|now apply (Hs p)].
      apply get_In in Eg. destruct (Hs _ _ Eg) as (_ & Hl).
      split; [now destruct l|].
      intros e He. apply in_app_iff in He.
      destruct He as [He|[<-|[]]]; [now apply Hl | exact Hpos].
    + apply set_In in Hin. destruct Hin as [(_ & ->)|Hin]; [|now apply (Hs p)].
      split; [easy|]. intros e [<-|[]]. exact Hpos.
Qed.

Lemma collect_collected (row : string -> option Q) (haplo_cols : list string) :
  collected (Geography.collect row haplo_cols).
Proof.
  unfold Geography.collect.
  assert (collected ([], [])) as H0 by (split; intros ? ? []).
  revert H0. generalize (@nil (string * Q), @nil (string * list (string * Q))).
  induction haplo_cols as [|col cols IH]; intros acc Hacc; [exact Hacc|].
  cbn [fold_left]. apply IH. now apply collect_col_collected.
Qed.

Lemma scaled_sum (subs : list (string * Q)) (k : Q) :
  (0 < Np.sum (map snd subs))%Q ->
  Np.sum (map (fun s : string * Q =>
                 (snd s / Geography.py_sum (map snd subs) * k)%Q)
              (Geography.sorted_desc subs)) == k.
Proof.
  intros Hpos. set (S := Geography.py_sum (map snd subs)).
  assert (S == Np.sum (map snd subs)) as ES by apply py_sum_sum.
  assert (~ S == 0) as Hnz by (rewrite ES; intros E; rewrite E in Hpos;
                               now apply Qlt_irrefl in Hpos).
  rewrite (sum_ext _ (fun s : string * Q => snd s * (/ S * k))%Q)
    by (intros s _; unfold Qdiv; ring).
  rewrite (sum_scale snd (/ S * k)).
  rewrite (sum_perm _ (map snd subs))
    by (apply Permutation_map, sorted_desc_perm).
  rewrite <- ES. field. exact Hnz.
Qed.

Section Rings.
Variable row : string -> option Q.
Variable haplo_cols : list string.

Let sv := Geography.subclade_values row haplo_cols.

Lemma basal_sorted_pos (b : string) (v : Q) :
In (b, v) (Geography.basal_sorted row haplo_cols) -> (0 < v)%Q.
Proof.
intros Hin. unfold Geography.basal_sorted in Hin.
apply (proj1 (sorted_desc_In _ _)) in Hin.
destruct (collect_collected row haplo_cols) as (Hb & _).
now apply (Hb b).
Qed.

Lemma subclades_pos (p : string) (subs : list (string * Q)) :
Geography.get p sv = Some subs ->
subs <> [] /\ (0 < Np.sum (map snd subs))%Q
/\ Np.gt0 (Geography.py_sum (map snd subs)) = true.
Proof.
intros Hg. apply get_In in Hg.
destruct (collect_collected row haplo_cols) as (_ & Hs).
destruct (Hs _ _ Hg) as (Hne & Hpos).
assert (0 < Np.sum (map snd subs))%Q as Hsum.
{ apply sum_positive; [now destruct subs|].
  intros x Hx. apply in_map_iff in Hx. destruct Hx as (e & <- & He).
  now apply Hpos. }
split; [exact Hne|]. split; [exact Hsum|].
apply gt0_spec. now rewrite py_sum_sum.
Qed.

(** The slices of a parent with subclades [subs]. *)
Lemma parent_block_subs (b : string) (v : Q) (subs : list (string * Q)) :
Geography.get b sv = Some subs ->
Geography.parent_block row haplo_cols (b, v)
= Geography.mkSlice b v 0 None false
  :: map (fun s : string * Q =>
            Geography.mkSlice (fst s) 0
              (snd s / Geography.py_sum (map snd subs) * v)%Q
              (Some (snd s / Geography.py_sum (map snd subs) * 100)%Q)
              false)
         (Geography.sorted_desc subs).
Proof.
intros Hg. destruct (subclades_pos b subs Hg) as (Hne & _ & Hgt).
unfold Geography.parent_block. fold sv. rewrite Hg.
destruct subs as [|e es]; [contradiction|]. cbv zeta. now rewrite Hgt.
Qed.

Lemma parent_block_alone (b : string) (v : Q) :
Geography.get b sv = None ->
Geography.parent_block row haplo_cols (b, v)
= [Geography.mkSlice b v 0 None false;
   Geography.mkSlice (b ++ "_placeholder") 0 v None true].
Proof.
intros Hg. unfold Geography.parent_block. fold sv. now rewrite Hg.
Qed.

Lemma parent_block_sums (b : string) (v : Q) :
Np.sum (map Geography.data_main
            (Geography.parent_block row haplo_cols (b, v))) == v
/\ Np.sum (map Geography.data_sub
               (Geography.parent_block row haplo_cols (b, v))) == v.
Proof.
destruct (Geography.get b sv) as [subs|] eqn:Hg.
- rewrite (parent_block_subs b v subs Hg).
  destruct (subclades_pos b subs Hg) as (_ & Hpos & _).
  cbn [map Np.sum fold_right Geography.data_main Geography.data_sub].
  rewrite !map_map. cbn [Geography.data_main Geography.data_sub].
  split.
  + rewrite (sum_zero (fun _ : string * Q => 0%Q)) by reflexivity. ring.
  + fold (Np.sum (map (fun s : string * Q =>
                         (snd s / Geography.py_sum (map snd subs) * v)%Q)
                      (Geography.sorted_desc subs))).
    rewrite scaled_sum by exact Hpos. ring.
- rewrite (parent_block_alone b v Hg). simpl. split; ring.
Qed.

Lemma blocks_sums (l : list (string * Q)) :
Np.sum (map Geography.data_main
            (flat_map (Geography.parent_block row haplo_cols) l))
== Np.sum (map snd l)
/\ Np.sum (map Geography.data_sub
               (flat_map (Geography.parent_block row haplo_cols) l))
   == Np.sum (map snd l).
Proof.
induction l as [|[b v] l (IH1 & IH2)]; [split; reflexivity|].
destruct (parent_block_sums b v) as (H1 & H2).
cbn [flat_map map snd]. rewrite !map_app, !sum_app, IH1, IH2, H1, H2.
split; reflexivity.
Qed.
End Rings.

(** *** What the first loop stores *)

Lemma set_In_new {V} (k : string) (v : V) (d : Geography.Dict V) :
  In (k, v) (Geography.set k v d).
Proof.
  induction d as [|[k0 v0] d IH]; cbn [Geography.set]; [now left|].
  destruct (String.eqb k k0); [now left | now right].
Qed.

Lemma set_In_other {V} (k k' : string) (v v' : V) (d : Geography.Dict V) :
  k' <> k -> In (k', v') d -> In (k', v') (Geography.set k v d).
Proof.
  intros Hn. induction d as [|[k0 v0] d IH]; cbn [Geography.set]; [easy|].
  destruct (String.eqb k k0) eqn:E.
  - apply String.eqb_eq in E. subst k0.
    intros [[= -> _]|H]; [contradiction | now right].
  - intros [H|H]; [now left | right; now apply IH].
Qed.

Lemma get_set_same {V} (k : string) (v : V) (d : Geography.Dict V) :
  Geography.get k (Geography.set k v d) = Some v.
Proof.
  induction d as [|[k0 v0] d IH]; cbn [Geography.set Geography.get].
  - now rewrite String.eqb_refl.
  - destruct (String.eqb k k0) eqn:E; cbn [Geography.get].
    + now rewrite String.eqb_refl.
    + now rewrite E.
Qed.

Lemma get_set_other {V} (k k' : string) (v : V) (d : Geography.Dict V) :
  k' <> k -> Geography.get k' (Geography.set k v d) = Geography.get k' d.
Proof.
  intros Hn. apply String.eqb_neq in Hn.
  induction d as [|[k0 v0] d IH]; cbn [Geography.set Geography.get].
  - now rewrite Hn.
  - destruct (String.eqb k k0) eqn:E; cbn [Geography.get].
    + apply String.eqb_eq in E. subst k0. now rewrite Hn.
    + now rewrite IH.
Qed.

Lemma basal_not_subclade (col : string) :
  Geography.is_basal_col col = true -> Geography.is_subclade_col col = false.
Proof.
  unfold Geography.is_basal_col, Geography.is_subclade_col, Py.len.
  intros H. apply andb_true_iff in H. destruct H as (H & _).
  apply Nat.eqb_eq in H. now rewrite H.
Qed.

Lemma not_le_bool (q : Q) : Qle_bool q 0 = false <-> (0 < q)%Q.
Proof.
  split.
  - intros H. apply Qnot_le_lt. intros Hle. apply Qle_bool_iff in Hle.
    congruence.
  - intros H. destruct (Qle_bool q 0) eqn:E; [|reflexivity].
    apply Qle_bool_iff in E. exfalso. now apply (Qlt_not_le 0 q).
Qed.

Section FirstLoop.
Variable row : string -> option Q.

Let from_row (acc : Geography.Dict Q * Geography.Dict (list (string * Q)))
: Prop :=
forall k v, In (k, v) (fst acc) -> row k = Some v.

Lemma collect_col_basal acc (col : string) :
from_row acc ->
from_row (Geography.collect_col row acc col)
/\ forall b v,
    In (b, v) (fst (Geography.collect_col row acc col))
    <-> In (b, v) (fst acc)
        \/ (b = col /\ Geography.is_basal_col b = true
            /\ row b = Some v /\ (0 < v)%Q).
Proof.
intros Hinv. unfold Geography.collect_col.
destruct (row col) as [val|] eqn:Er.
- destruct (Qle_bool val 0) eqn:Hle.
  + split; [exact Hinv|]. intros b v. split; [now left|].
    intros [H|(-> & _ & E & Hpos)]; [exact H|].
    rewrite Er in E. injection E as ->.
    apply not_le_bool in Hpos. congruence.
  + destruct (Geography.is_basal_col col) eqn:Hb.
    * cbn [fst]. split.
      -- intros k v Hin. apply set_In in Hin.
         destruct Hin as [(-> & ->)|Hin]; [exact Er | now apply Hinv].
      -- intros b v. split.
         ++ intros Hin. apply set_In in Hin.
            destruct Hin as [(-> & ->)|Hin]; [right | now left].
            repeat split; try assumption. now apply not_le_bool.
         ++ intros [Hin|(-> & _ & E & _)].
            ** destruct (string_dec b col) as [->|Hn].
               --- apply Hinv in Hin. rewrite Er in Hin.
                   injection Hin as <-. apply set_In_new.
               --- now apply set_In_other.
            ** rewrite Er in E. injection E as <-. apply set_In_new.
    * assert (forall x : Geography.Dict Q * Geography.Dict (list (string * Q)),
                 fst x = fst acc ->
                 from_row x
                 /\ forall b v,
                     In (b, v) (fst x)
                     <-> In (b, v) (fst acc)
                         \/ (b = col /\ Geography.is_basal_col b = true
                             /\ row b = Some v /\ (0 < v)%Q)) as Hsame.
      { intros x Ex. split.
        - intros k v. rewrite Ex. apply Hinv.
        - intros b v. rewrite Ex. split; [now left|].
          intros [H|(-> & Hb' & _)]; [exact H | congruence]. }
      destruct (Geography.is_subclade_col col); now apply Hsame.
- split; [exact Hinv|]. intros b v. split; [now left|].
  intros [H|(-> & _ & E & _)]; [exact H | congruence].
Qed.

Lemma collect_basal_In (haplo_cols : list string) acc :
from_row acc ->
forall b v,
  In (b, v) (fst (fold_left (Geography.collect_col row) haplo_cols acc))
  <-> In (b, v) (fst acc)
      \/ (In b haplo_cols /\ Geography.is_basal_col b = true
          /\ row b = Some v /\ (0 < v)%Q).
Proof.
revert acc. induction haplo_cols as [|col cols IH]; intros acc Hinv b v.
- cbn [fold_left In]. tauto.
- cbn [fold_left]. destruct (collect_col_basal acc col Hinv) as (Hinv' & Hstep).
  rewrite (IH _ Hinv'), Hstep. cbn [In].
  split.
  + intros [[H|(-> & H)]|(Hin & H)]; [now left | right | right].
    * split; [now left | exact H].
    * split; [now right | exact H].
  + intros [H|([->|Hin] & H)]; [left; now left | left; right | right].
    * split; [reflexivity | exact H].
    * split; [exact Hin | exact H].
Qed.

Lemma collect_col_stored acc (col p : string) :
stored_subclades p (snd (Geography.collect_col row acc col))
= stored_subclades p (snd acc) ++ subclade_entries row [col] p.
Proof.
unfold subclade_entries, Geography.collect_col. cbn [flat_map].
rewrite app_nil_r.
destruct (row col) as [val|]; [|now rewrite app_nil_r].
destruct (Qle_bool val 0); cbn [negb andb]; [now rewrite app_nil_r|].
destruct (Geography.is_basal_col col) eqn:Hb.
- rewrite (basal_not_subclade col Hb). cbn [andb snd].
  now rewrite app_nil_r.
- destruct (Geography.is_subclade_col col); cbn [andb snd];
    [|now rewrite app_nil_r].
  unfold stored_subclades, Geography.setdefault_append.
  destruct (String.eqb (Py.slice_to 1 col) p) eqn:E.
  + apply String.eqb_eq in E. rewrite E.
    destruct (Geography.get p (snd acc)); now rewrite get_set_same.
  + apply String.eqb_neq in E. rewrite app_nil_r.
    assert (p <> Py.slice_to 1 col) as Hn by congruence.
    destruct (Geography.get (Py.slice_to 1 col) (snd acc));
      now rewrite get_set_other.
Qed.

Lemma collect_stored (haplo_cols : list string) acc (p : string) :
stored_subclades p (snd (fold_left (Geography.collect_col row) haplo_cols acc))
= stored_subclades p (snd acc) ++ subclade_entries row haplo_cols p.
Proof.
revert acc. induction haplo_cols as [|col cols IH]; intros acc.
- cbn [fold_left]. unfold subclade_entries. cbn [flat_map].
  now rewrite app_nil_r.
- cbn [fold_left]. rewrite IH, collect_col_stored.
  unfold subclade_entries. cbn [flat_map]. now rewrite app_nil_r, app_assoc.
Qed.

Variable haplo_cols : list string.

Lemma basal_sorted_In (b : string) (v : Q) :
In (b, v) (Geography.basal_sorted row haplo_cols)
<-> In b haplo_cols /\ Geography.is_basal_col b = true
    /\ row b = Some v /\ (0 < v)%Q.
Proof.
unfold Geography.basal_sorted. rewrite sorted_desc_In.
unfold Geography.basal_values, Geography.collect.
rewrite collect_basal_In by (intros k v' []).
cbn [fst In]. tauto.
Qed.

Lemma stored_entries (p : string) :
stored_subclades p (Geography.subclade_values row haplo_cols)
= subclade_entries row haplo_cols p.
Proof.
unfold Geography.subclade_values, Geography.collect.
now rewrite collect_stored.
Qed.


Lemma get_none_entries (p : string) :
Geography.get p (Geography.subclade_values row haplo_cols) = None
<-> subclade_entries row haplo_cols p = [].
Proof.
rewrite <- stored_entries. unfold stored_subclades.
destruct (Geography.get p _) as [l|] eqn:Eg; [|easy].
split; [discriminate|]. intros ->.
apply subclades_pos in Eg. now destruct Eg.
Qed.
End FirstLoop.



(** X14.  [build_two_ring_data] keeps the two rings of a chart aligned.
    The basal groups drawn are the basal columns with a positive value; the
    slices of each (the group, then its subclades, or one transparent
    placeholder when it has none) have the group's percentage as the sum of
    their inner-ring values and also as the sum of their outer-ring values.
    When every subclade column with a positive value has such a basal
    group, the five lists have the same length and both rings sum to the
    sum of the positive basal percentages. *)
Theorem X14_two_ring_alignment :
  forall (set_order : list string -> list string)
         (row : string -> option Q) (haplo_cols : list string),
    (forall b v,
        In (b, v) (Geography.basal_sorted row haplo_cols)
        <-> In b haplo_cols /\ Geography.is_basal_col b = true
            /\ row b = Some v /\ (0 < v)%Q)
    /\ (forall b v,
           In (b, v) (Geography.basal_sorted row haplo_cols) ->
           let block := Geography.parent_block row haplo_cols (b, v) in
           Np.sum (map Geography.data_main block) == v
           /\ Np.sum (map Geography.data_sub block) == v
           /\ (subclade_entries row haplo_cols b = [] ->
               block = [Geography.mkSlice b v 0 None false;
                        Geography.mkSlice (b ++ "_placeholder") 0 v None true]))
    /\ (forall labels main sub display placeholder,
           Geography.build_two_ring_data set_order row haplo_cols
           = (labels, main, sub, display, placeholder) ->
           Geography.leftover_parents set_order row haplo_cols = [] ->
           List.length main = List.length labels
           /\ List.length sub = List.length labels
           /\ List.length display = List.length labels
           /\ List.length placeholder = List.length labels
           /\ Np.sum main
              == Np.sum (map snd (Geography.basal_values row haplo_cols))
           /\ Np.sum sub == Np.sum main).
Proof.
  intros set_order row haplo_cols.
  split; [intros b v; apply basal_sorted_In|]. split.
  - intros b v Hin block.
    destruct (parent_block_sums row haplo_cols b v) as (H1 & H2).
    split; [exact H1|]. split; [exact H2|].
    intros Hk. apply parent_block_alone. now apply get_none_entries.
  - intros labels main sub display placeholder E Hleft.
    unfold Geography.build_two_ring_data in E.
    injection E as <- <- <- <- <-. rewrite !length_map.
    do 4 (split; [reflexivity|]).
    unfold Geography.slices. rewrite Hleft. cbn [flat_map].
    rewrite app_nil_r.
    destruct (blocks_sums row haplo_cols
                (Geography.basal_sorted row haplo_cols)) as (H1 & H2).
    assert (Np.sum (map snd (Geography.basal_sorted row haplo_cols))
            == Np.sum (map snd (Geography.basal_values row haplo_cols))) as Hp
        by (apply sum_perm, Permutation_map, sorted_desc_perm).
    split; [now rewrite H1 | now rewrite H1, H2].
Qed.

Lemma X14_two_ring_alignment_witness :
  let row := chart_row [("A", 60%Q); ("A1", 25%Q); ("A2", 50%Q); ("B", 40%Q)] in
  let haplo_cols := ["A"; "A1"; "A2"; "B"] in
  (let block := Geography.parent_block row haplo_cols ("B", 40%Q) in
   Np.sum (map Geography.data_main block) == 40
   /\ Np.sum (map Geography.data_sub block) == 40
   /\ (subclade_entries row haplo_cols "B" = [] ->
       block = [Geography.mkSlice "B" 40 0 None false;
                Geography.mkSlice "B_placeholder" 0 40 None true]))
  /\ (let '(labels, main, sub, display, placeholder) :=
        Geography.build_two_ring_data (fun l => l) row haplo_cols in
      List.length main = List.length labels
      /\ List.length sub = List.length labels
      /\ List.length display = List.length labels
      /\ List.length placeholder = List.length labels
      /\ Np.sum main
         == Np.sum (map snd (Geography.basal_values row haplo_cols))
      /\ Np.sum sub == Np.sum main).
Proof.
  intros row haplo_cols. split.
  - apply (proj1 (proj2 (X14_two_ring_alignment (fun l => l) row haplo_cols))
             "B" 40%Q).
    right. now left.
  - apply (proj2 (proj2 (X14_two_ring_alignment (fun l => l) row haplo_cols)));
      reflexivity.
Defined.



(** *** Subclades without a basal group *)






(** ** The order of the input rows *)

Lemma filter_perm {X} (p : X -> bool) (l l' : list X) :
  Permutation l l' -> Permutation (filter p l) (filter p l').
Proof.
  induction 1 as [|x l l' _ IH|x y l|l l' l'' _ IH1 _ IH2]; cbn [filter].
  - constructor.
  - destruct (p x); [now constructor | exact IH].
  - destruct (p x), (p y); try reflexivity. apply perm_swap.
  - now transitivity (filter p l').
Qed.

Lemma perm_nil_iff {X} (l l' : list X) :
  Permutation l l' -> l = [] <-> l' = [].
Proof.
  intros Hp. split; intros ->.
  - now apply Permutation_nil.
  - apply Permutation_nil. now symmetry.
Qed.

Lemma forallb_pointwise {X} (p q : X -> bool) (l : list X) :
  (forall x, p x = q x) -> forallb p l = forallb q l.
Proof.
  intros H. induction l as [|x l IH]; [reflexivity|].
  cbn [forallb]. now rewrite H, IH.
Qed.

Lemma dropna_perm (l l' : list (option Q)) :
  Permutation l l' -> Permutation (Np.dropna l) (Np.dropna l').
Proof.
  induction 1 as [|x l l' _ IH|x y l|l l' l'' _ IH1 _ IH2]; cbn [Np.dropna].
  - constructor.
  - destruct x; [now constructor | exact IH].
  - destruct x, y; try reflexivity. apply perm_swap.
  - now transitivity (Np.dropna l').
Qed.

Lemma mean_perm (l l' : list Q) : Permutation l l' -> Np.mean l = Np.mean l'.
Proof.
  intros Hp. unfold Np.mean.
  destruct l as [|x l], l' as [|y l'].
  - reflexivity.
  - apply Permutation_nil in Hp. discriminate.
  - symmetry in Hp. apply Permutation_nil in Hp. discriminate.
  - f_equal. apply Qred_complete.
    rewrite (sum_perm _ _ Hp), (Permutation_length Hp). reflexivity.
Qed.

Section SortedLists.
Context {A : Type} `{OrdLaws A}.

Lemma ascending_ext (l l' : list A) :
StronglySorted before l -> StronglySorted before l' ->
(forall x, In x l <-> In x l') -> l = l'.
Proof.
revert l'. induction l as [|x l IH]; intros [|y l'] Hs Hs' Hin.
- reflexivity.
- destruct (proj2 (Hin y) (or_introl eq_refl)).
- destruct (proj1 (Hin x) (or_introl eq_refl)).
- apply StronglySorted_inv in Hs. destruct Hs as (Hs & Hx).
  apply StronglySorted_inv in Hs'. destruct Hs' as (Hs' & Hy).
  rewrite Forall_forall in Hx, Hy.
  assert (x = y) as ->.
  { destruct (proj1 (Hin x) (or_introl eq_refl)) as [E|Hxl']; [easy|].
    destruct (proj2 (Hin y) (or_introl eq_refl)) as [E|Hyl]; [easy|].
    exfalso. apply (before_irrefl x).
    unfold before in *. apply (cmp_trans x y x); [now apply Hx | now apply Hy]. }
  f_equal. apply IH; try assumption.
  intros z. split; intros Hz.
  + destruct (proj1 (Hin z) (or_intror Hz)) as [<-|H']; [|exact H'].
    exfalso. apply (before_irrefl y). now apply Hx.
  + destruct (proj2 (Hin z) (or_intror Hz)) as [<-|H']; [|exact H'].
    exfalso. apply (before_irrefl y). now apply Hy.
Qed.

Lemma uniq_ext (l l' : list A) :
(forall x, In x l <-> In x l') -> uniq l = uniq l'.
Proof.
intros Hin. apply ascending_ext; try apply uniq_sorted.
intros x. now rewrite !uniq_In.
Qed.
End SortedLists.

Lemma groupby_size_perm {K} `{OrdLaws K} (f : Row -> K) (l l' : list Row) :
  Permutation l l' -> groupby_size f l = groupby_size f l'.
Proof.
  intros Hp. unfold groupby_size.
  rewrite (uniq_ext (map f l) (map f l')).
  - apply map_ext. intros k. unfold size_of. do 2 f_equal.
    apply Permutation_length. now apply filter_perm.
  - intros x. split; apply Permutation_in; apply Permutation_map;
      [exact Hp | now symmetry].
Qed.

Lemma coord_mean_perm (col : Row -> option Q) (g : GroupKey) (l l' : list Row) :
  Permutation l l' -> coord_mean col g l = coord_mean col g l'.
Proof.
  intros Hp. unfold coord_mean, Np.nanmean, get_group.
  apply mean_perm, dropna_perm, Permutation_map. now apply filter_perm.
Qed.

Section RowOrder.
Variable haplo_col : Row -> string.
Variables dfv dfv' : list Row.
Hypothesis perm : Permutation dfv dfv'.

Lemma grouped_basal_perm :
NewTables.grouped_basal haplo_col dfv = NewTables.grouped_basal haplo_col dfv'.
Proof. unfold NewTables.grouped_basal. now apply groupby_size_perm. Qed.

Lemma sub_valid_perm :
Permutation (NewTables.sub_valid haplo_col dfv)
            (NewTables.sub_valid haplo_col dfv').
Proof. unfold NewTables.sub_valid. now apply filter_perm. Qed.

Lemma grouped_sub_perm :
NewTables.grouped_sub haplo_col dfv = NewTables.grouped_sub haplo_col dfv'.
Proof.
unfold NewTables.grouped_sub. apply groupby_size_perm. apply sub_valid_perm.
Qed.

Lemma computed_age_perm :
match NewTables.computed_age haplo_col dfv,
      NewTables.computed_age haplo_col dfv' with
| Some year, Some year' => forall g, year g = year' g
| None, None => True
| _, _ => False
end.
Proof.
unfold NewTables.computed_age, NewTables.pivot_basal_counts.
rewrite grouped_basal_perm.
rewrite (forallb_pointwise _
           (fun g => match coord_mean age_numeric g dfv' with
                     | Some _ => true
                     | None => false
                     end))
  by (intros g; now rewrite (coord_mean_perm _ g dfv dfv' perm)).
destruct (forallb _ _); [|exact I].
intros g. now rewrite (coord_mean_perm _ g dfv dfv' perm).
Qed.

Lemma Age_perm (g : GroupKey) :
NewTables.Age haplo_col dfv g = NewTables.Age haplo_col dfv' g.
Proof.
unfold NewTables.Age. pose proof computed_age_perm as Hc.
destruct (NewTables.computed_age haplo_col dfv),
         (NewTables.computed_age haplo_col dfv'); try easy.
now rewrite Hc.
Qed.

Lemma output_row_perm (g : GroupKey) :
NewTables.output_row haplo_col dfv g = NewTables.output_row haplo_col dfv' g.
Proof.
unfold NewTables.output_row, NewTables.format_cell, NewTables.final_cols,
  NewTables.merged_df, NewTables.coord_df.
rewrite (Age_perm g), !(coord_mean_perm _ g dfv dfv' perm).
unfold NewTables.final_order_of_haplos, NewTables.related_subs,
  NewTables.subclade_percentage, NewTables.has_parent, NewTables.Total,
  NewTables.subclade_cols, NewTables.merged_sub, NewTables.pivot_basal,
  NewTables.Total_count, NewTables.Count_basal, NewTables.basal_letters,
  NewTables.pivot_sub, NewTables.pivot_basal_counts.
now rewrite grouped_basal_perm, grouped_sub_perm.
Qed.

Lemma output_rows_perm :
NewTables.output_rows haplo_col dfv = NewTables.output_rows haplo_col dfv'.
Proof.
unfold NewTables.output_rows, NewTables.pivot_basal_counts.
rewrite grouped_basal_perm. apply map_ext. apply output_row_perm.
Qed.

Lemma warnings_perm :
NewTables.warnings haplo_col dfv = NewTables.warnings haplo_col dfv'.
Proof.
unfold NewTables.warnings. f_equal; [|f_equal; [|f_equal]].
- unfold NewTables.Total_count, NewTables.Count_basal,
    NewTables.basal_letters, NewTables.pivot_basal_counts.
  now rewrite grouped_basal_perm.
- pose proof sub_valid_perm as Hp.
  destruct (NewTables.sub_valid haplo_col dfv),
           (NewTables.sub_valid haplo_col dfv'); try reflexivity.
  + apply Permutation_nil in Hp. discriminate.
  + symmetry in Hp. apply Permutation_nil in Hp. discriminate.
- unfold NewTables.subclade_warnings, NewTables.has_parent,
    NewTables.subclade_cols, NewTables.basal_letters,
    NewTables.pivot_sub, NewTables.pivot_basal_counts.
  now rewrite grouped_basal_perm, grouped_sub_perm.
- pose proof computed_age_perm as Hc.
  destruct (NewTables.computed_age haplo_col dfv),
           (NewTables.computed_age haplo_col dfv'); easy.
Qed.
End RowOrder.

(** X17.  The subclade-aware builder does not depend on the order of the
    input rows: two inputs with the same records in another order give the
    same error, or the same rows in the same order with the same
    warnings. *)
Theorem X17_row_order_irrelevant :
  forall (haplo_col : Row -> string) (df df' : list Row),
    Permutation df df' ->
    NewTables.make_haplo_table haplo_col df
    = NewTables.make_haplo_table haplo_col df'.
Proof.
  intros haplo_col df df' Hp.
  assert (Permutation (NewTables.filter_patterns haplo_col df)
                      (NewTables.filter_patterns haplo_col df')) as Hp1
      by (unfold NewTables.filter_patterns; now apply filter_perm).
  assert (Permutation (NewTables.df_valid haplo_col df)
                      (NewTables.df_valid haplo_col df')) as Hp2
      by (unfold NewTables.df_valid, NewTables.filter_shape;
          now apply filter_perm).
  destruct (NewTables.df_valid haplo_col df) as [|r l] eqn:Ev.
  - apply Permutation_nil in Hp2.
    unfold NewTables.make_haplo_table. rewrite Ev, Hp2.
    destruct (NewTables.filter_patterns haplo_col df),
             (NewTables.filter_patterns haplo_col df'); try reflexivity.
    + apply Permutation_nil in Hp1. discriminate.
    + symmetry in Hp1. apply Permutation_nil in Hp1. discriminate.
  - rewrite <- Ev in Hp2.
    assert (NewTables.df_valid haplo_col df <> []) as Hne by (rewrite Ev; easy).
    assert (NewTables.df_valid haplo_col df' <> []) as Hne'.
    { intros E. apply Hne. apply (perm_nil_iff _ _ Hp2). exact E. }
    rewrite (new_writes haplo_col df Hne), (new_writes haplo_col df' Hne').
    now rewrite (output_rows_perm haplo_col _ _ Hp2),
                (warnings_perm haplo_col _ _ Hp2).
Qed.

Lemma X17_row_order_irrelevant_witness :
  NewTables.make_haplo_table Y_haplogroup
    [Samples.X500 "A1"; Samples.X500 "A2"; Samples.X500 "B"]
  = NewTables.make_haplo_table Y_haplogroup
      [Samples.X500 "B"; Samples.X500 "A2"; Samples.X500 "A1"].
Proof.
  apply (X17_row_order_irrelevant Y_haplogroup).
  apply perm_trans with [Samples.X500 "A2"; Samples.X500 "A1"; Samples.X500 "B"].
  - apply perm_swap.
  - apply perm_trans with [Samples.X500 "A2"; Samples.X500 "B"; Samples.X500 "A1"].
    + apply perm_skip. apply perm_swap.
    + apply perm_swap.
Defined.

(** ** The two builders side by side *)

Lemma Forall2_map_both {X Y Z} (P : Y -> Z -> Prop) (f : X -> Y) (h : X -> Z)
      (l : list X) :
  (forall x, In x l -> P (f x) (h x)) -> Forall2 P (map f l) (map h l).
Proof.
  induction l as [|x l IH]; simpl; intros H; constructor.
  - apply H. now left.
  - apply IH. intros y Hy. apply H. now right.
Qed.

Lemma old_placeholder_new (x : string) :
  Py.isin x OldTables.invalid_patterns = true ->
  Py.isin x NewTables.invalid_patterns = true.
Proof.
  rewrite !isin_In. unfold OldTables.invalid_patterns,
    NewTables.invalid_patterns. cbn [In]. tauto.
Qed.

Lemma same_df_valid (haplo_col : Row -> string) (df : list Row) :
  (forall r, In r df ->
             NewTables.is_valid_haplo (haplo_col r) = true
             \/ Py.isin (Py.strip (haplo_col r)) OldTables.invalid_patterns
                = true) ->
  OldTables.df_valid haplo_col df = NewTables.df_valid haplo_col df.
Proof.
  intros Hall. rewrite new_df_valid_filter. unfold OldTables.df_valid.
  apply filter_ext_in. intros r Hr.
  destruct (Py.isin (Py.strip (haplo_col r)) OldTables.invalid_patterns) eqn:Eo.
  - apply old_placeholder_new in Eo. apply placeholders_invalid in Eo.
    now rewrite Eo.
  - destruct (Hall r Hr) as [Hv|Hp]; [now rewrite Hv | congruence].
Qed.

(** X18.  On an input in which every code is either one of the
    placeholders "", "..", "n/a", "N/A" or has the basal or subclade shape,
    the two builders count the same records: their tables have the same
    groups in the same order and the same basal letters, and every basal
    cell of the basal-only table equals the cell of the subclade-aware
    table. *)
Theorem X18_builders_agree_on_basal_columns :
  forall (haplo_col : Row -> string) (df : list Row)
         (old_rows rows : list FrameRow) (ws : list NewTables.Warning),
    (forall r, In r df ->
               NewTables.is_valid_haplo (haplo_col r) = true
               \/ Py.isin (Py.strip (haplo_col r)) OldTables.invalid_patterns
                  = true) ->
    OldTables.make_haplo_table haplo_col df = OldTables.Written old_rows ->
    NewTables.make_haplo_table haplo_col df = NewTables.Written rows ws ->
    OldTables.df_valid haplo_col df = NewTables.df_valid haplo_col df
    /\ columns (OldTables.pivot_df haplo_col df)
       = NewTables.basal_letters haplo_col (NewTables.df_valid haplo_col df)
    /\ Forall2
         (fun old_row row =>
            lookup "Ancient pop name" old_row = lookup "Ancient pop name" row
            /\ forall b,
                In b (NewTables.basal_letters haplo_col
                        (NewTables.df_valid haplo_col df)) ->
                exists p,
                  lookup b old_row = Some (Str (Np.fmt2 p ++ "%")%string)
                  /\ lookup b row = Some (Str (Np.fmt2 p ++ "%")%string))
         old_rows rows.
Proof.
  intros haplo_col df old_rows rows ws Hall Ho Hn.
  pose proof (same_df_valid haplo_col df Hall) as Hdf.
  pose proof (old_letters haplo_col df) as Hl. cbv zeta in Hl.
  rewrite Hdf in Hl.
  split; [exact Hdf|]. split; [exact Hl|].
  pose proof (new_written _ _ _ _ Hn) as (_ & -> & _).
  unfold OldTables.make_haplo_table in Ho.
  destruct (OldTables.computed_age haplo_col df) as [year|]; [|discriminate].
  injection Ho as <-.
  set (dfv := NewTables.df_valid haplo_col df) in *.
  assert (index (OldTables.pivot_df haplo_col df)
          = index (NewTables.pivot_basal_counts haplo_col dfv)) as Hi.
  { unfold OldTables.pivot_df, OldTables.grouped,
      NewTables.pivot_basal_counts, NewTables.grouped_basal.
    now rewrite Hdf. }
  unfold NewTables.output_rows.
  change (uniq (map (fun e : GroupKey * string * Z => fst (fst e))
                    (OldTables.grouped haplo_col df)))
    with (index (OldTables.pivot_df haplo_col df)).
  rewrite Hi. apply Forall2_map_both. intros g Hg.
  assert (0 < n_group dfv g) as Hpos
      by now apply n_group_pos with (haplo_col := haplo_col).
  split.
  - destruct (old_output_coord haplo_col df year g) as (-> & _).
    now destruct (output_coord haplo_col dfv g) as (-> & _).
  - intros b Hb. exists (NewTables.pivot_basal haplo_col dfv g b).
    split; [|now apply output_basal].
    rewrite old_output_basal by (rewrite Hl; exact Hb).
    rewrite <- Hdf in Hpos.
    destruct (old_percentage_n haplo_col df g b Hpos) as (p & -> & Ep).
    cbn [percent_cell]. do 3 f_equal. apply fmt2_comp.
    rewrite Ep, Hdf. fold dfv. rewrite pivot_basal_n. symmetry.
    apply percentage_pos. change 0%Q with (inject_Z 0).
    rewrite <- Zlt_Qlt. now rewrite <- Hdf.
Qed.

Lemma X18_builders_agree_on_basal_columns_witness :
  let df := [Samples.X500 "A1"; Samples.X500 ".."; Samples.X500 "b"] in
  OldTables.df_valid Y_haplogroup df = NewTables.df_valid Y_haplogroup df
  /\ columns (OldTables.pivot_df Y_haplogroup df)
     = NewTables.basal_letters Y_haplogroup (NewTables.df_valid Y_haplogroup df)
  /\ Forall2
       (fun old_row row =>
          lookup "Ancient pop name" old_row = lookup "Ancient pop name" row
          /\ forall b,
              In b (NewTables.basal_letters Y_haplogroup
                      (NewTables.df_valid Y_haplogroup df)) ->
              exists p,
                lookup b old_row = Some (Str (Np.fmt2 p ++ "%")%string)
                /\ lookup b row = Some (Str (Np.fmt2 p ++ "%")%string))
       (map (OldTables.output_row Y_haplogroup df (fun _ => 1450))
            (index (OldTables.pivot_df Y_haplogroup df)))
       (NewTables.output_rows Y_haplogroup (NewTables.df_valid Y_haplogroup df)).
Proof.
  intros df.
  apply (X18_builders_agree_on_basal_columns Y_haplogroup df _ _
           (NewTables.warnings Y_haplogroup (NewTables.df_valid Y_haplogroup df))).
  - intros r [<-|[<-|[<-|[]]]]; [now left | now right | now left].
  - reflexivity.
  - reflexivity.
Defined.
